(** * EVS reconciliation engine: ledger, matcher and candidate rules

    A shallow embedding of the matching core of the repository
    ([manual_db_v2_fixed.py], [matcher_v2_extended.py], [db_utils_v2.py])
    and the properties of its specification that were checked against it.

    The four tables of the store are lists of rows, in insertion order.
    SQL statements become list functions; a Python exception that makes a
    call roll back becomes [None]. *)

From Stdlib Require Import ZArith Ascii String.
From stdpp Require Import gmap strings list sorting.

#[local] Open Scope Z_scope.

(** ** The store ([db_utils_v2.init_db]) *)

Module Store.

(** [init_db] creates the same tables for both engines, with one
    difference that matters here: only the PostgreSQL branch creates the
    unique index [uq_conc_base_id] on [conciliados(base, id)]; the SQLite
    branch creates the plain index [idx_conc_base_id]. *)
Inductive backend := SQLite | Postgres.

Definition lock_unique (e : backend) : bool :=
  match e with Postgres => true | SQLite => false end.

(** The [BASE] column of [conciliados]: the text 'FIS' or 'CTB'. *)
Inductive base := FIS | CTB.

#[global] Instance base_eq_dec : EqDecision base.
Proof. solve_decision. Defined.

(** Rows of [fisico] and [contabil]; only the columns read by the
    modelled functions are kept. Every column is nullable. *)
Record fis_row := FisRow {
  fis_ID : option Z;
  fis_NRBRM : option Z;
  fis_FRAG : option string;
  fis_DESCRICAO : option string;
  fis_DESC_NORM : option string;
  fis_SERIE_NORM : option string;
  fis_MODELO_NORM : option string;
  fis_TAG_NORM : option string }.

Record ctb_row := CtbRow {
  ctb_ID : option Z;
  ctb_NRBRM : option Z;
  ctb_INC : option Z;
  ctb_FRAG : option string;
  ctb_DESCRICAO : option string;
  ctb_DESC_NORM : option string;
  ctb_SERIE_NORM : option string;
  ctb_MODELO_NORM : option string }.

(** A row of the ledger [depara]. [ID_FISICO] and [ID_CONTABIL] are
    NOT NULL with default 0. *)
Record depara_row := DeparaRow {
  PAR_ID : Z;
  ST_CONCILIACAO : string;
  ID_FISICO : Z;
  ID_CONTABIL : Z;
  NRBRM : option Z;
  INC_CONTABIL : option Z }.

(** A row of the lock table [conciliados]. *)
Record conc_row := ConcRow {
  conc_BASE : base;
  conc_ID : Z;
  conc_PAR_ID : Z }.

Record db := Db {
  engine : backend;
  fisico : list fis_row;
  contabil : list ctb_row;
  depara : list depara_row;
  conciliados : list conc_row }.

#[global] Instance fis_row_eq_dec : EqDecision fis_row.
Proof. solve_decision. Defined.
#[global] Instance ctb_row_eq_dec : EqDecision ctb_row.
Proof. solve_decision. Defined.
#[global] Instance depara_row_eq_dec : EqDecision depara_row.
Proof. solve_decision. Defined.
#[global] Instance conc_row_eq_dec : EqDecision conc_row.
Proof. solve_decision. Defined.

(** [COALESCE(x, 0)] *)
Definition coalesce (o : option Z) : Z := default 0 o.

(** [SELECT MAX(col)]: NULL on an empty table. *)
Fixpoint sql_max (l : list Z) : option Z :=
  match l with
  | [] => None
  | x :: t => Some (match sql_max t with None => x | Some m => Z.max x m end)
  end.

(** [SELECT 1 FROM conciliados WHERE BASE=b AND ID=i LIMIT 1] returns a row. *)
Definition locked (d : db) (b : base) (i : Z) : Prop :=
  Exists (λ r, conc_BASE r = b ∧ conc_ID r = i) (conciliados d).

#[global] Instance locked_dec d b i : Decision (locked d b i).
Proof. unfold locked. apply _. Defined.

(** [t.ID IS NOT NULL AND NOT EXISTS (SELECT 1 FROM conciliados c
    WHERE c.BASE=b AND c.ID=t.ID)] *)
Definition pending_id (d : db) (b : base) (o : option Z) : bool :=
  match o with
  | Some i => bool_decide (¬ locked d b i)
  | None => false
  end.

(** [SELECT ... FROM contabil WHERE ID=?] followed by [fetchone()]. *)
Definition contabil_by_id (d : db) (i : Z) : option ctb_row :=
  head (filter (λ r, ctb_ID r = Some i) (contabil d)).

Definition fisico_by_id (d : db) (i : Z) : option fis_row :=
  head (filter (λ r, fis_ID r = Some i) (fisico d)).

(** [INSERT OR IGNORE INTO conciliados ...] run by [executemany]: one row
    after the other. A row is ignored only when it violates a uniqueness
    constraint, and the only one is the index on (BASE, ID) of the
    PostgreSQL schema ([_rewrite_insert_or_ignore] turns the statement into
    [ON CONFLICT DO NOTHING] there). *)
Definition insert_or_ignore_row (e : backend) (tbl : list conc_row) (r : conc_row)
  : list conc_row :=
  if lock_unique e
  then if decide (Exists (λ x, conc_BASE x = conc_BASE r ∧ conc_ID x = conc_ID r) tbl)
       then tbl else tbl ++ [r]
  else tbl ++ [r].

Definition insert_or_ignore (e : backend) (tbl rows : list conc_row) : list conc_row :=
  foldl (insert_or_ignore_row e) tbl rows.

End Store.

(** ** Python strings

    A Python [str] is modelled as a sequence of code points below 256
    (Latin-1), which covers the Portuguese text of the two registers; the
    functions below agree with Python on that range. *)

Module Text.

Definition code (c : ascii) : N := N_of_ascii c.

Definition between (lo hi : N) (c : ascii) : bool :=
  ((lo <=? code c) && (code c <=? hi))%N.

(** [str.isspace] on one code point; also the class [\s] of [re]. *)
Definition is_space (c : ascii) : bool :=
  between 9 13 c || between 28 32 c || (code c =? 133)%N || (code c =? 160)%N.

Definition is_digit (c : ascii) : bool := between 48 57 c.
Definition is_upper_az (c : ascii) : bool := between 65 90 c.
Definition is_lower_az (c : ascii) : bool := between 97 122 c.

(** [str.upper] on one code point. The sharp s becomes two letters. The
    micro sign and the y with diaeresis have their capital above 255: they
    are left in place, which no caller can observe, since callers only compare
    the result with ASCII or Latin-1 capitals or cut it into [A-Z0-9] runs. *)
Definition upper_char (c : ascii) : list ascii :=
  if is_lower_az c || between 224 246 c || between 248 254 c
  then [ascii_of_N (code c - 32)]
  else if (code c =? 223)%N then ["S"; "S"]%char
  else [c].

Definition upper (s : list ascii) : list ascii := s ≫= upper_char.

Fixpoint lstrip (s : list ascii) : list ascii :=
  match s with
  | c :: t => if is_space c then lstrip t else s
  | [] => []
  end.

(** [str.strip()] *)
Definition strip (s : list ascii) : list ascii :=
  reverse (lstrip (reverse (lstrip s))).

Definition chars (s : string) : list ascii := list_ascii_of_string s.
Definition text (l : list ascii) : string := string_of_list_ascii l.

End Text.

(** ** The ledger ([manual_db_v2_fixed.py]) *)

Module Ledger.
Import Store Text.

Record PendingCounts := MkCounts { fis : Z; ctb : Z }.

(** [get_counts]: rows with an id and no lock row on their side. *)
Definition get_counts (d : db) : PendingCounts :=
  {| fis := Z.of_nat (length (filter (λ f, pending_id d FIS (fis_ID f)) (fisico d)));
     ctb := Z.of_nat (length (filter (λ t, pending_id d CTB (ctb_ID t)) (contabil d))) |}.

(** The local variables of one commit call. *)
Record save_state := SaveState {
  next_par_id : Z;
  depara_rows : list depara_row;
  conc_rows : list conc_row;
  pending_ctb_ids : gset Z;
  pending_fis_ids : gset Z;
  saved : Z }.

Definition begin_save (d : db) : save_state :=
  {| next_par_id := coalesce (sql_max (PAR_ID <$> depara d)) + 1;
     depara_rows := []; conc_rows := [];
     pending_ctb_ids := ∅; pending_fis_ids := ∅; saved := 0 |}.

(** The tail of both loop bodies: one ledger row, one lock row per side
    with a positive id, and the bookkeeping. *)
Definition append_pair (s : save_state) (st : string) (fis_id ctb_id : Z)
    (nrbrm : Z) (inc_ctb : option Z) (ctb_always : bool) : save_state :=
  let par := next_par_id s in
  let with_fis := bool_decide (0 < fis_id) in
  let with_ctb := ctb_always || bool_decide (0 < ctb_id) in
  {| next_par_id := par + 1;
     depara_rows := depara_rows s ++ [DeparaRow par st fis_id ctb_id (Some nrbrm) inc_ctb];
     conc_rows := conc_rows s
                  ++ (if with_fis then [ConcRow FIS fis_id par] else [])
                  ++ (if with_ctb then [ConcRow CTB ctb_id par] else []);
     pending_ctb_ids := if with_ctb then {[ctb_id]} ∪ pending_ctb_ids s
                        else pending_ctb_ids s;
     pending_fis_ids := if with_fis then {[fis_id]} ∪ pending_fis_ids s
                        else pending_fis_ids s;
     saved := saved s + 1 |}.

(** The two [executemany] calls that end a commit. *)
Definition write_rows (d : db) (s : save_state) : db :=
  {| engine := engine d; fisico := fisico d; contabil := contabil d;
     depara := depara d ++ depara_rows s;
     conciliados := insert_or_ignore (engine d) (conciliados d) (conc_rows s) |}.

(** *** [save_pairs] *)

(** One iteration of [for fis_id_in, ctb_id_in in pairs]; every
    [continue] returns the state unchanged. The store is only read: the
    rows are written after the loop. *)
Definition save_pairs_row (d : db) (st : string) (s : save_state) (p : Z * Z)
  : save_state :=
  let fis_id := p.1 in
  let ctb_id := p.2 in
  if decide (fis_id ≤ 0 ∧ ctb_id ≤ 0) then s
  else if decide (0 < fis_id ∧ locked d FIS fis_id) then s
  else if decide (0 < ctb_id ∧ locked d CTB ctb_id) then s
  else
    let keys : option (Z * option Z) :=
      if decide (0 < ctb_id) then
        rowc ← contabil_by_id d ctb_id;
        Some (coalesce (ctb_NRBRM rowc), Some (coalesce (ctb_INC rowc)))
      else if decide (0 < fis_id) then
        rowf ← fisico_by_id d fis_id;
        Some (coalesce (fis_NRBRM rowf), None)
      else Some (0, None) in
    match keys with
    | None => s
    | Some (nrbrm, inc_ctb) =>
      if decide (0 < fis_id ∧ locked d FIS fis_id) then s
      else if decide (0 < ctb_id ∧ locked d CTB ctb_id) then s
      else append_pair s st fis_id ctb_id nrbrm inc_ctb false
    end.

Definition save_pairs (d : db) (pairs : list (Z * Z)) (st_conciliacao : string)
  : db * Z :=
  match pairs with
  | [] => (d, 0)
  | _ =>
    let s := foldl (save_pairs_row d st_conciliacao) (begin_save d) pairs in
    (write_rows d s, saved s)
  end.

(** *** [save_pairs_with_family] *)

Definition NAO_CHAPEAVEL : string :=
  String "N" (String "195" (String.append "O CHAPE" (String "193" "VEL"))).

Definition _child_status_for_origin (origin : string) : string :=
  let origin_norm := text (upper (strip (chars origin))) in
  if decide (origin_norm = "MANUAL") then "CM - INC"
  else if decide (origin_norm = "DIRETA") then "CD - INC"
  else if decide (origin_norm = NAO_CHAPEAVEL ∨ origin_norm = "NAO CHAPEAVEL")
       then "CN - INC"
  else origin.

(** One iteration of the first loop. The accumulator carries the state
    and the list [involved] of (nrbrm, fis_id anchor). *)
Definition family_main_row (d : db) (st child_status : string)
    (acc : save_state * list (Z * Z)) (p : Z * Z) : save_state * list (Z * Z) :=
  let s := acc.1 in
  let fis_id := p.1 in
  let ctb_id := p.2 in
  if decide (fis_id ≤ 0 ∧ ctb_id ≤ 0) then acc
  else if decide (0 < fis_id ∧ locked d FIS fis_id) then acc
  else if decide (0 < ctb_id ∧ (ctb_id ∈ pending_ctb_ids s ∨ locked d CTB ctb_id))
       then acc
  else if decide (0 < ctb_id) then
    match contabil_by_id d ctb_id with
    | None => acc
    | Some rowc =>
      let nrbrm := coalesce (ctb_NRBRM rowc) in
      let inc_ctb := coalesce (ctb_INC rowc) in
      let st_for_row := if decide (inc_ctb ≠ 0) then child_status else st in
      (append_pair s st_for_row fis_id ctb_id nrbrm (Some inc_ctb) false,
       acc.2 ++ [(nrbrm, fis_id)])
    end
  else if decide (0 < fis_id) then
    match fisico_by_id d fis_id with
    | None => acc
    | Some rowf =>
      (append_pair s st fis_id ctb_id (coalesce (fis_NRBRM rowf)) None false, acc.2)
    end
  else (append_pair s st fis_id ctb_id 0 None false, acc.2).

(** [ORDER BY COALESCE(INC,0), ID] on the rows (ID, COALESCE(INC,0)); a
    NULL id sorts first. Two rows compare equal only when they are the
    same tuple, so the sorted list does not depend on the engine's choice
    among ties. *)
Definition fam_le (a b : option Z * Z) : Prop :=
  a.2 < b.2 ∨ (a.2 = b.2 ∧
    match a.1, b.1 with
    | None, _ => True
    | Some _, None => False
    | Some x, Some y => x ≤ y
    end).

#[global] Instance fam_le_dec a b : Decision (fam_le a b).
Proof. unfold fam_le. destruct a as [[x|] ?], b as [[y|] ?]; apply _. Defined.

(** [SELECT ID, COALESCE(INC,0) FROM contabil WHERE COALESCE(NRBRM,0)=?
    ORDER BY COALESCE(INC,0), ID] *)
Definition family_of (d : db) (nrbrm : Z) : list (option Z * Z) :=
  merge_sort fam_le
    ((λ r, (ctb_ID r, coalesce (ctb_INC r)))
       <$> filter (λ r, coalesce (ctb_NRBRM r) = nrbrm) (contabil d)).

(** One iteration of [for ctb_id, inc_val in fam]. [int(ctb_id)] raises on
    a NULL id: the accumulator becomes [None] and stays so. *)
Definition propagate_row (d : db) (st child_status : string) (nrbrm fis_anchor : Z)
    (acc : option save_state) (fr : option Z * Z) : option save_state :=
  s ← acc;
  ctb_id ← fr.1;
  let inc_val := fr.2 in
  if decide (ctb_id ∈ pending_ctb_ids s ∨ locked d CTB ctb_id) then Some s
  else
    let st_for_row := if decide (inc_val ≠ 0) then child_status else st in
    Some (append_pair s st_for_row fis_anchor ctb_id nrbrm (Some inc_val) true).

(** One iteration of [for nrbrm, fis_anchor in involved]. *)
Definition propagate_family (d : db) (st child_status : string)
    (acc : option save_state) (nv : Z * Z) : option save_state :=
  s ← acc;
  if decide (nv.1 ≤ 0) then Some s
  else foldl (propagate_row d st child_status nv.1 nv.2) (Some s) (family_of d nv.1).

(** [None]: the call raised, and the transaction was rolled back. *)
Definition save_pairs_with_family (d : db) (pairs : list (Z * Z))
    (st_conciliacao : string) : option (db * Z) :=
  match pairs with
  | [] => Some (d, 0)
  | _ =>
    let child_status := _child_status_for_origin st_conciliacao in
    let main := foldl (family_main_row d st_conciliacao child_status)
                      (begin_save d, []) pairs in
    s ← foldl (propagate_family d st_conciliacao child_status) (Some main.1) main.2;
    Some (write_rows d s, saved s)
  end.

Definition save_manual_pairs d pairs := save_pairs_with_family d pairs "MANUAL".
Definition save_direct_pairs d pairs := save_pairs_with_family d pairs "DIRETA".
Definition save_nao_chapeavel_pairs d pairs :=
  save_pairs_with_family d pairs NAO_CHAPEAVEL.

(** *** [undo_pairs] *)

Record undo_result := UndoResult {
  removed_depara : Z;
  removed_conc : Z;
  unmarked_fis : Z;
  unmarked_ctb : Z }.

(** The first loop: duplicates dropped, then keys with no positive side. *)
Fixpoint norm_pairs (seen : gset (Z * Z)) (pairs : list (Z * Z)) : list (Z * Z) :=
  match pairs with
  | [] => []
  | key :: t =>
    if decide (key ∈ seen) then norm_pairs seen t
    else (if decide (key.1 ≤ 0 ∧ key.2 ≤ 0) then [] else [key])
         ++ norm_pairs ({[key]} ∪ seen) t
  end.

(** The PAR_IDs selected for one key. *)
Definition undo_key_rows (d : db) (key : Z * Z) : list Z :=
  let fis_id := key.1 in
  let ctb_id := key.2 in
  if decide (0 < fis_id ∧ 0 < ctb_id) then
    let rows := PAR_ID <$> filter (λ r, ID_FISICO r = fis_id ∧ ID_CONTABIL r = ctb_id)
                                  (depara d) in
    match contabil_by_id d ctb_id with
    | Some fam =>
      let nrbrm := coalesce (ctb_NRBRM fam) in
      if decide (0 < nrbrm ∧ coalesce (ctb_INC fam) = 0)
      then rows ++ (PAR_ID <$> filter (λ r, coalesce (NRBRM r) = nrbrm ∧ ID_FISICO r = fis_id)
                                      (depara d))
      else rows
    | None => rows
    end
  else if decide (0 < fis_id ∧ ctb_id ≤ 0) then
    PAR_ID <$> filter (λ r, ID_FISICO r = fis_id) (depara d)
  else
    let rows := PAR_ID <$> filter (λ r, ID_CONTABIL r = ctb_id) (depara d) in
    match contabil_by_id d ctb_id with
    | Some fam =>
      let nrbrm := coalesce (ctb_NRBRM fam) in
      if decide (0 < nrbrm ∧ coalesce (ctb_INC fam) = 0)
      then rows ++ (PAR_ID <$> filter (λ r, coalesce (NRBRM r) = nrbrm) (depara d))
      else rows
    | None => rows
    end.

Record undo_sets := UndoSets {
  par_ids : gset Z;
  fis_ids : gset Z;
  ctb_ids : gset Z }.

Definition undo_key (d : db) (u : undo_sets) (key : Z * Z) : undo_sets :=
  {| par_ids := list_to_set (undo_key_rows d key) ∪ par_ids u;
     fis_ids := if decide (0 < key.1) then {[key.1]} ∪ fis_ids u else fis_ids u;
     ctb_ids := if decide (0 < key.2) then {[key.2]} ∪ ctb_ids u else ctb_ids u |}.

(** The ids of the ledger rows about to be removed join the id sets. *)
Definition undo_impacted (d : db) (u : undo_sets) : undo_sets :=
  let impacted := filter (λ r, PAR_ID r ∈ par_ids u) (depara d) in
  {| par_ids := par_ids u;
     fis_ids := list_to_set (filter (λ i, 0 < i) (ID_FISICO <$> impacted)) ∪ fis_ids u;
     ctb_ids := list_to_set (filter (λ i, 0 < i) (ID_CONTABIL <$> impacted)) ∪ ctb_ids u |}.

Definition id_in (o : option Z) (ids : gset Z) : bool :=
  match o with
  | Some i => bool_decide (i ∈ ids)
  | None => false
  end.

Definition count_where {A} (P : A → Prop) `{∀ x, Decision (P x)} (l : list A) : Z :=
  Z.of_nat (length (filter P l)).

(** [DELETE FROM t WHERE P]: the remaining rows and [cur.rowcount]. *)
Definition sql_delete {A} (P : A → Prop) `{∀ x, Decision (P x)} (tbl : list A)
  : list A * Z :=
  (filter (λ r, ¬ P r) tbl, count_where P tbl).

(** [UPDATE fisico SET FRAG=NULL WHERE ID IN (...)] *)
Definition clear_fis_frag (ids : gset Z) (f : fis_row) : fis_row :=
  if id_in (fis_ID f) ids
  then FisRow (fis_ID f) (fis_NRBRM f) None (fis_DESCRICAO f) (fis_DESC_NORM f)
              (fis_SERIE_NORM f) (fis_MODELO_NORM f) (fis_TAG_NORM f)
  else f.

Definition clear_ctb_frag (ids : gset Z) (t : ctb_row) : ctb_row :=
  if id_in (ctb_ID t) ids
  then CtbRow (ctb_ID t) (ctb_NRBRM t) (ctb_INC t) None (ctb_DESCRICAO t)
              (ctb_DESC_NORM t) (ctb_SERIE_NORM t) (ctb_MODELO_NORM t)
  else t.

(** The DELETE and UPDATE statements, once the sets are known. *)
Definition undo_apply (d : db) (u : undo_sets) : db * undo_result :=
  let dep := sql_delete (λ r, PAR_ID r ∈ par_ids u) (depara d) in
  let c1 := sql_delete (λ r, conc_PAR_ID r ∈ par_ids u) (conciliados d) in
  let c2 := sql_delete (λ r, conc_BASE r = FIS ∧ conc_ID r ∈ fis_ids u) c1.1 in
  let c3 := sql_delete (λ r, conc_BASE r = CTB ∧ conc_ID r ∈ ctb_ids u) c2.1 in
  ({| engine := engine d;
      fisico := clear_fis_frag (fis_ids u) <$> fisico d;
      contabil := clear_ctb_frag (ctb_ids u) <$> contabil d;
      depara := dep.1;
      conciliados := c3.1 |},
   {| removed_depara := dep.2;
      removed_conc := c1.2 + c2.2 + c3.2;
      unmarked_fis := count_where (λ f, id_in (fis_ID f) (fis_ids u)) (fisico d);
      unmarked_ctb := count_where (λ t, id_in (ctb_ID t) (ctb_ids u)) (contabil d) |}).

Definition undo_pairs (d : db) (pairs : list (Z * Z)) : db * undo_result :=
  match norm_pairs ∅ pairs with
  | [] => (d, UndoResult 0 0 0 0)
  | keys => undo_apply d (undo_impacted d (foldl (undo_key d) (UndoSets ∅ ∅ ∅) keys))
  end.

End Ledger.

(** ** The unattended engine ([matcher_v2_extended.py]) *)

Module Matcher.
Import Store.

Record MatchStats := MkStats {
  st : string;
  candidatos_fisico : Z;
  candidatos_contabil : Z;
  conciliados : Z }.

(** [COALESCE(t.FRAG, '') <> 'Conciliado'] *)
Definition frag_open (frag : option string) : Prop :=
  default ""%string frag ≠ "Conciliado"%string.

#[global] Instance frag_open_dec frag : Decision (frag_open frag).
Proof. unfold frag_open. apply _. Defined.

Definition id_among (o : option Z) (ids : list Z) : bool :=
  match o with
  | Some i => bool_decide (i ∈ ids)
  | None => false
  end.

(** [_read_pending] on [fisico] and on [contabil], as a SQLite connection
    answers it: the rows with an id, not marked in FRAG and without a lock
    row on their side. The caller's column list is a projection of these
    rows. (On the PostgreSQL schema of [init_db] the query names the quoted
    upper-case columns, which that schema does not have, and the call
    raises; the functions of this module are modelled on SQLite, and the
    properties that depend on it say so.) *)
Definition _read_pending_fisico (d : db) : list fis_row :=
  filter (λ t, pending_id d FIS (fis_ID t) ∧ frag_open (fis_FRAG t)) (fisico d).

Definition _read_pending_contabil (d : db) : list ctb_row :=
  filter (λ t, pending_id d CTB (ctb_ID t) ∧ frag_open (ctb_FRAG t)) (contabil d).

(** *** [_pair_1to1_by_value] *)

Section Pairing.
Context {K : Type} `{EqDecision K}.

(** A frame row: (ID, key), tagged with its position in the frame. *)
Definition indexed (df : list (Z * K)) : list (nat * (Z * K)) :=
  imap (λ i r, (i, r)) df.

(** [b] comes before [a] in [groupby(key)["ID"].rank(method="first")]:
    same group, and a smaller ID or the same ID earlier in the frame. *)
Definition precedes (b a : nat * (Z * K)) : Prop :=
  b.2.2 = a.2.2 ∧ (b.2.1 < a.2.1 ∨ (b.2.1 = a.2.1 ∧ (b.1 < a.1)%nat)).

#[global] Instance precedes_dec b a : Decision (precedes b a).
Proof. unfold precedes. apply _. Defined.

Definition rank_in (t : list (nat * (Z * K))) (a : nat * (Z * K)) : Z :=
  1 + Z.of_nat (length (filter (λ b, precedes b a) t)).

(** The frame with its column [_rk]. *)
Definition with_rk (df : list (Z * K)) : list ((Z * K) * Z) :=
  (λ a, (a.2, rank_in (indexed df) a)) <$> indexed df.

(** [df_f.merge(df_c, left_on=[key, "_rk"], right_on=[key, "_rk"])]: an
    inner join in the order of the left frame. The result rows are
    (ID_FISICO, ID_CONTABIL, key). *)
Definition _pair_1to1_by_value (df_f df_c : list (Z * K)) : list (Z * Z * K) :=
  l ← with_rk df_f;
  r ← filter (λ r, r.1.2 = l.1.2 ∧ r.2 = l.2) (with_rk df_c);
  [(l.1.1, r.1.1, l.1.2)].
End Pairing.

(** *** [_bulk_insert_pairs] *)

(** A row of the [pairs] frame. *)
Record pair_row := PairRow {
  p_ID_FISICO : Z;
  p_ID_CONTABIL : Z;
  p_NRBRM : Z;
  p_INC_CONTABIL : Z }.

Definition _next_par_id (d : db) : Z :=
  let v := coalesce (sql_max (PAR_ID <$> depara d)) + 1 in
  if decide (v = 0) then 1 else v.

Definition mark_fis (ids : list Z) (f : fis_row) : fis_row :=
  if id_among (fis_ID f) ids
  then FisRow (fis_ID f) (fis_NRBRM f) (Some "Conciliado"%string) (fis_DESCRICAO f)
              (fis_DESC_NORM f) (fis_SERIE_NORM f) (fis_MODELO_NORM f) (fis_TAG_NORM f)
  else f.

Definition mark_ctb (ids : list Z) (t : ctb_row) : ctb_row :=
  if id_among (ctb_ID t) ids
  then CtbRow (ctb_ID t) (ctb_NRBRM t) (ctb_INC t) (Some "Conciliado"%string)
              (ctb_DESCRICAO t) (ctb_DESC_NORM t) (ctb_SERIE_NORM t) (ctb_MODELO_NORM t)
  else t.

Definition bulk_depara (start : Z) (stc : string) (pairs : list pair_row)
  : list depara_row :=
  imap (λ i r, DeparaRow (start + Z.of_nat i) stc (p_ID_FISICO r) (p_ID_CONTABIL r)
                         (Some (p_NRBRM r)) (Some (p_INC_CONTABIL r))) pairs.

Definition bulk_conc (start : Z) (pairs : list pair_row) : list conc_row :=
  mjoin (imap (λ i r,
    (if decide (0 < p_ID_FISICO r)
     then [ConcRow FIS (p_ID_FISICO r) (start + Z.of_nat i)] else [])
    ++ [ConcRow CTB (p_ID_CONTABIL r) (start + Z.of_nat i)]) pairs).

Definition _bulk_insert_pairs (d : db) (pairs : list pair_row) (stc : string) : db * Z :=
  match pairs with
  | [] => (d, 0)
  | _ =>
    let start := _next_par_id d in
    ({| engine := engine d;
        fisico := mark_fis (filter (λ i, 0 < i) (p_ID_FISICO <$> pairs)) <$> fisico d;
        contabil := mark_ctb (p_ID_CONTABIL <$> pairs) <$> contabil d;
        depara := depara d ++ bulk_depara start stc pairs;
        Store.conciliados :=
          insert_or_ignore (engine d) (Store.conciliados d) (bulk_conc start pairs) |},
     Z.of_nat (length pairs))
  end.

(** *** The group-key rule and the propagation pass *)

(** The key columns hold the integers of the registers. pandas keeps such a
    column as int64, or as float64 when a row of the frame has NULL in it,
    and a double holds an integer exactly up to 2^53 in magnitude: the
    model covers the keys of that range, and the properties that depend on
    it say so. *)
Definition fis_key_frame (rows : list fis_row) : list (Z * Z) :=
  omap (λ r, i ← fis_ID r; k ← fis_NRBRM r; Some (i, k)) rows.

(** [dropna(subset=["NRBRM"])] and [df_c["INC"] == 0] after [fillna(0)]. *)
Definition ctb_parent_frame (rows : list ctb_row) : list (Z * Z) :=
  omap (λ r, i ← ctb_ID r; k ← ctb_NRBRM r;
             if decide (coalesce (ctb_INC r) = 0) then Some (i, k) else None) rows.

Definition run_regra_nrbrm_pai (d : db) : db * MatchStats :=
  let stc := "NRBEM_FIS=NRBEM_CTB"%string in
  let df_f := _read_pending_fisico d in
  let df_c := _read_pending_contabil d in
  let cand_f := Z.of_nat (length df_f) in
  let cand_c := Z.of_nat (length df_c) in
  let df_f := fis_key_frame df_f in
  let df_c := ctb_parent_frame df_c in
  match df_f, df_c with
  | [], _ | _, [] => (d, MkStats stc cand_f cand_c 0)
  | _, _ =>
    let pairs := (λ m, PairRow m.1.1 m.1.2 m.2 0) <$> _pair_1to1_by_value df_f df_c in
    let r := _bulk_insert_pairs d pairs stc in
    (r.1, MkStats stc cand_f cand_c r.2)
  end.

Definition run_propagacao_incorporados (d : db) : db * MatchStats :=
  let stc := "CA - INC"%string in
  let df_pais :=
    (λ r, (ID_FISICO r, ID_CONTABIL r, NRBRM r))
      <$> filter (λ r, coalesce (INC_CONTABIL r) = 0) (depara d) in
  let cand_f := Z.of_nat (length (remove_dups ((λ r, r.1.1) <$> df_pais))) in
  let df_filhos := _read_pending_contabil d in
  let cand_c := Z.of_nat (length df_filhos) in
  match df_pais, df_filhos with
  | [], _ | _, [] => (d, MkStats stc cand_f cand_c 0)
  | _, _ =>
    let df_filhos :=
      omap (λ r, i ← ctb_ID r; k ← ctb_NRBRM r;
                 if decide (coalesce (ctb_INC r) ≠ 0)
                 then Some (i, k, coalesce (ctb_INC r)) else None) df_filhos in
    let df_pais := omap (λ r, k ← r.2; Some (r.1.1, k)) df_pais in
    match df_pais, df_filhos with
    | [], _ | _, [] => (d, MkStats stc cand_f cand_c 0)
    | _, _ =>
      let m := c ← df_filhos;
               p ← filter (λ p, p.2 = c.1.2) df_pais;
               [PairRow p.1 c.1.1 c.1.2 c.2] in
      let r := _bulk_insert_pairs d m stc in
      (r.1, MkStats stc cand_f cand_c r.2)
    end
  end.

End Matcher.

(** ** The description-similarity rule (rule 6 of [AUTO02_RULES]) *)

Module Similarity.
Import Store Text.

(** *** [_strip_noise_fields] *)

(** The class [\w] of [re] on the modelled range. *)
Definition is_word (c : ascii) : bool :=
  is_digit c || is_upper_az c || is_lower_az c || (code c =? 95)%N
  || (code c =? 170)%N || between 178 179 c || (code c =? 181)%N
  || between 185 186 c || between 188 190 c || between 192 214 c
  || between 216 246 c || between 248 255 c.

(** The alternation [(MCA|MOD|SERIE|CAP|CAPACIDADE|TAG)], in this order. *)
Definition label_alternatives : list string :=
  ["MCA"; "MOD"; "SERIE"; "CAP"; "CAPACIDADE"; "TAG"]%string.

(** A capital of the pattern against a character of the text under
    [re.IGNORECASE]. *)
Definition eq_ignorecase (a b : ascii) : bool :=
  (code b =? code a)%N || (code b =? code a + 32)%N.

(** The text after the label, when the text starts with it. *)
Fixpoint match_label (lab s : list ascii) : option (list ascii) :=
  match lab, s with
  | [], _ => Some s
  | a :: lab', b :: s' => if eq_ignorecase a b then match_label lab' s' else None
  | _ :: _, [] => None
  end.

Fixpoint skip_spaces (s : list ascii) : list ascii :=
  match s with
  | c :: t => if is_space c then skip_spaces t else s
  | [] => []
  end.

Definition is_sep (c : ascii) : bool := (code c =? 58)%N || (code c =? 61)%N.

(** [(LABEL)\s*[:=]\s*] at the start of [s]: the text after it. The first
    alternative that is followed by [\s*[:=]] is the one the pattern takes. *)
Definition header_from (labs : list string) (s : list ascii) : option (list ascii) :=
  foldr (λ lab other,
           match skip_spaces <$> match_label (chars lab) s with
           | Some (c :: r) => if is_sep c then Some (skip_spaces r) else other
           | _ => other
           end) None labs.

Definition header (s : list ascii) : option (list ascii) :=
  header_from label_alternatives s.

(** [\b(LABEL)\s*[:=]] holds at [s], whose previous character is [prev]:
    the start of a match, and also the lookahead that ends the lazy body
    of the previous one. *)
Definition label_at (prev : option ascii) (s : list ascii) : bool :=
  match prev with
  | Some p => negb (is_word p) && bool_decide (is_Some (header s))
  | None => bool_decide (is_Some (header s))
  end.

Inductive scan_mode :=
| Copy              (* outside a match: characters are kept *)
| Head (k : nat)    (* inside the label, separator and spaces: k left *)
| Body.             (* inside the lazy body of a match *)

(** [re.sub(pattern, " ", s)], left to right. A match lasts until the next
    position where the lookahead holds, or the end of the text. *)
Fixpoint scan (prev : option ascii) (m : scan_mode) (s : list ascii) : list ascii :=
  match s with
  | [] => []
  | c :: t =>
    match m with
    | Head (S (S k)) => scan (Some c) (Head (S k)) t
    | Head _ => scan (Some c) Body t
    | _ =>
      if label_at prev s then
        let k := (length s - length (default [] (header s)) - 1)%nat in
        " "%char :: scan (Some c) (match k with O => Body | _ => Head k end) t
      else
        match m with
        | Copy => c :: scan (Some c) Copy t
        | _ => scan (Some c) Body t
        end
    end
  end.

Definition unbreak (c : ascii) : ascii :=
  if (code c =? 10)%N || (code c =? 13)%N then " "%char else c.

Definition _strip_noise_fields (desc : string) : string :=
  if decide (desc = ""%string) then ""%string
  else text (scan None Copy (unbreak <$> chars desc)).

(** *** [_desc_attr_set] *)

Definition _STOP_LABELS : list string :=
  ["MCA"; "MOD"; "SERIE"; "CAP"; "CAPACIDADE"; "TAG"]%string.

Definition is_token_char (c : ascii) : bool := is_upper_az c || is_digit c.

(** [re.findall(r"[A-Z0-9]+", s)]: the maximal runs, left to right. *)
Fixpoint findall_go (cur : list ascii) (s : list ascii) : list string :=
  match s with
  | [] => match cur with [] => [] | _ => [text cur] end
  | c :: t =>
    if is_token_char c then findall_go (cur ++ [c]) t
    else match cur with [] => findall_go [] t | _ => text cur :: findall_go [] t end
  end.

Definition findall_tokens (s : list ascii) : list string := findall_go [] s.

(** [str.isdigit] on a token. *)
Definition isdigit (tok : string) : bool :=
  bool_decide (tok ≠ ""%string) && forallb is_digit (chars tok).

(** The body of [for tok in tokens]: what the token adds to the set. *)
Definition token_attr (tok : string) : option string :=
  if decide (tok ∈ _STOP_LABELS) then None
  else if isdigit tok then
    if decide (2 ≤ String.length tok)%nat then Some tok else None
  else if decide (3 ≤ String.length tok)%nat then Some (text (take 3 (chars tok)))
  else None.

Definition _desc_attr_set (desc : string) : gset string :=
  if decide (desc = ""%string) then ∅
  else
    foldl (λ out tok, match token_attr tok with
                      | Some a => {[a]} ∪ out
                      | None => out
                      end)
          ∅ (findall_tokens (upper (chars (_strip_noise_fields desc)))).

(** *** The frames of rule 6 *)



(** [ORDER BY COALESCE(DESCRICAO,''), ID] under the binary collation. *)
Definition key_le (a b : string * Z) : Prop :=
  String.ltb a.1 b.1 = true ∨ (a.1 = b.1 ∧ a.2 ≤ b.2).

#[global] Instance key_le_dec a b : Decision (key_le a b).
Proof. unfold key_le. apply _. Defined.

Definition fis_key (f : fis_row) : string * Z :=
  (default ""%string (fis_DESCRICAO f), coalesce (fis_ID f)).
Definition ctb_key (t : ctb_row) : string * Z :=
  (default ""%string (ctb_DESCRICAO t), coalesce (ctb_ID t)).




Section Rule6.
(** The order in which Python walks a set is not specified; it is a
    parameter of the model. *)
Variable set_iter : gset string → list string.

(** The inverted index [inv]: attribute -> accounting ids, in frame
    order. ([c_attrs] is written by the source and never read.) *)
Definition build_inv (df_c : list (Z * string)) : gmap string (list Z) :=
  foldl (λ inv row,
           foldl (λ inv a, <[a := default [] (inv !! a) ++ [row.1]]> inv)
                 inv (set_iter (_desc_attr_set row.2)))
        ∅ df_c.









End Rule6.

End Similarity.

(** ** The containment rules (rules 1 to 5 of [AUTO02_RULES]) *)

Module Contain.
Import Store Text.

(** SQLite's [LIKE] without ESCAPE: % matches any run of characters, _ any
    one character, and any other character matches itself, ASCII letters
    without regard to case. *)
Definition fold_az (c : ascii) : N :=
  if is_lower_az c then (code c - 32)%N else code c.

Fixpoint like (p : list ascii) : list ascii → bool :=
  match p with
  | [] => λ s, match s with [] => true | _ => false end
  | c :: p' =>
    if (code c =? 37)%N then
      fix any (s : list ascii) : bool :=
        like p' s || match s with [] => false | _ :: t => any t end
    else λ s,
      match s with
      | [] => false
      | x :: t => ((code c =? 95)%N || (fold_az c =? fold_az x)%N) && like p' t
      end
  end.

(** [LENGTH(x) >= 4 AND y LIKE ('%' || x || '%')]; NULL is not true. *)
Definition contained (x y : option string) : bool :=
  match x, y with
  | Some x, Some y =>
    bool_decide (4 ≤ String.length x)%nat
    && like (chars (String.append "%" (String.append x "%"))) (chars y)
  | _, _ => false
  end.

(** [join_cond]: the ON clause chosen by the rule id; the last branch
    takes every id that is not "1" to "4". *)
Definition join_cond (rid : string) (f : fis_row) (t : ctb_row) : bool :=
  if decide (rid = "1"%string) then contained (fis_SERIE_NORM f) (ctb_DESC_NORM t)
  else if decide (rid = "2"%string) then contained (ctb_SERIE_NORM t) (fis_DESC_NORM f)
  else if decide (rid = "3"%string) then
    match fis_MODELO_NORM f, ctb_MODELO_NORM t with
    | Some a, Some b => bool_decide (b ≠ ""%string ∧ a = b)
    | _, _ => false
    end
  else if decide (rid = "4"%string) then contained (fis_MODELO_NORM f) (ctb_DESC_NORM t)
  else contained (fis_TAG_NORM f) (ctb_DESC_NORM t).

(** [base_sql], with the default (empty) filters: pending rows of both
    sides, accounting parents only. *)
Definition base_sql (rid : string) (d : db) : list (fis_row * ctb_row) :=
  f ← fisico d;
  t ← contabil d;
  if join_cond rid f t && pending_id d FIS (fis_ID f) && pending_id d CTB (ctb_ID t)
     && bool_decide (coalesce (ctb_INC t) = 0)
  then [(f, t)] else [].

Definition id_pair_le (a b : Z * Z) : Prop := a.1 < b.1 ∨ (a.1 = b.1 ∧ a.2 ≤ b.2).

#[global] Instance id_pair_le_dec a b : Decision (id_pair_le a b).
Proof. unfold id_pair_le. apply _. Defined.

(** [cand]: [SELECT f.ID, t.ID FROM base_sql ORDER BY f.ID, t.ID LIMIT ?]
    of [load_pairs_auto02]. An id outside [AUTO02_RULES] gives nothing, and
    rule "6" never reaches this query. *)
Definition cand (rule_id : string) (d : db) (candidate_cap : nat) : list (Z * Z) :=
  let rid := text (strip (chars rule_id)) in
  if decide (rid ∈ ["1"; "2"; "3"; "4"; "5"]%string) then
    take candidate_cap
      (merge_sort id_pair_le
         ((λ r, (coalesce (fis_ID r.1), coalesce (ctb_ID r.2))) <$> base_sql rid d))
  else [].

(** *** The allocation of [load_pairs_auto02], rules 1 to 5 *)

(** [cand.groupby("FIS_ID", sort=True)]: the groups in ascending order of
    the physical id, each with its accounting ids in the order of the
    frame. *)
Definition groups (cand : list (Z * Z)) : list (Z * list Z) :=
  (λ k, (k, (filter (λ p, p.1 = k) cand).*2))
    <$> merge_sort Z.le (remove_dups cand.*1).

(** The inner loop: the first accounting id of the group that is not in
    [used_ctb]. *)
Definition first_unused (used_ctb : gset Z) (ctb_ids : list Z) : option Z :=
  head (filter (λ c, c ∉ used_ctb) ctb_ids).

(** The outer loop, with its [break] once [len(pairs) >= limit_pairs];
    the test comes after the group has been served. *)
Fixpoint alloc_groups (limit_pairs : Z) (used_ctb : gset Z) (pairs : list (Z * Z))
    (gs : list (Z * list Z)) : list (Z * Z) :=
  match gs with
  | [] => pairs
  | g :: gs' =>
    let step :=
      match first_unused used_ctb g.2 with
      | Some ctb_id => ({[ctb_id]} ∪ used_ctb, pairs ++ [(g.1, ctb_id)])
      | None => (used_ctb, pairs)
      end in
    if decide (limit_pairs ≤ Z.of_nat (length step.2)) then step.2
    else alloc_groups limit_pairs step.1 step.2 gs'
  end.

(** [load_pairs_auto02] for the rules 1 to 5: the list [pairs] it
    returns. *)
Definition load_pairs_join (rule_id : string) (d : db)
    (limit_pairs : Z) (candidate_cap : nat) : list (Z * Z) :=
  match cand rule_id d candidate_cap with
  | [] => []
  | c => alloc_groups limit_pairs ∅ [] (groups c)
  end.

End Contain.

(** ** The SQL compatibility layer ([db_utils_v2.py]) *)

Module SqlCompat.
Import Text.

(** The loop of [_qmark_to_pyformat]; the state is ([in_single],
    [in_double]). The codes 39, 34 and 63 are the single quote, the double
    quote and the question mark; a placeholder becomes the two characters
    of [%s]. *)
Fixpoint qmark_go (in_single in_double : bool) (sql : list ascii) : list ascii :=
  match sql with
  | [] => []
  | ch :: t =>
    if (code ch =? 39)%N && negb in_double
    then ch :: qmark_go (negb in_single) in_double t
    else if (code ch =? 34)%N && negb in_single
    then ch :: qmark_go in_single (negb in_double) t
    else if (code ch =? 63)%N && negb in_single && negb in_double
    then "%"%char :: "s"%char :: qmark_go in_single in_double t
    else ch :: qmark_go in_single in_double t
  end.

Definition _qmark_to_pyformat (sql : string) : string :=
  text (qmark_go false false (chars sql)).

(** [needle in hay] on texts. *)
Fixpoint starts_with (needle hay : list ascii) : bool :=
  match needle, hay with
  | [], _ => true
  | a :: n', b :: h' => bool_decide (a = b) && starts_with n' h'
  | _ :: _, [] => false
  end.

Fixpoint contains (needle hay : list ascii) : bool :=
  starts_with needle hay
  || match hay with
     | [] => false
     | _ :: h' => contains needle h'
     end.

(** [_normalize_pg_dsn]; the argument is a text ([dsn or ""] is then the
    argument itself). *)
Definition _normalize_pg_dsn (dsn : string) : string :=
  let dsn := strip (chars dsn) in
  match dsn with
  | [] => ""%string
  | _ =>
    if contains (chars "connect_timeout=") dsn then text dsn
    else text (dsn ++ chars " connect_timeout=2")
  end.

(** [\s+] at the start of [s]: the text after the run of spaces, which has
    one space at least. *)
Definition spaces1 (s : list ascii) : option (list ascii) :=
  match s with
  | c :: t => if is_space c then Some (Similarity.skip_spaces t) else None
  | [] => None
  end.

(** [^\s*INSERT\s+OR\s+IGNORE\s+INTO\s+] under [re.IGNORECASE]: the text
    after the match, when the statement starts with it. *)
Definition insert_or_ignore_head (s : list ascii) : option (list ascii) :=
  s ← Similarity.match_label (chars "INSERT") (Similarity.skip_spaces s);
  s ← spaces1 s;
  s ← Similarity.match_label (chars "OR") s;
  s ← spaces1 s;
  s ← Similarity.match_label (chars "IGNORE") s;
  s ← spaces1 s;
  s ← Similarity.match_label (chars "INTO") s;
  spaces1 s.

(** [str.rstrip()] *)
Definition rstrip (s : list ascii) : list ascii := reverse (lstrip (reverse s)).

(** [_rewrite_insert_or_ignore]; the code 59 is the semicolon. *)
Definition _rewrite_insert_or_ignore (sql : string) : string :=
  match insert_or_ignore_head (chars sql) with
  | None => sql
  | Some rest =>
    let rewritten := chars "INSERT INTO " ++ rest in
    let stripped := rstrip rewritten in
    let stripped :=
      if decide (code <$> last stripped = Some 59%N)
      then take (length stripped - 1) stripped else stripped in
    text (stripped ++ chars " ON CONFLICT DO NOTHING;")
  end.

End SqlCompat.

(** ** The bulk import ([importer_v2.py]) *)

Module Importer.

(** [range(0, n, size)] for a positive [size]: 0, size, 2*size, ... below
    [n]. *)
Definition range_step (n size : nat) : list nat :=
  (λ k, k * size)%nat <$> seq 0 ((n + size - 1) / size).

(** [_chunked]: the slices [iterable[i:i+size]] for [i] in
    [range(0, len(iterable), size)]. [range] raises on a zero step
    ([None]) and is empty for a negative one. *)
Definition _chunked {A} (iterable : list A) (size : Z) : option (list (list A)) :=
  if decide (size = 0) then None
  else if decide (size < 0) then Some []
  else Some ((λ i, take (Z.to_nat size) (drop i iterable))
               <$> range_step (length iterable) (Z.to_nat size)).

(** The insertion loop of [_bulk_insert]: [records] are the tuples built
    from the frame, [table] the rows already in the table; each chunk is
    appended by one [executemany], and [done] counts the rows sent. *)
Definition _bulk_insert {A} (table records : list A) (chunk_size : Z)
  : option (list A * Z) :=
  chunks ← _chunked records chunk_size;
  Some (foldl (λ acc chunk, (acc.1 ++ chunk, acc.2 + Z.of_nat (length chunk)))
              (table, 0) chunks).

End Importer.

(** ** The pending lists of the manual screen ([load_pending_manual]) *)

Module Manual.
Import Store Text.

(** [load_pending_manual(con, "FIS", limit=...)] and
    [load_pending_manual(con, "CTB", limit=..., only_inc0=...)] with every
    other filter left at its default (empty): the pending rows in the order
    [COALESCE(DESCRICAO,''), ID], cut at [limit]. *)
Definition load_pending_manual_fis (d : db) (limit : nat) : list fis_row :=
  take limit
    (merge_sort (λ a b, Similarity.key_le (Similarity.fis_key a) (Similarity.fis_key b))
       (filter (λ f, pending_id d FIS (fis_ID f)) (fisico d))).

Definition load_pending_manual_ctb (d : db) (limit : nat) (only_inc0 : bool)
  : list ctb_row :=
  take limit
    (merge_sort (λ a b, Similarity.key_le (Similarity.ctb_key a) (Similarity.ctb_key b))
       (filter (λ t, pending_id d CTB (ctb_ID t)
                     ∧ (only_inc0 = true → coalesce (ctb_INC t) = 0))
               (contabil d))).

End Manual.

(** ** Vocabulary of the properties *)

Module Props.
Import Store Ledger.

(** Small rows for the examples: only the columns of the keys are set. *)
Definition phys (i nrbrm : Z) : fis_row :=
  FisRow (Some i) (Some nrbrm) (Some ""%string) None None None None None.
Definition acct (i nrbrm inc : Z) : ctb_row :=
  CtbRow (Some i) (Some nrbrm) (Some inc) (Some ""%string) None None None None.

(** The committed pairs, as (physical id, accounting id). *)
Definition ledger_pairs (d : db) : list (Z * Z) :=
  (λ r, (ID_FISICO r, ID_CONTABIL r)) <$> depara d.

(** The keys (side, record id) of the lock rows. *)
Definition lock_keys (tbl : list conc_row) : list (base * Z) :=
  (λ r, (conc_BASE r, conc_ID r)) <$> tbl.

(** No two lock rows with the same (side, record id). *)
Definition locks_unique (d : db) : Prop := NoDup (lock_keys (conciliados d)).

#[global] Instance locks_unique_dec d : Decision (locks_unique d).
Proof. unfold locks_unique. apply _. Defined.

(** A store with one family: physical 1, and the accounting parent 10 and
    its increment 11 under group key 100. Nothing is committed yet. *)
Definition one_family (e : backend) : db :=
  Db e [phys 1 100] [acct 10 100 0; acct 11 100 1] [] [].

(** The ledger rows a call added, given the store before and after. *)
Definition written (d d' : db) : list depara_row :=
  drop (length (depara d)) (depara d').

(** A pair with a positive side that already has a lock row. *)
Definition side_locked (d : db) (p : Z * Z) : Prop :=
  (0 < p.1 ∧ locked d FIS p.1) ∨ (0 < p.2 ∧ locked d CTB p.2).

(** The first loop of [save_pairs_with_family]: its state and [involved]. *)
Definition family_main (d : db) (stc : string) (pairs : list (Z * Z))
  : save_state * list (Z * Z) :=
  foldl (family_main_row d stc (_child_status_for_origin stc)) (begin_save d, []) pairs.

(** The group-key rule followed by the propagation pass. *)
Definition run_rule_then_propagation (d : db) : db :=
  (Matcher.run_propagacao_incorporados (Matcher.run_regra_nrbrm_pai d).1).1.

(** The scenario of the specification: P1 = physical 1 (group 100),
    P2 = physical 2 (group 200); A1 = accounting 1 (group 100, parent),
    A2 = accounting 2 (group 100, increment 5), A3 = accounting 3
    (group 200, parent). *)
Definition scenario (e : backend) : db :=
  Db e [phys 1 100; phys 2 200] [acct 1 100 0; acct 2 100 5; acct 3 200 0] [] [].

(** What the loops of a commit keep true of their state: the positive
    accounting ids of the rows built so far are pairwise distinct and all
    members of [pending_ctb_ids], and [saved] counts the rows. *)
Definition ctb_ids_tracked (s : save_state) : Prop :=
  (∀ r, r ∈ depara_rows s → 0 < ID_CONTABIL r → ID_CONTABIL r ∈ pending_ctb_ids s)
  ∧ NoDup (filter (λ c, 0 < c) (ID_CONTABIL <$> depara_rows s))
  ∧ saved s = Z.of_nat (length (depara_rows s)).

(** The ledger rows built by the first loop of [save_pairs_with_family]:
    one per pair of the batch that was saved. *)
Definition main_rows (d : db) (stc : string) (pairs : list (Z * Z)) : list depara_row :=
  depara_rows (family_main d stc pairs).1.

(** The entry of [involved] that a row of the first loop stands for. *)
Definition involved_entry (r : depara_row) : option (Z * Z) :=
  if decide (0 < ID_CONTABIL r) then Some (coalesce (NRBRM r), ID_FISICO r) else None.

(** The first saved pair of the batch whose accounting record has the
    group key [nr]. *)
Definition first_of_group (d : db) (stc : string) (pairs : list (Z * Z)) (nr : Z)
  : option depara_row :=
  head (filter (λ x, 0 < ID_CONTABIL x ∧ NRBRM x = Some nr) (main_rows d stc pairs)).

(** [r] is a family row for the member ([cid], [inc]) of the group [nr],
    written while the entry ([nr], [an]) of [involved] was processed. *)
Definition family_row (d : db) (stc : string) (nr an cid inc : Z) (r : depara_row) : Prop :=
  ¬ locked d CTB cid
  ∧ (Some cid, inc) ∈ family_of d nr
  ∧ ST_CONCILIACAO r = (if decide (inc ≠ 0) then _child_status_for_origin stc else stc)
  ∧ ID_FISICO r = an ∧ ID_CONTABIL r = cid
  ∧ NRBRM r = Some nr ∧ INC_CONTABIL r = Some inc.

(** Every id of [pending_ctb_ids] is the accounting id of a row built so far. *)
Definition pending_has_row (s : save_state) : Prop :=
  ∀ c, c ∈ pending_ctb_ids s → ∃ r, r ∈ depara_rows s ∧ ID_CONTABIL r = c.

(** What holds after the entries [done] of [involved] have been processed,
    [rows0] being the rows of the first loop. *)
Definition propagated (d : db) (stc : string) (rows0 : list depara_row)
    (done : list (Z * Z)) (s : save_state) : Prop :=
  (∀ nr an cid inc, (nr, an) ∈ done → 0 < nr → (Some cid, inc) ∈ family_of d nr →
                    ¬ locked d CTB cid → cid ∈ pending_ctb_ids s)
  ∧ (∀ r, r ∈ depara_rows s →
          r ∈ rows0
          ∨ ∃ nr an cid inc, 0 < nr ∧ head (filter (λ nv, nv.1 = nr) done) = Some (nr, an)
                             ∧ family_row d stc nr an cid inc r)
  ∧ pending_has_row s
  ∧ (∀ r, r ∈ rows0 → r ∈ depara_rows s).

(** The ledger and the lock table agree: the physical id of every ledger
    row is locked, and every lock row carries the pair id of a ledger row. *)
Definition ledger_consistent (d : db) : Prop :=
  (∀ r, r ∈ depara d → 0 < ID_FISICO r → locked d FIS (ID_FISICO r))
  ∧ (∀ l, l ∈ conciliados d → ∃ r, r ∈ depara d ∧ PAR_ID r = conc_PAR_ID l).

(** The rows a commit has built all carry pair ids from [n0] on, below the
    next free one, and each lock row built belongs to one of them. *)
Definition rows_fresh (n0 : Z) (s : save_state) : Prop :=
  n0 ≤ next_par_id s
  ∧ (∀ r, r ∈ depara_rows s → n0 ≤ PAR_ID r < next_par_id s)
  ∧ (∀ l, l ∈ conc_rows s → ∃ r, r ∈ depara_rows s ∧ conc_PAR_ID l = PAR_ID r).

(** A store in which physical 9 and the accounting family 10, 11 carry the
    same group key 100. *)
Definition unmatched_group : db :=
  Db SQLite [phys 9 100] [acct 10 100 0; acct 11 100 1] [] [].

(** A store with one committed pair (2, 20) and a pending family: physical
    1, the accounting parent 10 and its increment 11 under group key 100. *)
Definition one_pair_committed : db :=
  Db SQLite [phys 1 100; phys 2 200] [acct 10 100 0; acct 11 100 1; acct 20 200 0]
     [DeparaRow 1 "MANUAL" 2 20 (Some 200) (Some 0)]
     [ConcRow FIS 2 1; ConcRow CTB 20 1].

(** The rows of a frame that carry the key [k], with their positions. *)
Definition group_rows {K} `{EqDecision K} (k : K) (df : list (Z * K))
  : list (nat * (Z * K)) :=
  filter (λ a, a.2.2 = k) (Matcher.indexed df).

(** Every physical record of the store has a positive id. *)
Definition physical_ids_positive (d : db) : Prop :=
  ∀ f i, f ∈ fisico d → fis_ID f = Some i → 0 < i.

(** A store in which the only physical record has id 0. *)
Definition zero_id_store : db :=
  Db SQLite [phys 0 100] [acct 1 100 0; acct 2 100 0] [] [].

(** The two frames of the group-key rule: (ID, NRBRM) of the pending
    physical rows with a group key, and of the pending accounting parents
    with a group key. *)
Definition pending_fis_keys (d : db) : list (Z * Z) :=
  Matcher.fis_key_frame (Matcher._read_pending_fisico d).
Definition pending_parent_keys (d : db) : list (Z * Z) :=
  Matcher.ctb_parent_frame (Matcher._read_pending_contabil d).

(** The [pairs] frame of the group-key rule. *)
Definition nrbrm_pairs (d : db) : list Matcher.pair_row :=
  (λ m, Matcher.PairRow m.1.1 m.1.2 m.2 0)
    <$> Matcher._pair_1to1_by_value (pending_fis_keys d) (pending_parent_keys d).

(** *** The similarity rule *)


(** The elements of a list in the order of their first occurrence. *)
Definition first_seen (l : list Z) : list Z :=
  foldl (λ acc x, if decide (x ∈ acc) then acc else acc ++ [x]) [] l.

Section similarity_vocabulary.
Variable set_iter : gset string → list string.



End similarity_vocabulary.



Definition office_chair : string := "Cadeira office couro preto".



(** The tokens of a description: the runs of [A-Z0-9] of its upper-cased
    text, the labelled segments taken out. *)
Definition tokens_of (desc : string) : list string :=
  Similarity.findall_tokens
    (Text.upper (Text.chars (Similarity._strip_noise_fields desc))).

(** The signature of a token: a token that is a stop label has none; a
    token of digits, two or more, is its own signature; any other token of
    three characters or more has its first three characters. *)
Inductive signature_of (tok : string) : string → Prop :=
| signature_number :
    tok ∉ Similarity._STOP_LABELS → Similarity.isdigit tok = true →
    (2 ≤ String.length tok)%nat → signature_of tok tok
| signature_prefix :
    tok ∉ Similarity._STOP_LABELS → Similarity.isdigit tok = false →
    (3 ≤ String.length tok)%nat →
    signature_of tok (Text.text (take 3 (Text.chars tok))).





(** *** The containment rules *)

(** Rows of which only the id and the normalized columns of the
    containment rules are set. *)
Definition phys_serial (i : Z) (serial : string) : fis_row :=
  FisRow (Some i) None (Some ""%string) None None (Some serial) None None.
Definition acct_norm (i inc : Z) (desc_norm : string) : ctb_row :=
  CtbRow (Some i) None (Some inc) (Some ""%string) None (Some desc_norm) None None.

(** The physical column a containment rule looks for in the accounting
    description: the serial (rule 1), the model (rule 4) or the tag
    (rule 5). *)
Definition term_of (rid : string) (f : fis_row) : option string :=
  if decide (rid = "1"%string) then fis_SERIE_NORM f
  else if decide (rid = "4"%string) then fis_MODELO_NORM f
  else fis_TAG_NORM f.

(** A text as LIKE compares it: the ASCII letters without their case. *)
Definition folded (s : string) : list N := Contain.fold_az <$> Text.chars s.

(** [x] occurs in [y] as a run of consecutive characters. *)
Definition occurs_in (x y : list N) : Prop := ∃ pre post, y = pre ++ x ++ post.

(** Neither the percent sign nor the underscore occurs in the text. *)
Definition no_wildcard (x : string) : Prop :=
  Forall (λ c, Text.code c ≠ 37%N ∧ Text.code c ≠ 95%N) (Text.chars x).

(** A pending physical record with serial ABC1234, one with serial ABC, and
    a pending accounting parent whose description holds ABC1234. *)
Definition serials_store : db :=
  Db SQLite [phys_serial 1 "ABC1234"; phys_serial 2 "ABC"]
     [acct_norm 10 0 "ITEM ABC1234 LOCAL X"] [] [].

(** The same physical record against an accounting increment (INC = 1)
    with the same description. *)
Definition increment_store : db :=
  Db SQLite [phys_serial 1 "ABC1234"] [acct_norm 10 1 "ITEM ABC1234 LOCAL X"] [] [].

(** A serial with an underscore in it. *)
Definition underscore_store : db :=
  Db SQLite [phys_serial 1 "A_C1"] [acct_norm 10 0 "ITEM ABC1 X"] [] [].


(** *** Further vocabulary *)

(** The rows a commit has built so far are numbered from [n0] on without
    a gap, and [saved] counts them. *)
Definition numbered (n0 : Z) (s : save_state) : Prop :=
  next_par_id s = n0 + Z.of_nat (length (depara_rows s))
  ∧ saved s = Z.of_nat (length (depara_rows s))
  ∧ PAR_ID <$> depara_rows s = seqZ n0 (Z.of_nat (length (depara_rows s))).

(** A pair [save_pairs] cannot use: no side, an accounting id that is not
    in the register, or, without accounting side, a physical id that is not
    in the register. *)
Definition unusable (d : db) (p : Z * Z) : Prop :=
  (p.1 ≤ 0 ∧ p.2 ≤ 0)
  ∨ (0 < p.2 ∧ contabil_by_id d p.2 = None)
  ∨ (p.2 ≤ 0 ∧ 0 < p.1 ∧ fisico_by_id d p.1 = None).


(** The frames of the propagation pass: the pending accounting increments
    with a group key, as (ID, NRBRM, INC); the ledger parents with a group
    key, as (ID_FISICO, NRBRM); and the [pairs] frame their merge gives. *)
Definition pending_increments (d : db) : list (Z * Z * Z) :=
  omap (λ r, i ← ctb_ID r; k ← ctb_NRBRM r;
             if decide (coalesce (ctb_INC r) ≠ 0)
             then Some (i, k, coalesce (ctb_INC r)) else None)
       (Matcher._read_pending_contabil d).

Definition ledger_parents (d : db) : list (Z * Z) :=
  omap (λ r, k ← r.2; Some (r.1.1, k))
       ((λ r, (ID_FISICO r, ID_CONTABIL r, NRBRM r))
          <$> filter (λ r, coalesce (INC_CONTABIL r) = 0) (depara d)).

Definition propagation_pairs (d : db) : list Matcher.pair_row :=
  c ← pending_increments d;
  p ← filter (λ p, p.2 = c.1.2) (ledger_parents d);
  [Matcher.PairRow p.1 c.1.1 c.1.2 c.2].


(** A text with no white space at either end. *)
Definition trimmed (l : list ascii) : Prop :=
  (∀ c, head l = Some c → Text.is_space c = false)
  ∧ (∀ c, last l = Some c → Text.is_space c = false).


(** Every row a commit has built has a lock row built for each of its
    positive sides, under its own pair id. *)
Definition rows_locked (s : save_state) : Prop :=
  ∀ r, r ∈ depara_rows s →
    (0 < ID_FISICO r → ConcRow FIS (ID_FISICO r) (PAR_ID r) ∈ conc_rows s)
    ∧ (0 < ID_CONTABIL r → ConcRow CTB (ID_CONTABIL r) (PAR_ID r) ∈ conc_rows s).

(** The lock rows a commit has built all carry a positive record id. *)
Definition locks_positive (s : save_state) : Prop :=
  ∀ l, l ∈ conc_rows s → 0 < conc_ID l.


(** A physical record with a normalized description and model, and an
    accounting record with a normalized serial and model. *)
Definition phys_described (i : Z) (desc_norm model : string) : fis_row :=
  FisRow (Some i) None (Some ""%string) None (Some desc_norm) None (Some model) None.
Definition acct_serial (i inc : Z) (serial model : string) : ctb_row :=
  CtbRow (Some i) None (Some inc) (Some ""%string) None None (Some serial) (Some model).

(** A pending physical record whose description holds the serial of a
    pending accounting parent of the same model. *)
Definition described_store : db :=
  Db SQLite [phys_described 1 "NOTEBOOK SN XYZ9876" "L14"]
     [acct_serial 10 0 "XYZ9876" "L14"] [] [].



#[global] Instance side_locked_dec d p : Decision (side_locked d p).
Proof. unfold side_locked. apply _. Defined.

#[global] Instance unusable_dec d p : Decision (unusable d p).
Proof. unfold unusable. apply _. Defined.

(** A pair that a commit takes: none of its positive sides has a lock row
    and it is not [unusable]. *)
Definition committable (d : db) (p : Z * Z) : Prop :=
  ¬ side_locked d p ∧ ¬ unusable d p.

#[global] Instance committable_dec d p : Decision (committable d p).
Proof. unfold committable. apply _. Defined.


(** An integer column of a frame is held by pandas as int64 when no row
    has NULL in it and as float64 otherwise; a double holds an integer
    exactly up to 2^53 in magnitude. [keys_exact] says that every group key
    and every increment number of the store is in that range, so that the
    unattended engine compares and writes back the integers of the
    registers. *)
Definition exact_in_double (o : option Z) : Prop :=
  - 2 ^ 53 ≤ coalesce o ≤ 2 ^ 53.

Definition keys_exact (d : db) : Prop :=
  Forall (λ f, exact_in_double (fis_NRBRM f)) (fisico d)
  ∧ Forall (λ t, exact_in_double (ctb_NRBRM t) ∧ exact_in_double (ctb_INC t)) (contabil d)
  ∧ Forall (λ r, exact_in_double (NRBRM r)) (depara d).

#[global] Instance keys_exact_dec d : Decision (keys_exact d).
Proof. unfold keys_exact, exact_in_double. apply _. Defined.

End Props.

(** * Properties *)

Import Store Text Ledger Props.

(** Decidable statements on concrete stores are settled by evaluation. *)
Ltac refute_by_compute :=
  match goal with
  | |- ¬ ?P => apply (bool_decide_eq_false_1 P); vm_compute; reflexivity
  end.

Ltac prove_by_compute :=
  match goal with
  | |- ?P => apply (bool_decide_eq_true_1 P); vm_compute; reflexivity
  end.

(** ** Lists *)

Section list_facts.
Context {A : Type} (P : A → Prop) `{∀ x, Decision (P x)}.

Lemma filter_none (l : list A) : (∀ x, x ∈ l → ¬ P x) → filter P l = [].
Proof.
  induction l as [|x l IH]; intros Hl; [done|].
  rewrite filter_cons_False by (apply Hl; left).
  apply IH. intros y Hy. apply Hl. by right.
Qed.

Lemma filter_all (l : list A) : (∀ x, x ∈ l → P x) → filter P l = l.
Proof.
  induction l as [|x l IH]; intros Hl; [done|].
  rewrite filter_cons_True by (apply Hl; left).
  f_equal. apply IH. intros y Hy. apply Hl. by right.
Qed.
End list_facts.

(** ** The scenario of the specification *)

(** C4, as claimed: on a SQLite store the scenario ends with exactly the
    pairs (P1,A1) and (P1,A2) and one pending record on each side. The code
    also pairs P2 with A3, which share group key 200, so the claim fails. *)
Lemma C4_scenario_as_claimed_fails :
  ¬ (ledger_pairs (run_rule_then_propagation (scenario SQLite)) = [(1, 1); (1, 2)]
     ∧ get_counts (run_rule_then_propagation (scenario SQLite)) = MkCounts 1 1).
Proof. intros [H _]. vm_compute in H. discriminate H. Qed.

(** C4, amended: on the scenario held in a SQLite store, the group-key rule
    followed by the propagation pass produces exactly the pairs (P1,A1),
    (P2,A3) and (P1,A2); the pending counts go from 2 physical and 3
    accounting to 0 and 0. *)
Theorem C4_scenario :
  get_counts (scenario SQLite) = MkCounts 2 3
  ∧ ledger_pairs (Matcher.run_regra_nrbrm_pai (scenario SQLite)).1 = [(1, 1); (2, 3)]
  ∧ ledger_pairs (run_rule_then_propagation (scenario SQLite)) = [(1, 1); (2, 3); (1, 2)]
  ∧ get_counts (run_rule_then_propagation (scenario SQLite)) = MkCounts 0 0.
Proof. vm_compute. auto. Qed.

(** ** Commit: a locked pair is passed over *)

Lemma write_rows_begin d : write_rows d (begin_save d) = d.
Proof. destruct d. unfold write_rows; simpl. by rewrite app_nil_r. Qed.

(** The special case of the empty batch agrees with the general path. *)
Lemma save_pairs_fold d pairs stc :
  save_pairs d pairs stc =
  (write_rows d (foldl (save_pairs_row d stc) (begin_save d) pairs),
   saved (foldl (save_pairs_row d stc) (begin_save d) pairs)).
Proof. destruct pairs; [|done]. simpl. by rewrite write_rows_begin. Qed.

Lemma save_pairs_with_family_fold d pairs stc :
  save_pairs_with_family d pairs stc =
  s ← foldl (propagate_family d stc (_child_status_for_origin stc))
        (Some (family_main d stc pairs).1) (family_main d stc pairs).2;
  Some (write_rows d s, saved s).
Proof. destruct pairs; [|done]. simpl. by rewrite write_rows_begin. Qed.



(** ** The lock table: one row per (side, record id) *)

Lemma elem_of_lock_keys tbl b i :
  (b, i) ∈ lock_keys tbl ↔ Exists (λ x, conc_BASE x = b ∧ conc_ID x = i) tbl.
Proof.
  unfold lock_keys. rewrite list_elem_of_fmap, Exists_exists. split.
  - intros (r & Heq & Hr). exists r. by inversion Heq.
  - intros (r & Hr & <- & <-). by exists r.
Qed.

Lemma insert_or_ignore_row_unique e tbl r :
  lock_unique e = true →
  NoDup (lock_keys tbl) → NoDup (lock_keys (insert_or_ignore_row e tbl r)).
Proof.
  intros He Hnd. unfold insert_or_ignore_row. rewrite He.
  case_decide as Hex; [done|].
  unfold lock_keys. rewrite fmap_app. apply NoDup_app. split_and!; simpl.
  - done.
  - intros k Hk Hk'. apply list_elem_of_singleton in Hk'. subst k.
    by apply elem_of_lock_keys in Hk.
  - apply NoDup_singleton.
Qed.

(** With the unique index on (BASE, ID), the statement that writes the lock
    rows keeps the table free of duplicate keys, whatever rows it is given. *)
Lemma insert_or_ignore_unique e rows tbl :
  lock_unique e = true →
  NoDup (lock_keys tbl) → NoDup (lock_keys (insert_or_ignore e tbl rows)).
Proof.
  intros He. unfold insert_or_ignore. revert tbl.
  induction rows as [|r rows IH]; intros tbl Hnd; simpl; [done|].
  apply IH. by apply insert_or_ignore_row_unique.
Qed.

(** On the PostgreSQL schema the two commit operations of the manual
    screen keep the lock table free of duplicate keys. *)
Lemma postgres_commits_keep_locks_unique d pairs stc :
  engine d = Postgres → locks_unique d →
  locks_unique (save_pairs d pairs stc).1
  ∧ (∀ d' n, save_pairs_with_family d pairs stc = Some (d', n) → locks_unique d').
Proof.
  intros He Hu. unfold locks_unique in *. split.
  - rewrite save_pairs_fold. simpl. apply insert_or_ignore_unique; [by rewrite He|done].
  - intros d' n. rewrite save_pairs_with_family_fold.
    destruct (foldl _ _ _) as [s|]; simpl; [|done].
    intros [= <- _]. simpl. apply insert_or_ignore_unique; [by rewrite He|done].
Qed.

(** C1, on the SQLite schema. [init_db] creates no unique index on
    [conciliados] there, so [INSERT OR IGNORE] ignores nothing. From stores
    without duplicate lock keys: [save_pairs_with_family] on the single pair
    (1,10) writes the lock row (FIS,1) once for the parent and once for the
    increment; [save_pairs] on the batch (1,10), (1,11) does the same; and the
    unattended engine, on the scenario of the specification, writes (FIS,1)
    for the pair of the group-key rule and again for the propagated child. *)
Theorem C1_sqlite_lock_rows_duplicated :
  locks_unique (one_family SQLite)
  ∧ (∃ d', save_pairs_with_family (one_family SQLite) [(1, 10)] "MANUAL" = Some (d', 2)
           ∧ lock_keys (conciliados d') = [(FIS, 1); (CTB, 10); (FIS, 1); (CTB, 11)]
           ∧ ¬ locks_unique d')
  ∧ lock_keys (conciliados (save_pairs (one_family SQLite) [(1, 10); (1, 11)] "MANUAL").1)
    = [(FIS, 1); (CTB, 10); (FIS, 1); (CTB, 11)]
  ∧ ¬ locks_unique (save_pairs (one_family SQLite) [(1, 10); (1, 11)] "MANUAL").1
  ∧ locks_unique (scenario SQLite)
  ∧ ¬ locks_unique (run_rule_then_propagation (scenario SQLite)).
Proof.
  split_and!.
  - apply NoDup_nil_2.
  - eexists. split_and!.
    + vm_compute. reflexivity.
    + vm_compute. reflexivity.
    + refute_by_compute.
  - vm_compute. reflexivity.
  - refute_by_compute.
  - apply NoDup_nil_2.
  - refute_by_compute.
Qed.

(** ** Duplicate ids inside one batch *)

(** C2, as claimed: a later pair of the batch that names an id already used
    in the batch is rejected, so that the call writes at most one ledger row
    per record id on each side. [save_pairs_with_family] only tests the
    accounting id against the ids of the batch: the physical id is shared on
    purpose by a parent and its increments. The batch (1,10), (1,11), which is
    the shape the manual screen sends for a parent and its increment, is
    written whole: two ledger rows carry physical id 1. *)
Lemma C2_same_physical_id_written_twice :
  ∃ d', save_pairs_with_family (one_family SQLite) [(1, 10); (1, 11)] "MANUAL"
        = Some (d', 2)
    ∧ ledger_pairs d' = [(1, 10); (1, 11)]
    ∧ ¬ (length (filter (λ r, ID_FISICO r = 1%Z) (written (one_family SQLite) d')) ≤ 1)%nat.
Proof.
  eexists. split_and!.
  - vm_compute. reflexivity.
  - vm_compute. reflexivity.
  - vm_compute. lia.
Qed.

(** A fold whose accumulator is [None] once the loop has raised. *)
Lemma foldl_option_inv {A B} (f : option A → B → option A) (P : A → Prop) :
  (∀ b, f None b = None) →
  (∀ a b a', P a → f (Some a) b = Some a' → P a') →
  ∀ l a a', P a → foldl f (Some a) l = Some a' → P a'.
Proof.
  intros Hnone Hstep l. induction l as [|b l IH]; intros a a' Ha; simpl.
  - by intros [= <-].
  - destruct (f (Some a) b) as [a1|] eqn:Hf.
    + apply IH. by eapply Hstep.
    + assert (Hn : ∀ k, foldl f None k = None).
      { intros k. induction k as [|x k IHk]; simpl; [done|]. by rewrite Hnone. }
      by rewrite Hn.
Qed.

Lemma ctb_ids_tracked_begin d : ctb_ids_tracked (begin_save d).
Proof.
  split_and!; simpl; [by intros r Hr; apply elem_of_nil in Hr | apply NoDup_nil_2 | done].
Qed.

Lemma ctb_ids_tracked_append s stc fis_id ctb_id nrbrm inc always :
  ctb_ids_tracked s →
  (0 < ctb_id → ctb_id ∉ pending_ctb_ids s) →
  ctb_ids_tracked (append_pair s stc fis_id ctb_id nrbrm inc always).
Proof.
  intros (Hin & Hnd & Hsaved) Hfresh. split_and!; simpl.
  - intros r Hr Hpos. apply elem_of_app in Hr as [Hr|Hr].
    + specialize (Hin r Hr Hpos). destruct (always || _); set_solver.
    + apply list_elem_of_singleton in Hr. subst r. simpl in *.
      rewrite bool_decide_eq_true_2 by done. rewrite orb_true_r. set_solver.
  - rewrite fmap_app, filter_app. simpl.
    apply NoDup_app. split_and!; [done| |].
    + intros c Hc Hc'. rewrite filter_cons, filter_nil in Hc'.
      case_decide as Hpos; [|by apply elem_of_nil in Hc'].
      apply list_elem_of_singleton in Hc'. subst c.
      apply list_elem_of_filter in Hc as [_ Hc].
      apply list_elem_of_fmap in Hc as (r & -> & Hr).
      by apply (Hfresh Hpos), Hin.
    + rewrite filter_cons, filter_nil. case_decide; [apply NoDup_singleton|apply NoDup_nil_2].
  - rewrite length_app. simpl. lia.
Qed.

Lemma ctb_ids_tracked_main d stc child acc p :
  ctb_ids_tracked acc.1 → ctb_ids_tracked (family_main_row d stc child acc p).1.
Proof.
  intros Hinv. unfold family_main_row.
  repeat case_decide; try done;
    repeat match goal with
           | |- context [match ?o with Some _ => _ | None => _ end] => destruct o
           end; try done; simpl;
    apply ctb_ids_tracked_append; try done; intros; tauto.
Qed.

Lemma ctb_ids_tracked_family_main d stc pairs :
  ctb_ids_tracked (family_main d stc pairs).1.
Proof.
  unfold family_main.
  assert (H : ∀ acc, ctb_ids_tracked acc.1 →
    ctb_ids_tracked (foldl (family_main_row d stc (_child_status_for_origin stc)) acc pairs).1).
  { induction pairs as [|p pairs IH]; intros acc Hacc; simpl; [done|].
    apply IH. by apply ctb_ids_tracked_main. }
  apply H, ctb_ids_tracked_begin.
Qed.

Lemma propagate_row_None d stc child nr an fr :
  propagate_row d stc child nr an None fr = None.
Proof. done. Qed.

Lemma propagate_family_None d stc child nv :
  propagate_family d stc child None nv = None.
Proof. done. Qed.

Lemma ctb_ids_tracked_propagate_row d stc child nr an s fr s' :
  ctb_ids_tracked s →
  propagate_row d stc child nr an (Some s) fr = Some s' → ctb_ids_tracked s'.
Proof.
  intros Hinv. unfold propagate_row. simpl.
  destruct fr.1 as [c|]; simpl; [|done].
  case_decide as Hc; intros [= <-]; [done|].
  apply ctb_ids_tracked_append; [done|]. intros _ Hin. apply Hc. by left.
Qed.

Lemma ctb_ids_tracked_propagate_family d stc child s nv s' :
  ctb_ids_tracked s →
  propagate_family d stc child (Some s) nv = Some s' → ctb_ids_tracked s'.
Proof.
  intros Hinv. unfold propagate_family. simpl.
  case_decide; [by intros [= <-]|].
  apply foldl_option_inv; [apply propagate_row_None| |done].
  intros a b a'. apply ctb_ids_tracked_propagate_row.
Qed.

Lemma save_pairs_with_family_state d pairs stc d' n :
  save_pairs_with_family d pairs stc = Some (d', n) →
  ∃ s, foldl (propagate_family d stc (_child_status_for_origin stc))
             (Some (family_main d stc pairs).1) (family_main d stc pairs).2 = Some s
       ∧ d' = write_rows d s ∧ n = saved s.
Proof.
  rewrite save_pairs_with_family_fold.
  destruct (foldl _ _ _) as [s|]; simpl; [|done].
  intros [= <- <-]. by exists s.
Qed.

Lemma written_write_rows d s : written d (write_rows d s) = depara_rows s.
Proof. unfold written. simpl. by rewrite drop_app_length. Qed.

Lemma filter_eq_length_le_1 {A} (f : A → Z) (l : list A) (c : Z) :
  NoDup (filter (λ x, 0 < x) (f <$> l)) → 0 < c →
  (length (filter (λ r, f r = c) l) ≤ 1)%nat.
Proof.
  intros Hnd Hc. induction l as [|r l IH]; simpl; [lia|].
  rewrite fmap_cons, filter_cons in Hnd. rewrite filter_cons.
  destruct (decide (f r = c)) as [Hr|Hr].
  - subst c. rewrite decide_True in Hnd by done.
    apply NoDup_cons in Hnd as [Hnotin Hnd].
    assert (Hnil : filter (λ r0, f r0 = f r) l = []).
    { apply filter_none. intros x Hx Hfx. apply Hnotin.
      apply list_elem_of_filter. split; [done|].
      rewrite <- Hfx. apply list_elem_of_fmap. by exists x. }
    rewrite Hnil. simpl. lia.
  - apply IH. destruct (decide (0 < f r)); [by apply NoDup_cons in Hnd as [_ ?]|done].
Qed.

(** C2, amended: in [save_pairs_with_family] a pair whose accounting id was
    taken by an earlier pair of the same batch is rejected before anything is
    written, and so is a family member already taken: the call writes at most
    one ledger row per accounting record id, and returns the number of rows
    it wrote. (The physical id is not tested against the batch: the rows of
    one family share it.) *)
Theorem C2_one_row_per_accounting_id d pairs stc d' n :
  save_pairs_with_family d pairs stc = Some (d', n) →
  depara d' = depara d ++ written d d'
  ∧ n = Z.of_nat (length (written d d'))
  ∧ ∀ c, 0 < c → (length (filter (λ r, ID_CONTABIL r = c) (written d d')) ≤ 1)%nat.
Proof.
  intros Hsave. apply save_pairs_with_family_state in Hsave as (s & Hs & -> & ->).
  assert (Hinv : ctb_ids_tracked s).
  { revert Hs. apply foldl_option_inv.
    - apply propagate_family_None.
    - intros a b a'. apply ctb_ids_tracked_propagate_family.
    - apply ctb_ids_tracked_family_main. }
  destruct Hinv as (_ & Hnd & Hsaved).
  rewrite written_write_rows. split_and!; [done|done|].
  intros c Hc. by apply filter_eq_length_le_1.
Qed.

Lemma C2_one_row_per_accounting_id_witness :
  ∃ d', save_pairs_with_family (one_family SQLite) [(1, 10); (2, 10); (1, 11)] "MANUAL"
        = Some (d', 2)
    ∧ ledger_pairs d' = [(1, 10); (1, 11)]
    ∧ ∀ c, 0 < c →
        (length (filter (λ r, ID_CONTABIL r = c) (written (one_family SQLite) d')) ≤ 1)%nat.
Proof.
  eexists. split; [vm_compute; reflexivity|]. split; [vm_compute; reflexivity|].
  refine (proj2 (proj2 (C2_one_row_per_accounting_id (one_family SQLite)
            [(1, 10); (2, 10); (1, 11)] "MANUAL" _ 2 _))).
  vm_compute. reflexivity.
Defined.

(** ** Family propagation in [save_pairs_with_family] *)

Lemma foldl_None {A B} (f : option A → B → option A) (l : list B) :
  (∀ b, f None b = None) → foldl f None l = None.
Proof. intros Hf. induction l as [|b l IH]; simpl; [done|]. by rewrite Hf. Qed.

Lemma pending_has_row_append s stc fis_id ctb_id nrbrm inc always :
  pending_has_row s → pending_has_row (append_pair s stc fis_id ctb_id nrbrm inc always).
Proof.
  intros Hs c. simpl. intros Hc.
  assert (Hcases : c = ctb_id ∨ c ∈ pending_ctb_ids s).
  { destruct (always || _); set_solver. }
  destruct Hcases as [->|Hc'].
  - eexists. split; [apply elem_of_app; right; apply list_elem_of_singleton; reflexivity|done].
  - destruct (Hs c Hc') as (r & Hr & Hrc). exists r. split; [|done].
    apply elem_of_app. by left.
Qed.

Lemma pending_has_row_main d stc child acc p :
  pending_has_row acc.1 → pending_has_row (family_main_row d stc child acc p).1.
Proof.
  intros Hinv. unfold family_main_row.
  repeat case_decide; try done;
    repeat match goal with
           | |- context [match ?o with Some _ => _ | None => _ end] => destruct o
           end; try done; simpl; by apply pending_has_row_append.
Qed.

Lemma pending_has_row_family_main d stc pairs :
  pending_has_row (family_main d stc pairs).1.
Proof.
  unfold family_main.
  assert (H : ∀ acc, pending_has_row acc.1 →
    pending_has_row (foldl (family_main_row d stc (_child_status_for_origin stc)) acc pairs).1).
  { induction pairs as [|p pairs IH]; intros acc Hacc; simpl; [done|].
    apply IH. by apply pending_has_row_main. }
  apply H. intros c Hc. simpl in Hc. set_solver.
Qed.

(** The inner loop over one family: the ids met are locked or end up in
    [pending_ctb_ids]; each new row is a family row of a member that was
    neither locked nor already taken. *)
Lemma propagate_rows_spec d stc nr an fam :
  ∀ s s',
    foldl (propagate_row d stc (_child_status_for_origin stc) nr an) (Some s) fam = Some s' →
    pending_ctb_ids s ⊆ pending_ctb_ids s'
    ∧ (∀ cid inc, (Some cid, inc) ∈ fam → locked d CTB cid ∨ cid ∈ pending_ctb_ids s')
    ∧ (pending_has_row s → pending_has_row s')
    ∧ ∃ new, depara_rows s' = depara_rows s ++ new
             ∧ ∀ r, r ∈ new → ∃ cid inc,
                 (Some cid, inc) ∈ fam ∧ (cid ∉ pending_ctb_ids s) ∧ ¬ locked d CTB cid
                 ∧ ST_CONCILIACAO r
                   = (if decide (inc ≠ 0) then _child_status_for_origin stc else stc)
                 ∧ ID_FISICO r = an ∧ ID_CONTABIL r = cid
                 ∧ NRBRM r = Some nr ∧ INC_CONTABIL r = Some inc.
Proof.
  set (F := propagate_row d stc (_child_status_for_origin stc) nr an).
  induction fam as [|fr fam IH]; intros s s' Hfold.
  - injection Hfold as <-. split_and!; [done| |done|].
    + intros cid inc Hin. by apply elem_of_nil in Hin.
    + exists []. split; [by rewrite app_nil_r|]. intros r Hr. by apply elem_of_nil in Hr.
  - change (foldl F (F (Some s) fr) fam = Some s') in Hfold.
    destruct (F (Some s) fr) as [s1|] eqn:Hstep;
      [|by rewrite foldl_None in Hfold].
    destruct (IH s1 s' Hfold) as (Hsub & Hcov & Hrow & new & Hnew & Hshape).
    unfold F in Hstep.
    unfold propagate_row in Hstep. simpl in Hstep.
    destruct fr as [[c|] inc0]; simpl in Hstep; [|done].
    case_decide as Hc.
    + injection Hstep as <-. split_and!; [done| |done|].
      * intros cid inc Hin. apply elem_of_cons in Hin as [[= -> ->]|Hin]; [|by eauto].
        destruct Hc as [Hc|Hc]; [right; by apply Hsub|by left].
      * exists new. split; [done|]. intros r Hr.
        destruct (Hshape r Hr) as (cid & inc & Hin & Hrest).
        exists cid, inc. split; [by right|done].
    + injection Hstep as <-. simpl in *.
      assert (Hsub0 : pending_ctb_ids s ⊆ pending_ctb_ids s') by set_solver.
      split_and!; [done| | |].
      * intros cid inc Hin. apply elem_of_cons in Hin as [[= -> ->]|Hin]; [|by eauto].
        right. apply Hsub. set_solver.
      * intros Hs. apply Hrow. by apply pending_has_row_append.
      * eexists. split; [rewrite Hnew, <- app_assoc; reflexivity|].
        intros r Hr. apply elem_of_cons in Hr as [->|Hr].
        -- exists c, inc0. simpl. split_and!; try done; [by left| |]; tauto.
        -- destruct (Hshape r Hr) as (cid & inc & Hin & Hnotin & Hrest).
           exists cid, inc. split; [by right|]. split; [set_solver|done].
Qed.

Lemma head_filter_app_Some {A} (P : A → Prop) `{∀ x, Decision (P x)} (l k : list A) x :
  head (filter P l) = Some x → head (filter P (l ++ k)) = Some x.
Proof. rewrite filter_app. intros Hh. by destruct (filter P l). Qed.

Lemma head_filter_app_nil {A} (P : A → Prop) `{∀ x, Decision (P x)} (l k : list A) :
  filter P l = [] → head (filter P (l ++ k)) = head (filter P k).
Proof. rewrite filter_app. by intros ->. Qed.

(** The outer loop over [involved]. *)
Lemma propagate_families_spec d stc rows0 :
  ∀ rest done s s',
    propagated d stc rows0 done s →
    foldl (propagate_family d stc (_child_status_for_origin stc)) (Some s) rest = Some s' →
    propagated d stc rows0 (done ++ rest) s'.
Proof.
  set (G := propagate_family d stc (_child_status_for_origin stc)).
  induction rest as [|nv rest IH]; intros done s s' Hinv Hfold.
  - injection Hfold as <-. by rewrite app_nil_r.
  - change (foldl G (G (Some s) nv) rest = Some s') in Hfold.
    destruct (G (Some s) nv) as [s1|] eqn:Hstep;
      [|by rewrite foldl_None in Hfold].
    replace (done ++ nv :: rest) with ((done ++ [nv]) ++ rest)
      by (by rewrite <- app_assoc).
    apply (IH _ s1); [|done]. clear IH Hfold.
    destruct Hinv as (Hcov & Hshape & Hrow & Hkeep).
    assert (Hold : ∀ r, r ∈ depara_rows s →
      r ∈ rows0 ∨ ∃ nr an cid inc, 0 < nr
        ∧ head (filter (λ nv0, nv0.1 = nr) (done ++ [nv])) = Some (nr, an)
        ∧ family_row d stc nr an cid inc r).
    { intros r Hr. destruct (Hshape r Hr) as [?|(nr & an & cid & inc & ? & Hh & ?)];
        [by left|right].
      exists nr, an, cid, inc. split_and!; [done| |done].
      by apply head_filter_app_Some. }
    unfold G, propagate_family in Hstep. simpl in Hstep.
    destruct nv as [nr an]. simpl in Hstep.
    case_decide as Hnr.
    + injection Hstep as <-. split_and!; [|done..].
      intros nr' an' cid inc Hin Hpos. apply elem_of_app in Hin as [Hin|Hin]; [by eauto|].
      apply list_elem_of_singleton in Hin. injection Hin as -> ->. lia.
    + apply propagate_rows_spec in Hstep
        as (Hsub & Hfam & Hrow' & new & Hnew & Hnewshape).
      split_and!.
      * intros nr' an' cid inc Hin Hpos Hmem Hunl.
        apply elem_of_app in Hin as [Hin|Hin]; [by eapply Hsub, Hcov|].
        apply list_elem_of_singleton in Hin. injection Hin as -> ->.
        by destruct (Hfam cid inc Hmem).
      * intros r. rewrite Hnew. intros Hr. apply elem_of_app in Hr as [Hr|Hr]; [by auto|].
        right. destruct (Hnewshape r Hr)
          as (cid & inc & Hmem & Hfresh & Hunl & Hst & Hf & Hc & Hn & Hi).
        exists nr, an, cid, inc. split_and!; [lia| |done..].
        rewrite head_filter_app_nil; [by rewrite filter_cons_True|].
        apply filter_none. intros [nr0 an0] Hin0 Heq. simpl in Heq. subst nr0.
        apply Hfresh. eapply Hcov; [done|lia|done..].
      * by apply Hrow'.
      * intros r Hr. rewrite Hnew. apply elem_of_app. left. by apply Hkeep.
Qed.

Lemma elem_of_family_of d nr cid inc :
  (Some cid, inc) ∈ family_of d nr ↔
  ∃ t, t ∈ contabil d ∧ ctb_ID t = Some cid ∧ coalesce (ctb_NRBRM t) = nr
       ∧ coalesce (ctb_INC t) = inc.
Proof.
  unfold family_of. rewrite merge_sort_Permutation, list_elem_of_fmap. split.
  - intros (t & [= Hid Hinc] & Ht). apply list_elem_of_filter in Ht as [Hnr Ht].
    by exists t.
  - intros (t & Ht & Hid & Hnr & Hinc). exists t. split; [by rewrite Hid, Hinc|].
    by apply list_elem_of_filter.
Qed.

Lemma omap_NoDup_inj {A B} (f : A → option B) (l : list A) x y i :
  NoDup (omap f l) → x ∈ l → y ∈ l → f x = Some i → f y = Some i → x = y.
Proof.
  induction l as [|a l IH]; intros Hnd Hx Hy Hfx Hfy; [by apply elem_of_nil in Hx|].
  simpl in Hnd.
  assert (Hmem : ∀ z, z ∈ l → f z = Some i → i ∈ omap f l).
  { intros z Hz Hfz. apply list_elem_of_omap. by exists z. }
  apply elem_of_cons in Hx as [->|Hx]; apply elem_of_cons in Hy as [->|Hy]; [done|..].
  - rewrite Hfx in Hnd. apply NoDup_cons in Hnd as [Hni _]. by destruct Hni; eauto.
  - rewrite Hfy in Hnd. apply NoDup_cons in Hnd as [Hni _]. by destruct Hni; eauto.
  - apply IH; try done. destruct (f a); [by apply NoDup_cons in Hnd as [_ ?]|done].
Qed.

(** The first loop: [involved] lists the saved pairs that have an accounting
    side, every row carries a group key, and every row is a pair of the batch. *)
Lemma family_main_facts d stc pairs :
  (family_main d stc pairs).2 = omap involved_entry (main_rows d stc pairs)
  ∧ ∀ r, r ∈ main_rows d stc pairs →
         is_Some (NRBRM r) ∧ (ID_FISICO r, ID_CONTABIL r) ∈ pairs.
Proof.
  unfold main_rows, family_main.
  set (f := family_main_row d stc (_child_status_for_origin stc)).
  assert (H : ∀ l acc, l ⊆ pairs →
    (acc.2 = omap involved_entry (depara_rows acc.1)
     ∧ ∀ r, r ∈ depara_rows acc.1 → is_Some (NRBRM r) ∧ (ID_FISICO r, ID_CONTABIL r) ∈ pairs) →
    (foldl f acc l).2 = omap involved_entry (depara_rows (foldl f acc l).1)
    ∧ ∀ r, r ∈ depara_rows (foldl f acc l).1 →
           is_Some (NRBRM r) ∧ (ID_FISICO r, ID_CONTABIL r) ∈ pairs).
  { induction l as [|p l IH]; intros acc Hl Hacc; [done|].
    simpl. apply IH; [set_solver|].
    assert (Hp : p ∈ pairs) by set_solver. destruct p as [fi ci].
    destruct Hacc as [Hinv Hrows]. unfold f, family_main_row. simpl.
    repeat case_decide; try done;
      repeat match goal with
             | |- context [match ?o with Some _ => _ | None => _ end] => destruct o
             end; try done; simpl;
      (split;
       [ rewrite omap_app, <- Hinv; simpl; unfold involved_entry; simpl;
         try (rewrite decide_True by done); try (rewrite decide_False by done);
         by rewrite ?app_nil_r
       | intros r Hr; apply elem_of_app in Hr as [Hr|Hr]; [by apply Hrows|];
         apply list_elem_of_singleton in Hr; subst r; simpl; by eauto ]). }
  apply H; [done|]. split; [done|]. intros r Hr. by apply elem_of_nil in Hr.
Qed.

Lemma head_involved (rows : list depara_row) nr :
  (∀ r, r ∈ rows → is_Some (NRBRM r)) →
  head (filter (λ nv, nv.1 = nr) (omap involved_entry rows))
  = (λ r, (nr, ID_FISICO r))
      <$> head (filter (λ x, 0 < ID_CONTABIL x ∧ NRBRM x = Some nr) rows).
Proof.
  induction rows as [|r rows IH]; intros Hk; [done|].
  assert (IH' := IH (λ x Hx, Hk x (list_elem_of_further _ _ _ Hx))). clear IH.
  destruct (Hk r (list_elem_of_here _ _)) as [k Hkr].
  simpl. unfold involved_entry at 1. rewrite filter_cons.
  destruct (decide (0 < ID_CONTABIL r)) as [Hc|Hc].
  - rewrite filter_cons. simpl. rewrite Hkr. simpl.
    destruct (decide (k = nr)) as [->|Hne].
    + by rewrite decide_True.
    + rewrite decide_False by (intros [_ [= ?]]; done). done.
  - rewrite decide_False by tauto. done.
Qed.

(** C10, as claimed: every family row is anchored to the physical id of the
    pair that shares its group key. In the batch (1,10), (2,11), where 10 is
    the parent of group 100 and 11, 12 its increments, the pair (2,11) is
    saved, and the remaining member 12 is anchored to physical 1, the anchor
    of the first saved pair of the group, not to physical 2. *)
Lemma C10_anchor_is_first_pair_of_group :
  let d := Db SQLite [phys 1 100; phys 2 100]
              [acct 10 100 0; acct 11 100 1; acct 12 100 2] [] [] in
  ∃ d', save_pairs_with_family d [(1, 10); (2, 11)] "MANUAL" = Some (d', 3)
    ∧ (λ r, (ID_FISICO r, ID_CONTABIL r, ST_CONCILIACAO r)) <$> written d d'
      = [(1, 10, "MANUAL"); (2, 11, "CM - INC"); (1, 12, "CM - INC")]%string
    ∧ ¬ (∀ r, r ∈ written d d' → ID_CONTABIL r = 12 → ID_FISICO r = 2).
Proof.
  intros d. eexists. split_and!.
  - vm_compute. reflexivity.
  - vm_compute. reflexivity.
  - intros H. specialize (H (DeparaRow 3 "CM - INC" 1 12 (Some 100) (Some 2))).
    vm_compute in H. assert (1 = 2) as Habs; [|done].
    apply H; [|done]. do 2 right. left.
Qed.

(** C10, amended: when a pair saved through [save_pairs_with_family] has an
    accounting record with group key [nr] > 0, every accounting record of
    that group that is not already locked gets a ledger row in the same call:
    its own pair when it is itself the accounting side of a saved pair of the
    batch, otherwise a family row anchored to the physical id of the first
    saved pair of the batch with that group key, tagged with the derived
    child status when its increment is not 0 and with the main status when it
    is 0 (the parent). Stated for stores whose accounting ids are distinct. *)
Theorem C10_family_rows d pairs stc d' n nr r0 t cid :
  NoDup (omap ctb_ID (contabil d)) →
  save_pairs_with_family d pairs stc = Some (d', n) →
  r0 ∈ main_rows d stc pairs → 0 < ID_CONTABIL r0 → NRBRM r0 = Some nr → 0 < nr →
  t ∈ contabil d → ctb_ID t = Some cid → coalesce (ctb_NRBRM t) = nr →
  ¬ locked d CTB cid →
  (ID_FISICO r0, ID_CONTABIL r0) ∈ pairs ∧ r0 ∈ written d d'
  ∧ ∃ r, r ∈ written d d' ∧ ID_CONTABIL r = cid
         ∧ ((r ∈ main_rows d stc pairs ∧ (ID_FISICO r, cid) ∈ pairs)
            ∨ ((∃ r1, first_of_group d stc pairs nr = Some r1 ∧ ID_FISICO r = ID_FISICO r1)
               ∧ NRBRM r = Some nr
               ∧ INC_CONTABIL r = Some (coalesce (ctb_INC t))
               ∧ ST_CONCILIACAO r
                 = if decide (coalesce (ctb_INC t) ≠ 0)
                   then _child_status_for_origin stc else stc)).
Proof.
  intros Hnd Hsave Hr0 Hc0 Hn0 Hnr Ht Hid Htn Hunl.
  apply save_pairs_with_family_state in Hsave as (s & Hs & -> & ->).
  rewrite written_write_rows.
  destruct (family_main_facts d stc pairs) as [Hinv Hrows].
  assert (Hprop : propagated d stc (main_rows d stc pairs)
                    ([] ++ (family_main d stc pairs).2) s).
  { eapply propagate_families_spec; [|exact Hs]. split_and!.
    - intros ? ? ? ? Hin. by apply elem_of_nil in Hin.
    - intros r Hr. by left.
    - apply pending_has_row_family_main.
    - done. }
  simpl in Hprop. destruct Hprop as (Hcov & Hshape & Hrow & Hkeep).
  split; [by apply Hrows|]. split; [by apply Hkeep|].
  assert (Hin : (nr, ID_FISICO r0) ∈ (family_main d stc pairs).2).
  { rewrite Hinv. apply list_elem_of_omap. exists r0. split; [done|].
    unfold involved_entry. rewrite decide_True by done. by rewrite Hn0. }
  assert (Hmem : (Some cid, coalesce (ctb_INC t)) ∈ family_of d nr).
  { apply elem_of_family_of. by exists t. }
  destruct (Hrow cid (Hcov _ _ _ _ Hin Hnr Hmem Hunl)) as (r & Hr & Hrc).
  exists r. split; [done|]. split; [done|].
  destruct (Hshape r Hr) as [Hmain|(nr' & an & cid' & inc & Hpos & Hhead & Hfam)].
  - left. split; [done|]. rewrite <- Hrc. by apply Hrows.
  - right. destruct Hfam as (_ & Hmem' & Hst & Hf & Hc & Hn & Hi).
    assert (cid' = cid) as -> by congruence.
    apply elem_of_family_of in Hmem' as (t' & Ht' & Hid' & Htn' & Hinc').
    assert (t' = t) as -> by (by eapply (omap_NoDup_inj ctb_ID)).
    assert (nr' = nr) as -> by congruence. subst inc.
    split_and!; [|done..].
    rewrite Hinv, head_involved in Hhead by (intros x Hx; by apply Hrows).
    unfold first_of_group. destruct (head _) as [r1|]; [|done].
    injection Hhead as <-. by exists r1.
Qed.

Lemma C10_family_rows_witness :
  let d := Db SQLite [phys 1 100; phys 2 100]
              [acct 10 100 0; acct 11 100 1; acct 12 100 2] [] [] in
  let pairs := [(1, 10); (2, 11)] in
  ∃ d' r, save_pairs_with_family d pairs "MANUAL" = Some (d', 3)
    ∧ r ∈ written d d' ∧ ID_CONTABIL r = 12
    ∧ ((r ∈ main_rows d "MANUAL" pairs ∧ (ID_FISICO r, 12) ∈ pairs)
       ∨ ((∃ r1, first_of_group d "MANUAL" pairs 100 = Some r1
                 ∧ ID_FISICO r = ID_FISICO r1)
          ∧ NRBRM r = Some 100
          ∧ INC_CONTABIL r = Some 2
          ∧ ST_CONCILIACAO r = "CM - INC"%string)).
Proof.
  intros d pairs.
  assert (Hsave : ∃ d', save_pairs_with_family d pairs "MANUAL" = Some (d', 3)).
  { eexists. vm_compute. reflexivity. }
  destruct Hsave as [d' Hsave]. exists d'.
  destruct (C10_family_rows d pairs "MANUAL" d' 3 100
              (DeparaRow 2 "CM - INC" 2 11 (Some 100) (Some 1))
              (acct 12 100 2) 12) as (_ & _ & r & Hr); try done.
  - prove_by_compute.
  - prove_by_compute.
  - prove_by_compute.
  - refute_by_compute.
  - exists r. by split.
Defined.

(** ** Undo of a committed family *)

(** C3, as claimed: undoing a committed parent pair by its key brings the
    pending counts back to what they were before the commit. For a parent
    committed without a physical side (key (0, 10)), [undo_pairs] selects
    every ledger row of the group key, whatever its physical id: here it also
    removes the earlier pair (9, 0) of a physical record with the same group
    key, so one more physical record is pending after the undo than before
    the commit. *)
Lemma C3_undo_without_physical_side_removes_more :
  ∃ da db, save_nao_chapeavel_pairs unmatched_group [(9, 0)] = Some (da, 1)
    ∧ ledger_consistent da
    ∧ save_nao_chapeavel_pairs da [(0, 10)] = Some (db, 2)
    ∧ ledger_pairs db = [(9, 0); (0, 10); (0, 11)]
    ∧ ledger_pairs (undo_pairs db [(0, 10)]).1 = []
    ∧ get_counts da = MkCounts 0 2
    ∧ get_counts (undo_pairs db [(0, 10)]).1 = MkCounts 1 2
    ∧ get_counts (undo_pairs db [(0, 10)]).1 ≠ get_counts da.
Proof.
  eexists _, _. split_and!; try (vm_compute; reflexivity).
  - split.
    + intros r Hr _. apply list_elem_of_singleton in Hr. subst r.
      apply Exists_cons_hd. by split.
    + intros l Hl. apply list_elem_of_singleton in Hl. subst l.
      eexists. split; [apply list_elem_of_here|done].
  - vm_compute. discriminate.
Qed.

Lemma rows_fresh_append n0 s stc fis_id ctb_id nrbrm inc always :
  rows_fresh n0 s → rows_fresh n0 (append_pair s stc fis_id ctb_id nrbrm inc always).
Proof.
  intros (Hle & Hrows & Hlocks). split_and!; simpl.
  - lia.
  - intros r Hr. apply elem_of_app in Hr as [Hr|Hr].
    + specialize (Hrows r Hr). lia.
    + apply list_elem_of_singleton in Hr. subst r. simpl. lia.
  - intros l Hl. apply elem_of_app in Hl as [Hl|Hl].
    + destruct (Hlocks l Hl) as (r & Hr & Heq). exists r. split; [|done].
      apply elem_of_app. by left.
    + eexists. split; [apply elem_of_app; right; apply list_elem_of_singleton; reflexivity|].
      simpl. apply elem_of_app in Hl as [Hl|Hl].
      * destruct (bool_decide _); [|by apply elem_of_nil in Hl].
        apply list_elem_of_singleton in Hl. by subst l.
      * destruct (always || _); [|by apply elem_of_nil in Hl].
        apply list_elem_of_singleton in Hl. by subst l.
Qed.

Lemma rows_fresh_propagate_row d stc child nr an n0 s fr s' :
  rows_fresh n0 s →
  propagate_row d stc child nr an (Some s) fr = Some s' → rows_fresh n0 s'.
Proof.
  intros Hinv. unfold propagate_row. simpl.
  destruct fr.1 as [c|]; simpl; [|done].
  case_decide; intros [= <-]; [done|]. by apply rows_fresh_append.
Qed.

(** What [INSERT OR IGNORE] leaves in the table, on either engine: the old
    rows, followed by some of the new ones. *)
Lemma insert_or_ignore_app e rows tbl :
  ∃ k, insert_or_ignore e tbl rows = tbl ++ k ∧ ∀ l, l ∈ k → l ∈ rows.
Proof.
  unfold insert_or_ignore. revert tbl.
  induction rows as [|r rows IH]; intros tbl; simpl.
  - exists []. split; [by rewrite app_nil_r|]. intros l Hl. by apply elem_of_nil in Hl.
  - unfold insert_or_ignore_row at 2.
    destruct (lock_unique e); [case_decide|].
    + destruct (IH tbl) as (k & -> & Hk). exists k. split; [done|].
      intros l Hl. right. by apply Hk.
    + destruct (IH (tbl ++ [r])) as (k & -> & Hk). exists (r :: k).
      split; [by rewrite <- app_assoc|].
      intros l Hl. apply elem_of_cons in Hl as [->|Hl]; [left|right; by apply Hk].
    + destruct (IH (tbl ++ [r])) as (k & -> & Hk). exists (r :: k).
      split; [by rewrite <- app_assoc|].
      intros l Hl. apply elem_of_cons in Hl as [->|Hl]; [left|right; by apply Hk].
Qed.

Lemma sql_max_ge (l : list Z) x : x ∈ l → x ≤ coalesce (sql_max l).
Proof.
  induction l as [|y l IH]; intros Hx; [by apply elem_of_nil in Hx|].
  simpl. apply elem_of_cons in Hx as [->|Hx].
  - destruct (sql_max l); simpl; lia.
  - specialize (IH Hx). destruct (sql_max l) eqn:Hm; simpl in *; [lia|].
    destruct l; [by apply elem_of_nil in Hx|done].
Qed.

(** The pair ids in the ledger are below the first id a commit hands out. *)
Lemma old_par_ids_below d r : r ∈ depara d → PAR_ID r < next_par_id (begin_save d).
Proof.
  intros Hr. simpl.
  assert (PAR_ID r ≤ coalesce (sql_max (PAR_ID <$> depara d))); [|lia].
  apply sql_max_ge. apply list_elem_of_fmap. by exists r.
Qed.

Lemma pending_id_same_locks d d' b o :
  conciliados d' = conciliados d → pending_id d' b o = pending_id d b o.
Proof.
  intros Hc. destruct o as [i|]; [|done]. simpl.
  apply bool_decide_ext. unfold locked. by rewrite Hc.
Qed.

(** [get_counts] reads the ids of the two registers and the lock table only. *)
Lemma get_counts_same d d' :
  fis_ID <$> fisico d' = fis_ID <$> fisico d →
  ctb_ID <$> contabil d' = ctb_ID <$> contabil d →
  conciliados d' = conciliados d →
  get_counts d' = get_counts d.
Proof.
  intros Hf Hc Hl. unfold get_counts.
  assert (Hlen : ∀ {A} (g : A → option Z) b (l l' : list A),
    g <$> l' = g <$> l →
    length (filter (λ x, pending_id d' b (g x)) l')
    = length (filter (λ x, pending_id d b (g x)) l)).
  { intros A g b l. induction l as [|x l IH]; intros [|x' l'] Heq; try done.
    injection Heq as Hx Heq. rewrite !filter_cons.
    rewrite (pending_id_same_locks d d') by done. rewrite Hx.
    destruct (decide _); simpl; by rewrite (IH l'). }
  by rewrite (Hlen _ fis_ID FIS (fisico d) (fisico d')),
             (Hlen _ ctb_ID CTB (contabil d) (contabil d')).
Qed.

Lemma clear_fis_frag_ids ids (l : list fis_row) :
  fis_ID <$> (clear_fis_frag ids <$> l) = fis_ID <$> l.
Proof.
  rewrite <- list_fmap_compose. apply list_fmap_ext. intros i f _. simpl.
  unfold clear_fis_frag. by destruct (id_in _ _).
Qed.

Lemma clear_ctb_frag_ids ids (l : list ctb_row) :
  ctb_ID <$> (clear_ctb_frag ids <$> l) = ctb_ID <$> l.
Proof.
  rewrite <- list_fmap_compose. apply list_fmap_ext. intros i f _. simpl.
  unfold clear_ctb_frag. by destruct (id_in _ _).
Qed.

(** The first loop on the single pair (p, a) of a pending physical record
    and a pending parent. *)
Lemma single_parent_main d p a stc row :
  0 < p → 0 < a → ¬ locked d FIS p → ¬ locked d CTB a →
  contabil_by_id d a = Some row → coalesce (ctb_INC row) = 0 →
  family_main d stc [(p, a)]
  = (append_pair (begin_save d) stc p a (coalesce (ctb_NRBRM row)) (Some 0) false,
     [(coalesce (ctb_NRBRM row), p)]).
Proof.
  intros Hp Ha Hup Hua Hrow Hinc. unfold family_main. simpl.
  unfold family_main_row. simpl.
  destruct (decide (p ≤ 0 ∧ a ≤ 0)); [lia|].
  destruct (decide (0 < p ∧ locked d FIS p)); [tauto|].
  destruct (decide (0 < a ∧ (a ∈ (∅ : gset Z) ∨ locked d CTB a))) as [[_ [Hin|Hl]]|];
    [set_solver|done|].
  destruct (decide (0 < a)); [|lia].
  rewrite Hrow, Hinc. by destruct (decide (0 ≠ 0)).
Qed.

(** The sets [undo_pairs] computes for the key (p, a) right after that
    commit, described by the rows the commit built. *)
Lemma undo_sets_after_commit d p a row s :
  ledger_consistent d → 0 < p → 0 < a → ¬ locked d FIS p → ¬ locked d CTB a →
  contabil_by_id d a = Some row →
  0 < coalesce (ctb_NRBRM row) → coalesce (ctb_INC row) = 0 →
  rows_fresh (next_par_id (begin_save d)) s →
  (∀ r, r ∈ depara_rows s →
        ID_FISICO r = p ∧ NRBRM r = Some (coalesce (ctb_NRBRM row))
        ∧ ¬ locked d CTB (ID_CONTABIL r)) →
  let u := undo_impacted (write_rows d s)
             (undo_key (write_rows d s) (UndoSets ∅ ∅ ∅) (p, a)) in
  (∀ x, x ∈ par_ids u ↔ ∃ r, r ∈ depara_rows s ∧ PAR_ID r = x)
  ∧ (∀ x, x ∈ fis_ids u → x = p)
  ∧ (∀ x, x ∈ ctb_ids u → ¬ locked d CTB x).
Proof.
  intros [Hcons _] Hp Ha Hup Hua Hrow Hnr Hinc (_ & Hfresh & _) Hrows u.
  assert (Hold : ∀ r, r ∈ depara d → ID_FISICO r ≠ p).
  { intros r Hr Heq. apply Hup. rewrite <- Heq. apply Hcons; [done|lia]. }
  assert (Hpar : ∀ x, x ∈ par_ids u ↔ ∃ r, r ∈ depara_rows s ∧ PAR_ID r = x).
  { intros x. unfold u. simpl. unfold undo_key_rows. simpl.
    rewrite decide_True by done.
    change (contabil_by_id (write_rows d s) a) with (contabil_by_id d a).
    rewrite Hrow. rewrite decide_True by done.
    rewrite elem_of_union, elem_of_list_to_set, elem_of_app, !list_elem_of_fmap.
    split.
    - intros [[(r & -> & Hr)|(r & -> & Hr)]|Hx]; [| |set_solver].
      + apply list_elem_of_filter in Hr as [[Hf _] Hr].
        apply elem_of_app in Hr as [Hr|Hr]; [by destruct (Hold r Hr)|by exists r].
      + apply list_elem_of_filter in Hr as [[_ Hf] Hr].
        apply elem_of_app in Hr as [Hr|Hr]; [by destruct (Hold r Hr)|by exists r].
    - intros (r & Hr & <-). left. right. exists r. split; [done|].
      apply list_elem_of_filter. destruct (Hrows r Hr) as (Hf & Hn & _).
      split; [by rewrite Hn|]. apply elem_of_app. by right. }
  assert (Himp : ∀ r, r ∈ filter (λ r, PAR_ID r ∈ par_ids u) (depara (write_rows d s)) →
                      r ∈ depara_rows s).
  { intros r Hr. apply list_elem_of_filter in Hr as [Hin Hr]. simpl in Hr.
    apply elem_of_app in Hr as [Hr|Hr]; [|done].
    apply Hpar in Hin as (r' & Hr' & Heq).
    pose proof (old_par_ids_below d r Hr). specialize (Hfresh r' Hr'). lia. }
  split; [exact Hpar|]. split.
  - intros x. unfold u at 1. simpl. rewrite elem_of_union, elem_of_list_to_set.
    intros [Hx|Hx].
    + apply list_elem_of_filter in Hx as [_ Hx].
      apply list_elem_of_fmap in Hx as (r & -> & Hr).
      apply Himp in Hr. by destruct (Hrows r Hr).
    + rewrite decide_True in Hx by done. set_solver.
  - intros x. unfold u at 1. simpl. rewrite elem_of_union, elem_of_list_to_set.
    intros [Hx|Hx].
    + apply list_elem_of_filter in Hx as [_ Hx].
      apply list_elem_of_fmap in Hx as (r & -> & Hr).
      apply Himp in Hr. by destruct (Hrows r Hr) as (_ & _ & ?).
    + rewrite decide_True in Hx by done.
      assert (x = a) as -> by set_solver. done.
Qed.

Lemma undo_pairs_single d p a :
  ¬ (p ≤ 0 ∧ a ≤ 0) →
  undo_pairs d [(p, a)]
  = undo_apply d (undo_impacted d (undo_key d (UndoSets ∅ ∅ ∅) (p, a))).
Proof.
  intros Hk. unfold undo_pairs. simpl.
  destruct (decide ((p, a) ∈ (∅ : gset (Z * Z)))) as [?|_]; [set_solver|].
  by destruct (decide (p ≤ 0 ∧ a ≤ 0)).
Qed.

(** C3, amended: for a parent pair with a physical side (p > 0), committed
    with its family by [save_pairs_with_family] from a store whose ledger and
    lock table agree, [undo_pairs] with the key (p, a) removes the parent row
    and every propagated child row (all the rows of the commit, which share
    the physical id and the group key), removes their lock rows, and brings
    the ledger, the lock table and the pending counts back to what they were
    before the commit. *)
Theorem C3_undo_restores_counts d p a stc row d1 n :
  ledger_consistent d →
  0 < p → 0 < a → ¬ locked d FIS p → ¬ locked d CTB a →
  contabil_by_id d a = Some row →
  0 < coalesce (ctb_NRBRM row) → coalesce (ctb_INC row) = 0 →
  save_pairs_with_family d [(p, a)] stc = Some (d1, n) →
  (∀ r, r ∈ written d d1 →
        ID_FISICO r = p ∧ NRBRM r = Some (coalesce (ctb_NRBRM row)))
  ∧ depara (undo_pairs d1 [(p, a)]).1 = depara d
  ∧ conciliados (undo_pairs d1 [(p, a)]).1 = conciliados d
  ∧ removed_depara (undo_pairs d1 [(p, a)]).2 = n
  ∧ get_counts (undo_pairs d1 [(p, a)]).1 = get_counts d.
Proof.
  intros Hcons Hp Ha Hup Hua Hrow Hnr Hinc Hsave.
  apply save_pairs_with_family_state in Hsave as (s & Hs & -> & ->).
  assert (Htracked : ctb_ids_tracked s).
  { revert Hs. apply foldl_option_inv.
    - apply propagate_family_None.
    - intros x b x'. apply ctb_ids_tracked_propagate_family.
    - apply ctb_ids_tracked_family_main. }
  rewrite (single_parent_main d p a stc row) in Hs by done. simpl in Hs.
  destruct (decide (coalesce (ctb_NRBRM row) ≤ 0)) as [?|_]; [lia|].
  set (nr := coalesce (ctb_NRBRM row)) in *.
  set (s0 := append_pair (begin_save d) stc p a nr (Some 0) false) in *.
  assert (Hfresh : rows_fresh (next_par_id (begin_save d)) s).
  { revert Hs. apply foldl_option_inv.
    - done.
    - intros x b x'. apply rows_fresh_propagate_row.
    - apply rows_fresh_append. split_and!; [done| |];
        intros x Hx; by apply elem_of_nil in Hx. }
  apply propagate_rows_spec in Hs as (_ & _ & _ & new & Hnew & Hshape).
  assert (Hrows : ∀ r, r ∈ depara_rows s →
    ID_FISICO r = p ∧ NRBRM r = Some nr ∧ ¬ locked d CTB (ID_CONTABIL r)).
  { intros r. rewrite Hnew. intros Hr. apply elem_of_app in Hr as [Hr|Hr].
    - apply list_elem_of_singleton in Hr. by subst r.
    - destruct (Hshape r Hr) as (cid & inc & _ & _ & Hunl & _ & Hf & Hc & Hn & _).
      by rewrite Hc. }
  destruct (undo_sets_after_commit d p a row s) as (Hpar & Hfis & Hctb); try done.
  destruct (insert_or_ignore_app (engine d) (conc_rows s) (conciliados d))
    as (k & Hk & Hksub).
  destruct Hcons as [_ Hlocks]. destruct Hfresh as (_ & Hfresh & Hnewlocks).
  rewrite written_write_rows.
  rewrite undo_pairs_single by lia.
  set (u := undo_impacted (write_rows d s)
              (undo_key (write_rows d s) (UndoSets ∅ ∅ ∅) (p, a))) in *.
  clearbody u.
  assert (Hold_par : ∀ r, r ∈ depara d → PAR_ID r ∉ par_ids u).
  { intros r Hr Hin. apply Hpar in Hin as (r' & Hr' & Heq).
    pose proof (old_par_ids_below d r Hr). specialize (Hfresh r' Hr'). lia. }
  assert (Hdep : filter (λ r, ¬ PAR_ID r ∈ par_ids u) (depara d ++ depara_rows s)
                 = depara d).
  { rewrite filter_app, filter_all, filter_none, app_nil_r; [done| |done].
    intros r Hr Hnot. apply Hnot, Hpar. by exists r. }
  assert (Hconc : conciliados (undo_apply (write_rows d s) u).1 = conciliados d).
  { simpl. rewrite Hk, filter_app.
    rewrite (filter_none _ k).
    2:{ intros l Hl Hnot. apply Hnot, Hpar.
        destruct (Hnewlocks l (Hksub l Hl)) as (r & Hr & Heq). by exists r. }
    rewrite app_nil_r.
    assert (Hlocked : ∀ l b, l ∈ conciliados d → conc_BASE l = b → locked d b (conc_ID l)).
    { intros l b Hl Hb. apply Exists_exists. by exists l. }
    rewrite (filter_all _ (conciliados d)).
    2:{ intros l Hl Hin. destruct (Hlocks l Hl) as (r & Hr & Heq).
        apply (Hold_par r Hr). by rewrite Heq. }
    rewrite (filter_all _ (conciliados d)).
    2:{ intros l Hl [Hb Hin]. apply Hup. rewrite <- (Hfis _ Hin). by apply Hlocked. }
    rewrite (filter_all _ (conciliados d)); [done|].
    intros l Hl [Hb Hin]. apply (Hctb _ Hin). by apply Hlocked. }
  split_and!.
  - intros r Hr. by destruct (Hrows r Hr) as (? & ? & _).
  - exact Hdep.
  - exact Hconc.
  - simpl. unfold count_where. rewrite filter_app.
    rewrite (filter_none _ (depara d)) by (intros r Hr Hin; by apply (Hold_par r)).
    rewrite filter_all by (intros r Hr; apply Hpar; by exists r).
    by destruct Htracked as (_ & _ & ->).
  - apply get_counts_same; [apply clear_fis_frag_ids|apply clear_ctb_frag_ids|exact Hconc].
Qed.

Lemma C3_undo_restores_counts_witness :
  ∃ d1, save_pairs_with_family one_pair_committed [(1, 10)] "MANUAL" = Some (d1, 2)
    ∧ ledger_pairs d1 = [(2, 20); (1, 10); (1, 11)]
    ∧ (∀ r, r ∈ written one_pair_committed d1 → ID_FISICO r = 1 ∧ NRBRM r = Some 100)
    ∧ depara (undo_pairs d1 [(1, 10)]).1 = depara one_pair_committed
    ∧ conciliados (undo_pairs d1 [(1, 10)]).1 = conciliados one_pair_committed
    ∧ removed_depara (undo_pairs d1 [(1, 10)]).2 = 2
    ∧ get_counts (undo_pairs d1 [(1, 10)]).1 = get_counts one_pair_committed.
Proof.
  eexists. split; [vm_compute; reflexivity|]. split; [vm_compute; reflexivity|].
  apply (C3_undo_restores_counts one_pair_committed 1 10 "MANUAL" (acct 10 100 0) _ 2).
  - split.
    + intros r Hr _. apply list_elem_of_singleton in Hr. subst r.
      apply Exists_cons_hd. by split.
    + intros l Hl. exists (DeparaRow 1 "MANUAL" 2 20 (Some 200) (Some 0)).
      split; [apply list_elem_of_here|].
      apply elem_of_cons in Hl as [->|Hl]; [done|].
      apply list_elem_of_singleton in Hl. by subst l.
  - reflexivity.
  - reflexivity.
  - refute_by_compute.
  - refute_by_compute.
  - vm_compute. reflexivity.
  - reflexivity.
  - reflexivity.
  - vm_compute. reflexivity.
Defined.

(** ** The rank pairing of [_pair_1to1_by_value] *)

Section pairing_facts.
Context {K : Type} `{EqDecision K}.
Implicit Types df : list (Z * K).
Implicit Types a b c : nat * (Z * K).

Lemma elem_of_indexed df a : a ∈ Matcher.indexed df ↔ df !! a.1 = Some a.2.
Proof.
  unfold Matcher.indexed. rewrite elem_of_lookup_imap. split.
  - by intros (i & x & -> & Hx).
  - intros Ha. exists a.1, a.2. by destruct a.
Qed.

Lemma indexed_inj df a b :
  a ∈ Matcher.indexed df → b ∈ Matcher.indexed df → a.1 = b.1 → a = b.
Proof.
  rewrite !elem_of_indexed. intros Ha Hb Heq. rewrite Heq in Ha.
  destruct a, b; simpl in *. congruence.
Qed.

Lemma NoDup_indexed df : NoDup (Matcher.indexed df).
Proof.
  apply NoDup_alt. intros i j a Hi Hj. unfold Matcher.indexed in *.
  rewrite list_lookup_imap in Hi, Hj.
  destruct (df !! i); [|done]. destruct (df !! j); [|done].
  simpl in *. congruence.
Qed.

Lemma elem_of_group k df a :
  a ∈ group_rows k df ↔ a ∈ Matcher.indexed df ∧ a.2.2 = k.
Proof. unfold group_rows. rewrite list_elem_of_filter. tauto. Qed.

Lemma elem_of_frame_group df x k :
  (x, k) ∈ df ↔ ∃ a, a ∈ group_rows k df ∧ a.2 = (x, k).
Proof.
  rewrite list_elem_of_lookup. split.
  - intros [i Hi]. exists (i, (x, k)). split; [|done].
    apply elem_of_group. split; [|done]. by apply elem_of_indexed.
  - intros (a & Ha & Heq). apply elem_of_group in Ha as [Ha _].
    apply elem_of_indexed in Ha. exists a.1. by rewrite <- Heq.
Qed.

(** The rank only counts rows of the same group. *)
Lemma rank_in_group k df a :
  a.2.2 = k →
  Matcher.rank_in (Matcher.indexed df) a
  = 1 + Z.of_nat (length (filter (λ b, Matcher.precedes b a) (group_rows k df))).
Proof.
  intros <-. unfold Matcher.rank_in, group_rows. do 3 f_equal.
  rewrite list_filter_filter. apply list_filter_iff.
  intros b. unfold Matcher.precedes. tauto.
Qed.

Lemma filter_length_le_of_imp {A} (P Q : A → Prop)
    `{∀ x, Decision (P x)} `{∀ x, Decision (Q x)} (l : list A) :
  (∀ x, x ∈ l → P x → Q x) →
  (length (filter P l) ≤ length (filter Q l))%nat.
Proof.
  induction l as [|y l IH]; intros Himp; [done|].
  assert (IH' : (length (filter P l) ≤ length (filter Q l))%nat).
  { apply IH. intros x Hx. apply Himp. by right. }
  rewrite !filter_cons. destruct (decide (P y)) as [Hy|Hy].
  - rewrite decide_True by (apply Himp; [left|done]). simpl. lia.
  - destruct (decide (Q y)); simpl; lia.
Qed.

Lemma filter_length_lt_of_imp {A} (P Q : A → Prop)
    `{∀ x, Decision (P x)} `{∀ x, Decision (Q x)} (l : list A) x0 :
  (∀ x, x ∈ l → P x → Q x) → x0 ∈ l → Q x0 → ¬ P x0 →
  (length (filter P l) < length (filter Q l))%nat.
Proof.
  induction l as [|y l IH]; intros Himp Hin HQ HP; [by apply elem_of_nil in Hin|].
  assert (Hle : (length (filter P l) ≤ length (filter Q l))%nat).
  { apply filter_length_le_of_imp. intros x Hx. apply Himp. by right. }
  rewrite !filter_cons. apply elem_of_cons in Hin as [->|Hin].
  - rewrite decide_False by done. rewrite decide_True by done. simpl. lia.
  - assert (IH' : (length (filter P l) < length (filter Q l))%nat).
    { apply IH; try done. intros x Hx. apply Himp. by right. }
    destruct (decide (P y)) as [Hy|Hy].
    + rewrite decide_True by (apply Himp; [left|done]). simpl. lia.
    + destruct (decide (Q y)); simpl; lia.
Qed.

End pairing_facts.

Section pairing_ranks.
Context {K : Type} `{EqDecision K}.
Implicit Types df : list (Z * K).
Implicit Types a b c : nat * (Z * K).

Lemma precedes_irrefl a : ¬ Matcher.precedes a a.
Proof. unfold Matcher.precedes. lia. Qed.

Lemma precedes_trans a b c :
  Matcher.precedes a b → Matcher.precedes b c → Matcher.precedes a c.
Proof. unfold Matcher.precedes. intros [-> ?] [-> ?]. split; [done|lia]. Qed.

Lemma precedes_total k df a b :
  a ∈ group_rows k df → b ∈ group_rows k df → a ≠ b →
  Matcher.precedes a b ∨ Matcher.precedes b a.
Proof.
  intros [Ha Hka]%elem_of_group [Hb Hkb]%elem_of_group Hne.
  assert (a.1 ≠ b.1) by (intros Heq; by apply Hne, (indexed_inj df)).
  unfold Matcher.precedes. rewrite Hka, Hkb.
  destruct (Z.lt_total a.2.1 b.2.1) as [?|[?|?]]; [tauto| |tauto].
  destruct (Nat.lt_total a.1 b.1) as [?|[?|?]]; [left|done|right]; split; auto.
Qed.

(** Within a group the ranks follow the order: they are pairwise distinct. *)
Lemma rank_lt k df a b :
  a ∈ group_rows k df → b ∈ group_rows k df → Matcher.precedes a b →
  Matcher.rank_in (Matcher.indexed df) a < Matcher.rank_in (Matcher.indexed df) b.
Proof.
  intros Ha Hb Hab.
  pose proof Ha as [_ Hka]%elem_of_group. pose proof Hb as [_ Hkb]%elem_of_group.
  rewrite (rank_in_group k df a Hka), (rank_in_group k df b Hkb).
  assert (length (filter (λ x, Matcher.precedes x a) (group_rows k df))
          < length (filter (λ x, Matcher.precedes x b) (group_rows k df)))%nat; [|lia].
  apply (filter_length_lt_of_imp _ _ _ a); [|done|done|apply precedes_irrefl].
  intros x _ Hxa. by eapply precedes_trans.
Qed.

Lemma rank_inj k df a b :
  a ∈ group_rows k df → b ∈ group_rows k df →
  Matcher.rank_in (Matcher.indexed df) a = Matcher.rank_in (Matcher.indexed df) b →
  a = b.
Proof.
  intros Ha Hb Heq. destruct (decide (a = b)) as [|Hne]; [done|].
  destruct (precedes_total k df a b Ha Hb Hne) as [Hp|Hp].
  - pose proof (rank_lt k df a b Ha Hb Hp). lia.
  - pose proof (rank_lt k df b a Hb Ha Hp). lia.
Qed.

Lemma rank_range k df a :
  a ∈ group_rows k df →
  1 ≤ Matcher.rank_in (Matcher.indexed df) a ≤ Z.of_nat (length (group_rows k df)).
Proof.
  intros Ha.
  pose proof Ha as [_ Hka]%elem_of_group. rewrite (rank_in_group k df a Hka).
  pose proof (length_filter_lt (λ x, Matcher.precedes x a) (group_rows k df) a Ha
                (precedes_irrefl a)).
  lia.
Qed.

(** The ranks of a group of m rows are exactly 1, ..., m. *)
Lemma rank_onto k df j :
  1 ≤ j ≤ Z.of_nat (length (group_rows k df)) →
  ∃ a, a ∈ group_rows k df ∧ Matcher.rank_in (Matcher.indexed df) a = j.
Proof.
  intros Hj.
  set (R := Matcher.rank_in (Matcher.indexed df) <$> group_rows k df).
  set (m := Z.of_nat (length (group_rows k df))) in *.
  assert (Hnd : NoDup R).
  { apply NoDup_fmap_2_strong.
    - intros a b Ha Hb. by apply (rank_inj k df).
    - apply NoDup_filter, NoDup_indexed. }
  assert (Hsub : R ⊆+ seqZ 1 m).
  { apply NoDup_submseteq; [done|]. intros x Hx.
    apply list_elem_of_fmap in Hx as (a & -> & Ha).
    apply elem_of_seqZ. pose proof (rank_range k df a Ha). unfold m. lia. }
  assert (Hperm : R ≡ₚ seqZ 1 m).
  { apply submseteq_length_Permutation; [done|].
    rewrite length_seqZ. unfold R. rewrite length_fmap. unfold m. lia. }
  assert (Hin : j ∈ R).
  { rewrite Hperm. apply elem_of_seqZ. lia. }
  apply list_elem_of_fmap in Hin as (a & -> & Ha). by exists a.
Qed.

Lemma elem_of_with_rk df x :
  x ∈ Matcher.with_rk df ↔
  ∃ a, a ∈ Matcher.indexed df ∧ x = (a.2, Matcher.rank_in (Matcher.indexed df) a).
Proof. unfold Matcher.with_rk. rewrite list_elem_of_fmap. naive_solver. Qed.

(** A row of the result joins a left row and a right row of the same key
    and the same rank. *)
Lemma elem_of_pair_1to1 (df_f df_c : list (Z * K)) x y k :
  (x, y, k) ∈ Matcher._pair_1to1_by_value df_f df_c ↔
  ∃ a c, a ∈ group_rows k df_f ∧ c ∈ group_rows k df_c
         ∧ a.2.1 = x ∧ c.2.1 = y
         ∧ Matcher.rank_in (Matcher.indexed df_f) a
           = Matcher.rank_in (Matcher.indexed df_c) c.
Proof.
  unfold Matcher._pair_1to1_by_value. rewrite list_elem_of_bind. split.
  - intros (l & Hxy & Hl). apply list_elem_of_bind in Hxy as (r & Hxy & Hr).
    apply list_elem_of_singleton in Hxy. injection Hxy as -> -> ->.
    apply list_elem_of_filter in Hr as [[Hkey Hrk] Hr].
    apply elem_of_with_rk in Hl as (a & Ha & ->).
    apply elem_of_with_rk in Hr as (c & Hc & ->). simpl in *.
    exists a, c. split_and!; try done; apply elem_of_group; by split.
  - intros (a & c & [Ha Hka]%elem_of_group & [Hc Hkc]%elem_of_group & <- & <- & Hrk).
    exists (a.2, Matcher.rank_in (Matcher.indexed df_f) a). split.
    + apply list_elem_of_bind.
      exists (c.2, Matcher.rank_in (Matcher.indexed df_c) c). split.
      * simpl. rewrite Hka. apply list_elem_of_singleton. done.
      * apply list_elem_of_filter. simpl. split; [by rewrite Hka, Hkc|].
        apply elem_of_with_rk. by exists c.
    + apply elem_of_with_rk. by exists a.
Qed.

(** In each group, one of the two sides is paired off entirely. *)
Lemma pair_1to1_exhausts (df_f df_c : list (Z * K)) (k : K) :
  (∀ x, (x, k) ∈ df_f → ∃ y, (x, y, k) ∈ Matcher._pair_1to1_by_value df_f df_c)
  ∨ (∀ y, (y, k) ∈ df_c → ∃ x, (x, y, k) ∈ Matcher._pair_1to1_by_value df_f df_c).
Proof.
  destruct (decide (length (group_rows k df_f) ≤ length (group_rows k df_c))%nat)
    as [Hle|Hgt]; [left|right].
  - intros x Hx. apply elem_of_frame_group in Hx as (a & Ha & Hax).
    pose proof (rank_range k df_f a Ha) as Hr.
    destruct (rank_onto k df_c (Matcher.rank_in (Matcher.indexed df_f) a))
      as (c & Hc & Hrk); [lia|].
    exists c.2.1. apply elem_of_pair_1to1. exists a, c.
    split_and!; try done. by rewrite Hax.
  - intros y Hy. apply elem_of_frame_group in Hy as (c & Hc & Hcy).
    pose proof (rank_range k df_c c Hc) as Hr.
    destruct (rank_onto k df_f (Matcher.rank_in (Matcher.indexed df_c) c))
      as (a & Ha & Hrk); [lia|].
    exists a.2.1. apply elem_of_pair_1to1. exists a, c.
    split_and!; try done. by rewrite Hcy.
Qed.

(** No pair comes out of two frames without a common key. *)
Lemma pair_1to1_nil (df_f df_c : list (Z * K)) :
  (∀ x y k, (x, k) ∈ df_f → (y, k) ∈ df_c → False) →
  Matcher._pair_1to1_by_value df_f df_c = [].
Proof.
  intros Hdisj. destruct (Matcher._pair_1to1_by_value df_f df_c) as [|[[x y] k] l] eqn:Hp;
    [done|].
  assert (Hin : (x, y, k) ∈ Matcher._pair_1to1_by_value df_f df_c).
  { rewrite Hp. left. }
  apply elem_of_pair_1to1 in Hin as (a & c & Ha & Hc & Hax & Hcy & _).
  destruct (Hdisj x y k); apply elem_of_frame_group.
  - exists a. split; [done|]. apply elem_of_group in Ha as [_ Hk].
    destruct a as [i [x' k']]. simpl in *. by subst.
  - exists c. split; [done|]. apply elem_of_group in Hc as [_ Hk].
    destruct c as [i [y' k']]. simpl in *. by subst.
Qed.

End pairing_ranks.

(** ** Running the group-key rule twice *)

(** C5, as claimed: on every store the second run of a rule creates no
    pair. The engine writes no lock row and no FRAG mark for a physical id
    that is not positive (it reads such an id as "no physical side"), so a
    physical record with id 0 stays pending and is paired again with the next
    accounting parent of its group. *)
Lemma C5_second_run_pairs_again :
  ledger_pairs (Matcher.run_regra_nrbrm_pai zero_id_store).1 = [(0, 1)]
  ∧ ledger_pairs
      (Matcher.run_regra_nrbrm_pai (Matcher.run_regra_nrbrm_pai zero_id_store).1).1
    = [(0, 1); (0, 2)]
  ∧ Matcher.conciliados
      (Matcher.run_regra_nrbrm_pai (Matcher.run_regra_nrbrm_pai zero_id_store).1).2
    ≠ 0.
Proof. split_and!; vm_compute; [reflexivity|reflexivity|discriminate]. Qed.

Lemma pair_1to1_nil_l {K} `{EqDecision K} (df_c : list (Z * K)) :
  Matcher._pair_1to1_by_value [] df_c = [].
Proof. done. Qed.

Lemma pair_1to1_nil_r {K} `{EqDecision K} (df_f : list (Z * K)) :
  Matcher._pair_1to1_by_value df_f [] = [].
Proof. apply pair_1to1_nil. intros x y k _ Hy. by apply elem_of_nil in Hy. Qed.

(** The early returns of the rule agree with its general path. *)
Lemma run_regra_nrbrm_pai_fold d :
  Matcher.run_regra_nrbrm_pai d
  = ((Matcher._bulk_insert_pairs d (nrbrm_pairs d) "NRBEM_FIS=NRBEM_CTB").1,
     Matcher.MkStats "NRBEM_FIS=NRBEM_CTB"
       (Z.of_nat (length (Matcher._read_pending_fisico d)))
       (Z.of_nat (length (Matcher._read_pending_contabil d)))
       (Matcher._bulk_insert_pairs d (nrbrm_pairs d) "NRBEM_FIS=NRBEM_CTB").2).
Proof.
  unfold Matcher.run_regra_nrbrm_pai, nrbrm_pairs, pending_fis_keys, pending_parent_keys.
  destruct (Matcher.fis_key_frame _) as [|f lf] eqn:Hf.
  - by rewrite pair_1to1_nil_l.
  - destruct (Matcher.ctb_parent_frame _) as [|c lc] eqn:Hc; [|done].
    by rewrite pair_1to1_nil_r.
Qed.

Lemma elem_of_pending_fis_keys d x k :
  (x, k) ∈ pending_fis_keys d ↔
  ∃ f, f ∈ fisico d ∧ fis_ID f = Some x ∧ fis_NRBRM f = Some k
       ∧ ¬ locked d FIS x ∧ Matcher.frag_open (fis_FRAG f).
Proof.
  unfold pending_fis_keys, Matcher.fis_key_frame, Matcher._read_pending_fisico.
  rewrite list_elem_of_omap. split.
  - intros (f & Hf & Hk). apply list_elem_of_filter in Hf as [[Hp Ho] Hf].
    destruct (fis_ID f) as [i|] eqn:Hi; [|done].
    destruct (fis_NRBRM f) as [n|] eqn:Hn; [|done].
    simpl in Hk. injection Hk as -> ->. exists f. split_and!; try done.
    simpl in Hp. by apply bool_decide_unpack in Hp.
  - intros (f & Hf & Hi & Hn & Hl & Ho). exists f. split.
    + apply list_elem_of_filter. split; [|done]. split; [|done].
      rewrite Hi. simpl. by apply bool_decide_pack.
    + by rewrite Hi, Hn.
Qed.

Lemma elem_of_pending_parent_keys d y k :
  (y, k) ∈ pending_parent_keys d ↔
  ∃ t, t ∈ contabil d ∧ ctb_ID t = Some y ∧ ctb_NRBRM t = Some k
       ∧ coalesce (ctb_INC t) = 0
       ∧ ¬ locked d CTB y ∧ Matcher.frag_open (ctb_FRAG t).
Proof.
  unfold pending_parent_keys, Matcher.ctb_parent_frame, Matcher._read_pending_contabil.
  rewrite list_elem_of_omap. split.
  - intros (t & Ht & Hk). apply list_elem_of_filter in Ht as [[Hp Ho] Ht].
    destruct (ctb_ID t) as [i|] eqn:Hi; [|done].
    destruct (ctb_NRBRM t) as [n|] eqn:Hn; [|done].
    simpl in Hk. destruct (decide (coalesce (ctb_INC t) = 0)) as [Hinc|]; [|done].
    injection Hk as -> ->. exists t. split_and!; try done.
    simpl in Hp. by apply bool_decide_unpack in Hp.
  - intros (t & Ht & Hi & Hn & Hinc & Hl & Ho). exists t. split.
    + apply list_elem_of_filter. split; [|done]. split; [|done].
      rewrite Hi. simpl. by apply bool_decide_pack.
    + rewrite Hi, Hn. simpl. by rewrite decide_True.
Qed.

Lemma locked_insert_or_ignore d e rows b i :
  locked d b i →
  Exists (λ r, conc_BASE r = b ∧ conc_ID r = i) (insert_or_ignore e (conciliados d) rows).
Proof.
  intros Hl. destruct (insert_or_ignore_app e rows (conciliados d)) as (k & -> & _).
  apply Exists_app. by left.
Qed.

(** What is still pending after [_bulk_insert_pairs] was pending before,
    and is not an id of the inserted pairs: those rows carry the FRAG mark. *)
Lemma pending_after_bulk_insert d P stc :
  physical_ids_positive d →
  (∀ x k, (x, k) ∈ pending_fis_keys (Matcher._bulk_insert_pairs d P stc).1 →
          (x, k) ∈ pending_fis_keys d ∧ x ∉ Matcher.p_ID_FISICO <$> P)
  ∧ (∀ y k, (y, k) ∈ pending_parent_keys (Matcher._bulk_insert_pairs d P stc).1 →
            (y, k) ∈ pending_parent_keys d ∧ y ∉ Matcher.p_ID_CONTABIL <$> P).
Proof.
  intros Hpos. destruct P as [|p0 P0].
  { simpl. split; intros ? ? Hin; (split; [done|]); intros Hx; by apply elem_of_nil in Hx. }
  set (P := p0 :: P0). split.
  - intros x k Hin. apply elem_of_pending_fis_keys in Hin as (f1 & Hf1 & Hi & Hn & Hl & Ho).
    simpl in Hf1. apply list_elem_of_fmap in Hf1 as (f & -> & Hf).
    unfold Matcher.mark_fis in *.
    destruct (Matcher.id_among (fis_ID f) _) eqn:Hmark; [by destruct Ho|].
    split.
    + apply elem_of_pending_fis_keys. exists f. split_and!; try done.
      intros Hlk. apply Hl. by apply locked_insert_or_ignore.
    + intros Hx. rewrite Hi in Hmark. simpl in Hmark.
      apply bool_decide_eq_false in Hmark. apply Hmark.
      apply list_elem_of_filter. split; [by eapply Hpos|done].
  - intros y k Hin.
    apply elem_of_pending_parent_keys in Hin as (t1 & Ht1 & Hi & Hn & Hinc & Hl & Ho).
    simpl in Ht1. apply list_elem_of_fmap in Ht1 as (t & -> & Ht).
    unfold Matcher.mark_ctb in *.
    destruct (Matcher.id_among (ctb_ID t) _) eqn:Hmark; [by destruct Ho|].
    split.
    + apply elem_of_pending_parent_keys. exists t. split_and!; try done.
      intros Hlk. apply Hl. by apply locked_insert_or_ignore.
    + intros Hy. rewrite Hi in Hmark. simpl in Hmark.
      by apply bool_decide_eq_false in Hmark.
Qed.

(** C5, amended: on every store in which every physical record id is
    positive, running the group-key rule and then running it again on the
    resulting store creates no pair on the second run: the second run reports
    0 and leaves the store as the first run left it. Each group key has one
    of its two sides paired off entirely by the first run, and the ids of
    the first run are out of the pending sets of the second. *)
Theorem C5_second_run_creates_nothing d :
  physical_ids_positive d →
  Matcher.conciliados
    (Matcher.run_regra_nrbrm_pai (Matcher.run_regra_nrbrm_pai d).1).2 = 0
  ∧ (Matcher.run_regra_nrbrm_pai (Matcher.run_regra_nrbrm_pai d).1).1
    = (Matcher.run_regra_nrbrm_pai d).1.
Proof.
  intros Hpos. rewrite (run_regra_nrbrm_pai_fold d). simpl.
  set (stc := "NRBEM_FIS=NRBEM_CTB"%string).
  set (d1 := (Matcher._bulk_insert_pairs d (nrbrm_pairs d) stc).1).
  assert (Hnil : nrbrm_pairs d1 = []).
  { destruct (pending_after_bulk_insert d (nrbrm_pairs d) stc Hpos) as [Hf Hc].
    fold d1 in Hf, Hc. unfold nrbrm_pairs at 1.
    rewrite pair_1to1_nil; [done|].
    intros x y k Hx Hy.
    destruct (Hf x k Hx) as [Hx0 Hxn]. destruct (Hc y k Hy) as [Hy0 Hyn].
    destruct (pair_1to1_exhausts (pending_fis_keys d) (pending_parent_keys d) k)
      as [Hall|Hall].
    - destruct (Hall x Hx0) as [y' Hin]. apply Hxn.
      unfold nrbrm_pairs. rewrite <- list_fmap_compose.
      apply list_elem_of_fmap. by exists (x, y', k).
    - destruct (Hall y Hy0) as [x' Hin]. apply Hyn.
      unfold nrbrm_pairs. rewrite <- list_fmap_compose.
      apply list_elem_of_fmap. by exists (x', y, k). }
  rewrite (run_regra_nrbrm_pai_fold d1). rewrite Hnil. done.
Qed.

Lemma C5_second_run_creates_nothing_witness :
  Matcher.conciliados (Matcher.run_regra_nrbrm_pai (scenario SQLite)).2 = 2
  ∧ Matcher.conciliados
      (Matcher.run_regra_nrbrm_pai (Matcher.run_regra_nrbrm_pai (scenario SQLite)).1).2 = 0
  ∧ (Matcher.run_regra_nrbrm_pai (Matcher.run_regra_nrbrm_pai (scenario SQLite)).1).1
    = (Matcher.run_regra_nrbrm_pai (scenario SQLite)).1.
Proof.
  split; [vm_compute; reflexivity|].
  apply (C5_second_run_creates_nothing (scenario SQLite)).
  intros f i Hf Hi.
  apply elem_of_cons in Hf as [->|Hf]; [by injection Hi as <-|].
  apply list_elem_of_singleton in Hf. subst f. by injection Hi as <-.
Defined.

(** ** The similarity rule: inverted index, tally and choice *)

Section similarity_facts.
Variable set_iter : gset string → list string.
Hypothesis set_iter_perm : ∀ s, set_iter s ≡ₚ elements s.






End similarity_facts.

(** *** The tally [counts] *)

Lemma first_seen_snoc l x :
  first_seen (l ++ [x])
  = if decide (x ∈ first_seen l) then first_seen l else first_seen l ++ [x].
Proof. unfold first_seen. by rewrite foldl_app. Qed.


Lemma NoDup_first_seen l : NoDup (first_seen l).
Proof.
  induction l as [|y l IH] using rev_ind; [apply NoDup_nil_2|].
  rewrite first_seen_snoc. destruct (decide (y ∈ first_seen l)) as [Hy|Hy]; [done|].
  apply NoDup_app. split_and!; [done| |apply NoDup_singleton].
  intros x Hx ->%list_elem_of_singleton. done.
Qed.



(** *** The choice of [best] *)



(** *** Scores are shared-signature counts *)




Section similarity_scores.
Variable set_iter : gset string → list string.
Hypothesis set_iter_perm : ∀ s, set_iter s ≡ₚ elements s.




End similarity_scores.

(** *** One physical record, then all of them *)


Section similarity_greedy.
Variable set_iter : gset string → list string.
Hypothesis set_iter_perm : ∀ s, set_iter s ≡ₚ elements s.
Variable df_c : list (Z * string).
Hypothesis ids_distinct : NoDup df_c.*1.

Let inv := Similarity.build_inv set_iter df_c.






End similarity_greedy.



(** *** The candidate frames of the similarity rule *)







(** ** The signatures of a description *)

Lemma token_attr_signature tok a :
  Similarity.token_attr tok = Some a ↔ signature_of tok a.
Proof.
  unfold Similarity.token_attr. split.
  - destruct (decide (tok ∈ Similarity._STOP_LABELS)) as [?|Hstop]; [done|].
    destruct (Similarity.isdigit tok) eqn:Hdig.
    + destruct (decide (2 ≤ String.length tok)%nat); [|done].
      intros [= <-]. by constructor.
    + destruct (decide (3 ≤ String.length tok)%nat); [|done].
      intros [= <-]. by constructor.
  - intros [Hstop Hdig Hlen|Hstop Hdig Hlen]; rewrite Hdig.
    + by rewrite decide_False, decide_True by done.
    + by rewrite decide_False, decide_True by done.
Qed.

Lemma elem_of_attr_fold (toks : list string) (acc : gset string) a :
  a ∈ foldl (λ out tok, match Similarity.token_attr tok with
                        | Some a => {[a]} ∪ out
                        | None => out
                        end) acc toks
  ↔ a ∈ acc ∨ ∃ tok, tok ∈ toks ∧ Similarity.token_attr tok = Some a.
Proof.
  revert acc. induction toks as [|tok toks IH]; intros acc; simpl.
  - split; [by left|]. intros [?|(tok & Htok & _)]; [done|].
    by apply elem_of_nil in Htok.
  - rewrite IH. split.
    + intros [Hacc|(tok' & Htok' & Hattr)].
      * destruct (Similarity.token_attr tok) as [b|] eqn:Hb; [|by left].
        apply elem_of_union in Hacc as [Hb'|?]; [|by left].
        apply elem_of_singleton in Hb' as ->. right. exists tok. split; [left|done].
      * right. exists tok'. split; [by right|done].
    + intros [Hacc|(tok' & Htok' & Hattr)].
      * left. destruct (Similarity.token_attr tok); set_solver.
      * apply elem_of_cons in Htok' as [->|Htok'].
        -- left. rewrite Hattr. set_solver.
        -- right. eauto.
Qed.

(** The signatures of a description are the signatures of its tokens. *)
Lemma elem_of_desc_attr_set desc a :
  a ∈ Similarity._desc_attr_set desc
  ↔ ∃ tok, tok ∈ tokens_of desc ∧ signature_of tok a.
Proof.
  unfold Similarity._desc_attr_set.
  destruct (decide (desc = ""%string)) as [->|Hne].
  - split; [set_solver|]. intros (tok & Htok & _).
    vm_compute in Htok. by apply elem_of_nil in Htok.
  - rewrite elem_of_attr_fold. fold (tokens_of desc). split.
    + intros [?|(tok & Htok & Hattr)]; [set_solver|].
      exists tok. split; [done|]. by apply token_attr_signature.
    + intros (tok & Htok & Hsig). right. exists tok. split; [done|].
      by apply token_attr_signature.
Qed.

(** ** The candidates of the similarity rule *)

Section similarity_candidates.
Variable set_iter : gset string → list string.
Hypothesis set_iter_perm : ∀ s, set_iter s ≡ₚ elements s.
Variable df_c : list (Z * string).
Hypothesis ids_distinct : NoDup df_c.*1.

Let inv := Similarity.build_inv set_iter df_c.




End similarity_candidates.









(** ** The containment rules *)

Lemma chars_append (a b : string) :
  chars (String.append a b) = chars a ++ chars b.
Proof. induction a as [|c a IH]; [done|]. unfold chars in *. simpl. by rewrite IH. Qed.

Lemma length_chars (s : string) : length (chars s) = String.length s.
Proof. induction s as [|c s IH]; [done|]. unfold chars in *. simpl. by rewrite IH. Qed.

(** [%] at the head of a pattern: the rest matches some tail of the text. *)
Lemma like_percent p s :
  Contain.like ("%"%char :: p) s = true
  ↔ ∃ pre s', s = pre ++ s' ∧ Contain.like p s' = true.
Proof.
  induction s as [|a s IH].
  - change (Contain.like ("%"%char :: p) []) with (Contain.like p [] || false).
    rewrite orb_false_r. split.
    + intros H. by exists [], [].
    + intros (pre & s' & Heq & H). symmetry in Heq.
      apply app_eq_nil in Heq as [_ ->]. done.
  - change (Contain.like ("%"%char :: p) (a :: s))
      with (Contain.like p (a :: s) || Contain.like ("%"%char :: p) s).
    rewrite orb_true_iff, IH. split.
    + intros [H|(pre & s' & -> & H)].
      * by exists [], (a :: s).
      * by exists (a :: pre), s'.
    + intros (pre & s' & Heq & H). destruct pre as [|b pre]; simpl in Heq.
      * left. by rewrite Heq.
      * injection Heq as -> ->. right. eauto.
Qed.

(** A character that is no wildcard matches one character, the case of the
    ASCII letters aside. *)
Lemma like_literal c p s :
  code c ≠ 37%N → code c ≠ 95%N →
  Contain.like (c :: p) s = true
  ↔ ∃ x t, s = x :: t ∧ Contain.fold_az c = Contain.fold_az x
           ∧ Contain.like p t = true.
Proof.
  intros H37 H95. apply N.eqb_neq in H37, H95.
  cbn [Contain.like]. rewrite H37. destruct s as [|x t].
  - split; [done|]. by intros (? & ? & ? & _).
  - rewrite H95. simpl. rewrite andb_true_iff, N.eqb_eq. split.
    + intros [? ?]. by exists x, t.
    + intros (x' & t' & [= <- <-] & ? & ?). done.
Qed.

Lemma like_prefix x s :
  Forall (λ c, code c ≠ 37%N ∧ code c ≠ 95%N) x →
  Contain.like (x ++ ["%"%char]) s = true
  ↔ ∃ m post, s = m ++ post ∧ Contain.fold_az <$> m = Contain.fold_az <$> x.
Proof.
  intros Hx. revert s. induction Hx as [|c x [H37 H95] Hx IH]; intros s.
  - simpl app. rewrite like_percent. split.
    + intros _. by exists [], s.
    + intros _. exists s, []. by rewrite app_nil_r.
  - simpl app. rewrite like_literal by done. split.
    + intros (a & t & -> & Hfold & Hlike).
      apply IH in Hlike as (m & post & -> & Hm).
      exists (a :: m), post. split; [done|]. by rewrite !fmap_cons, Hm, Hfold.
    + intros (m & post & -> & Hm). destruct m as [|a m]; [done|].
      rewrite !fmap_cons in Hm. injection Hm as Ha Hm.
      exists a, (m ++ post). split_and!; [done..|]. apply IH. eauto.
Qed.

(** [y LIKE '%' || x || '%'] for a text [x] without wildcards: [x] occurs
    in [y], the case of the ASCII letters aside. *)
Lemma like_contains (x y : string) :
  no_wildcard x →
  Contain.like (chars (String.append "%" (String.append x "%"))) (chars y) = true
  ↔ occurs_in (folded x) (folded y).
Proof.
  intros Hx. rewrite !chars_append.
  change (chars "%") with ["%"%char]. simpl app.
  rewrite like_percent. unfold occurs_in, folded. split.
  - intros (pre & s' & Hy & Hlike).
    apply like_prefix in Hlike as (m & post & -> & Hm); [|done].
    exists (Contain.fold_az <$> pre), (Contain.fold_az <$> post).
    unfold Text.chars in *. rewrite Hy, !fmap_app. by rewrite Hm.
  - intros (pre' & post' & Hy).
    apply fmap_app_inv in Hy as (pre & rest & -> & Hrest & Hy).
    symmetry in Hrest. apply fmap_app_inv in Hrest as (m & post & Hm & -> & ->).
    exists pre, (m ++ post). split; [done|]. apply like_prefix; [done|]. eauto.
Qed.

Lemma contained_spec (x : string) (oy : option string) :
  no_wildcard x →
  Contain.contained (Some x) oy = true
  ↔ (4 ≤ String.length x)%nat
    ∧ ∃ y, oy = Some y ∧ occurs_in (folded x) (folded y).
Proof.
  intros Hx. unfold Contain.contained. destruct oy as [y|].
  - rewrite andb_true_iff, bool_decide_eq_true, like_contains by done. split.
    + intros [? ?]. eauto.
    + intros [? (y' & [= <-] & ?)]. done.
  - split; [done|]. by intros [_ (y & ? & _)].
Qed.

Lemma join_cond_term rid f t :
  rid ∈ ["1"; "4"; "5"]%string →
  Contain.join_cond rid f t = Contain.contained (term_of rid f) (ctb_DESC_NORM t).
Proof.
  intros Hrid. unfold Contain.join_cond, term_of.
  repeat (apply elem_of_cons in Hrid as [->|Hrid]); [done..|].
  by apply elem_of_nil in Hrid.
Qed.

Lemma elem_of_base_sql rid d f t :
  (f, t) ∈ Contain.base_sql rid d
  ↔ f ∈ fisico d ∧ t ∈ contabil d ∧ Contain.join_cond rid f t = true
    ∧ pending_id d FIS (fis_ID f) ∧ pending_id d CTB (ctb_ID t)
    ∧ coalesce (ctb_INC t) = 0.
Proof.
  unfold Contain.base_sql. rewrite list_elem_of_bind. split.
  - intros (f' & Hin & Hf). apply list_elem_of_bind in Hin as (t' & Hin & Ht).
    destruct (Contain.join_cond rid f' t') eqn:Hj; [|by apply elem_of_nil in Hin].
    destruct (pending_id d FIS (fis_ID f')) eqn:Hpf; [|by apply elem_of_nil in Hin].
    destruct (pending_id d CTB (ctb_ID t')) eqn:Hpc; [|by apply elem_of_nil in Hin].
    simpl in Hin. case_bool_decide as Hinc; [|by apply elem_of_nil in Hin].
    apply list_elem_of_singleton in Hin as [= -> ->].
    rewrite Hpf, Hpc. done.
  - intros (Hf & Ht & Hj & Hpf & Hpc & Hinc). exists f. split; [|done].
    apply list_elem_of_bind. exists t. split; [|done].
    rewrite Hj. destruct (pending_id d FIS (fis_ID f)); [|done].
    destruct (pending_id d CTB (ctb_ID t)); [|done].
    simpl. rewrite bool_decide_eq_true_2 by done. by apply list_elem_of_singleton.
Qed.

(** C8, as claimed: a serial of length 4 or more that occurs in the
    accounting description gives a candidate pair. The serial ABC1234 occurs
    in the description of the accounting record, which is an increment
    (INC = 1): the rule gives no candidate. *)
Lemma C8_increment_is_no_candidate :
  term_of "1" (phys_serial 1 "ABC1234") = Some "ABC1234"%string
  ∧ (4 ≤ String.length "ABC1234")%nat
  ∧ occurs_in (folded "ABC1234") (folded "ITEM ABC1234 LOCAL X")
  ∧ Contain.base_sql "1" increment_store = []
  ∧ Contain.cand "1" increment_store 500 = [].
Proof.
  split_and!; [done|simpl; lia| |vm_compute; reflexivity..].
  exists (folded "ITEM "), (folded " LOCAL X"). vm_compute. reflexivity.
Qed.

(** C8 (load_candidates_auto02 and load_pairs_auto02, rules 1, 4 and 5, on
    SQLite): for a physical record whose normalized serial (model, tag) holds
    neither a percent sign nor an underscore, the join of the rule yields the
    pair with an accounting record exactly when both records are in the store
    and pending, the accounting record is a parent (INC = 0), the serial has
    length 4 or more and occurs in the normalized accounting description, the
    case of the ASCII letters aside; and a record whose serial has length 3 or
    less is in no pair of the join. *)
Theorem C8_containment d rid f t x :
  engine d = SQLite →
  rid ∈ ["1"; "4"; "5"]%string →
  term_of rid f = Some x →
  no_wildcard x →
  ((f, t) ∈ Contain.base_sql rid d
   ↔ f ∈ fisico d ∧ t ∈ contabil d
     ∧ pending_id d FIS (fis_ID f) ∧ pending_id d CTB (ctb_ID t)
     ∧ coalesce (ctb_INC t) = 0
     ∧ (4 ≤ String.length x)%nat
     ∧ ∃ y, ctb_DESC_NORM t = Some y ∧ occurs_in (folded x) (folded y))
  ∧ ((String.length x ≤ 3)%nat → ∀ t', (f, t') ∉ Contain.base_sql rid d).
Proof.
  intros _ Hrid Hterm Hx.
  assert (Hjoin : ∀ t', Contain.join_cond rid f t' = true
                        ↔ (4 ≤ String.length x)%nat
                          ∧ ∃ y, ctb_DESC_NORM t' = Some y
                                 ∧ occurs_in (folded x) (folded y)).
  { intros t'. rewrite join_cond_term, Hterm by done. by apply contained_spec. }
  split.
  - rewrite elem_of_base_sql, Hjoin. tauto.
  - intros Hshort t' Hin. apply elem_of_base_sql in Hin as (_ & _ & Hj & _).
    apply Hjoin in Hj as [Hlen _]. lia.
Qed.

Lemma C8_containment_witness :
  Contain.cand "1" serials_store 500 = [(1, 10)]
  ∧ (phys_serial 1 "ABC1234", acct_norm 10 0 "ITEM ABC1234 LOCAL X")
      ∈ Contain.base_sql "1" serials_store
  ∧ ∀ t', (phys_serial 2 "ABC", t') ∉ Contain.base_sql "1" serials_store.
Proof.
  split; [vm_compute; reflexivity|]. split.
  - apply (C8_containment serials_store "1" (phys_serial 1 "ABC1234")
             (acct_norm 10 0 "ITEM ABC1234 LOCAL X") "ABC1234").
    + reflexivity.
    + apply (bool_decide_eq_true_1 _). vm_compute. reflexivity.
    + reflexivity.
    + apply (bool_decide_eq_true_1 _). vm_compute. reflexivity.
    + split_and!.
      * apply (bool_decide_eq_true_1 _). vm_compute. reflexivity.
      * apply (bool_decide_eq_true_1 _). vm_compute. reflexivity.
      * vm_compute. exact I.
      * vm_compute. exact I.
      * reflexivity.
      * simpl. lia.
      * exists "ITEM ABC1234 LOCAL X"%string. split; [reflexivity|].
        exists (folded "ITEM "), (folded " LOCAL X"). vm_compute. reflexivity.
  - apply (C8_containment serials_store "1" (phys_serial 2 "ABC")
             (acct_norm 10 0 "ITEM ABC1234 LOCAL X") "ABC").
    + reflexivity.
    + apply (bool_decide_eq_true_1 _). vm_compute. reflexivity.
    + reflexivity.
    + apply (bool_decide_eq_true_1 _). vm_compute. reflexivity.
    + simpl. lia.
Defined.

(** The underscore of a serial is read by LIKE as "any one character":
    the serial A_C1 does not occur in the description, and the rule pairs the
    two records all the same. *)
Lemma underscore_in_serial_matches_any_character :
  ¬ occurs_in (folded "A_C1") (folded "ITEM ABC1 X")
  ∧ Contain.cand "1" underscore_store 500 = [(1, 10)].
Proof.
  split; [|vm_compute; reflexivity].
  intros (pre & post & H). vm_compute in H.
  repeat (destruct pre as [|? pre]; simpl in H;
          [discriminate H|first [injection H as <- H|discriminate H]]).
Qed.

(** * Further properties of the code *)

(** ** Placeholders ([_qmark_to_pyformat]) *)

Lemma chars_text (l : list ascii) : chars (text l) = l.
Proof. apply list_ascii_of_string_of_list_ascii. Qed.

Lemma text_chars (s : string) : text (chars s) = s.
Proof. apply string_of_list_ascii_of_string. Qed.

Lemma text_app (a b : list ascii) : text (a ++ b) = String.append (text a) (text b).
Proof. induction a as [|c a IH]; [done|]. unfold text in *. simpl. by rewrite IH. Qed.

Lemma qmark_go_idem a b (sql : list ascii) :
  SqlCompat.qmark_go a b (SqlCompat.qmark_go a b sql) = SqlCompat.qmark_go a b sql.
Proof.
  revert a b. induction sql as [|ch t IH]; intros a b; [done|].
  cbn [SqlCompat.qmark_go].
  destruct ((code ch =? 39)%N && negb b) eqn:H1.
  { cbn [SqlCompat.qmark_go]. rewrite H1. by rewrite IH. }
  destruct ((code ch =? 34)%N && negb a) eqn:H2.
  { cbn [SqlCompat.qmark_go]. rewrite H1, H2. by rewrite IH. }
  destruct ((code ch =? 63)%N && negb a && negb b) eqn:H3.
  { cbn. by rewrite IH. }
  cbn [SqlCompat.qmark_go]. rewrite H1, H2, H3. by rewrite IH.
Qed.

(** Rewriting a statement that is already in the [%s] style changes
    nothing: the rewriting can be applied twice. *)
Theorem qmark_to_pyformat_idempotent (sql : string) :
  SqlCompat._qmark_to_pyformat (SqlCompat._qmark_to_pyformat sql)
  = SqlCompat._qmark_to_pyformat sql.
Proof.
  unfold SqlCompat._qmark_to_pyformat. by rewrite chars_text, qmark_go_idem.
Qed.

Lemma qmark_go_unquoted (sql : list ascii) :
  Forall (λ c, code c ≠ 39%N ∧ code c ≠ 34%N) sql →
  SqlCompat.qmark_go false false sql
  = sql ≫= (λ c, if (code c =? 63)%N then ["%"%char; "s"%char] else [c]).
Proof.
  induction 1 as [|ch t [H39 H34] Ht IH]; [done|].
  cbn [SqlCompat.qmark_go]. apply N.eqb_neq in H39, H34. rewrite H39, H34.
  rewrite bind_cons. cbn [andb negb]. rewrite !andb_true_r.
  destruct (code ch =? 63)%N; by rewrite IH.
Qed.

(** In a statement without quotes every question mark becomes [%s]: no
    question mark is left, and the text grows by one character for each. *)
Theorem qmark_to_pyformat_unquoted (sql : string) :
  Forall (λ c, code c ≠ 39%N ∧ code c ≠ 34%N) (chars sql) →
  Forall (λ c, code c ≠ 63%N) (chars (SqlCompat._qmark_to_pyformat sql))
  ∧ String.length (SqlCompat._qmark_to_pyformat sql)
    = (String.length sql
       + length (filter (λ c, code c = 63%N) (chars sql)))%nat.
Proof.
  intros Hq. unfold SqlCompat._qmark_to_pyformat.
  rewrite <- !length_chars, chars_text, qmark_go_unquoted by done.
  clear Hq. induction (chars sql) as [|ch t [IH1 IH2]]; [by split|].
  rewrite bind_cons, filter_cons. destruct (code ch =? 63)%N eqn:H63.
  - apply N.eqb_eq in H63. rewrite decide_True by done. split.
    + repeat (apply Forall_cons; split; [by vm_compute|]). done.
    + simpl. rewrite IH2. lia.
  - apply N.eqb_neq in H63. rewrite decide_False by done. split.
    + by apply Forall_cons.
    + simpl. by rewrite IH2.
Qed.

Lemma qmark_to_pyformat_unquoted_witness :
  Forall (λ c, code c ≠ 63%N)
    (chars (SqlCompat._qmark_to_pyformat "SELECT 1 FROM depara WHERE PAR_ID=? AND NRBRM=?"))
  ∧ String.length
      (SqlCompat._qmark_to_pyformat "SELECT 1 FROM depara WHERE PAR_ID=? AND NRBRM=?")
    = (String.length "SELECT 1 FROM depara WHERE PAR_ID=? AND NRBRM=?"
       + length (filter (λ c, code c = 63%N)
                   (chars "SELECT 1 FROM depara WHERE PAR_ID=? AND NRBRM=?")))%nat.
Proof.
  apply (qmark_to_pyformat_unquoted "SELECT 1 FROM depara WHERE PAR_ID=? AND NRBRM=?").
  apply (bool_decide_eq_true_1 _). vm_compute. reflexivity.
Defined.

Lemma qmark_go_in_single (body rest : list ascii) q :
  code q = 39%N →
  Forall (λ c, code c ≠ 39%N) body →
  SqlCompat.qmark_go true false (body ++ q :: rest)
  = body ++ q :: SqlCompat.qmark_go false false rest.
Proof.
  intros Hq. induction 1 as [|ch t H39 Ht IH].
  - simpl. by rewrite Hq.
  - simpl. apply N.eqb_neq in H39. rewrite H39. simpl.
    rewrite !andb_false_r. simpl. by rewrite IH.
Qed.

(** A literal between single quotes is kept as it is, its question marks
    and double quotes included; the rewriting goes on after it. *)
Theorem qmark_to_pyformat_keeps_literal (body rest : string) :
  Forall (λ c, code c ≠ 39%N) (chars body) →
  SqlCompat._qmark_to_pyformat
    (String.append "'" (String.append body (String.append "'" rest)))
  = String.append "'" (String.append body
      (String.append "'" (SqlCompat._qmark_to_pyformat rest))).
Proof.
  intros Hb. unfold SqlCompat._qmark_to_pyformat.
  rewrite !chars_append. change (chars "'") with ["'"%char]. simpl app.
  change (SqlCompat.qmark_go false false ("'"%char :: ?l))
    with ("'"%char :: SqlCompat.qmark_go true false l).
  rewrite (qmark_go_in_single (chars body) (chars rest) "'"%char) by done.
  change ("'"%char :: chars body ++ "'"%char :: ?l)
    with (["'"%char] ++ chars body ++ ["'"%char] ++ l).
  by rewrite !text_app, text_chars.
Qed.

Lemma qmark_to_pyformat_keeps_literal_witness :
  SqlCompat._qmark_to_pyformat
    (String.append "'" (String.append "a?b" (String.append "'" " = ?")))
  = String.append "'" (String.append "a?b"
      (String.append "'" (SqlCompat._qmark_to_pyformat " = ?"))).
Proof.
  apply (qmark_to_pyformat_keeps_literal "a?b" " = ?").
  apply (bool_decide_eq_true_1 _). vm_compute. reflexivity.
Defined.

(** ** Chunks ([_chunked], [_bulk_insert]) *)

Lemma range_step_count (m n : nat) :
  (0 < m)%nat → (0 < n)%nat →
  ((m + n - 1) / n = S ((m - n + n - 1) / n))%nat.
Proof.
  intros Hm Hn. destruct (decide (n ≤ m)%nat) as [Hle|Hgt].
  - replace (m - n + n - 1)%nat with (m - 1)%nat by lia.
    replace (m + n - 1)%nat with (m - 1 + 1 * n)%nat by lia.
    rewrite Nat.div_add by lia. lia.
  - replace (m - n + n - 1)%nat with (n - 1)%nat by lia.
    rewrite (Nat.div_small (n - 1) n) by lia.
    symmetry. apply (Nat.div_unique _ _ _ (m - 1)); lia.
Qed.

Lemma chunks_nil {A} (n : nat) :
  (0 < n)%nat →
  (λ i, take n (drop i ([] : list A))) <$> Importer.range_step 0 n = [].
Proof.
  intros Hn. unfold Importer.range_step.
  replace ((0 + n - 1) / n)%nat with 0%nat; [done|].
  symmetry. apply Nat.div_small. lia.
Qed.

Lemma chunks_cons {A} (l : list A) (n : nat) :
  l ≠ [] → (0 < n)%nat →
  (λ i, take n (drop i l)) <$> Importer.range_step (length l) n
  = take n l :: ((λ i, take n (drop i (drop n l)))
                   <$> Importer.range_step (length (drop n l)) n).
Proof.
  intros Hl Hn. unfold Importer.range_step.
  assert (0 < length l)%nat by (destruct l; [done|simpl; lia]).
  rewrite range_step_count by done. rewrite length_drop.
  cbn [seq fmap list_fmap]. f_equal.
  rewrite <- seq_shift, <- !list_fmap_compose.
  apply list_fmap_ext. intros _ k _. simpl. rewrite drop_drop. done.
Qed.

(** The chunks, as a recursion on the list: what is left after a chunk is
    cut off is chunked in the same way. *)
Lemma chunked_spec {A} (k : nat) (l : list A) (n : nat) :
  (length l ≤ k)%nat → (0 < n)%nat →
  let chunks := (λ i, take n (drop i l)) <$> Importer.range_step (length l) n in
  concat chunks = l
  ∧ Forall (λ c, c ≠ [] ∧ (length c ≤ n)%nat) chunks
  ∧ ∀ i c, chunks !! i = Some c → (S i < length chunks)%nat → length c = n.
Proof.
  revert l. induction k as [|k IH]; intros l Hk Hn.
  - destruct l; [|simpl in Hk; lia]. cbv zeta. rewrite chunks_nil by done.
    split_and!; [done|constructor|]. intros i c Hc. by rewrite lookup_nil in Hc.
  - destruct (decide (l = [])) as [->|Hl].
    { cbv zeta. rewrite chunks_nil by done.
      split_and!; [done|constructor|]. intros i c Hc. by rewrite lookup_nil in Hc. }
    cbv zeta. rewrite chunks_cons by done.
    destruct (IH (drop n l)) as (Hcat & Hall & Hfull); [rewrite length_drop; lia|done|].
    cbv zeta in Hcat, Hall, Hfull. split_and!.
    + simpl. rewrite Hcat. apply take_drop.
    + apply Forall_cons. split; [|done]. split.
      * destruct l; [done|]. destruct n; [lia|done].
      * rewrite length_take. lia.
    + intros i c Hc Hi. destruct i as [|i].
      * injection Hc as <-. rewrite length_take. simpl in Hi.
        assert (drop n l ≠ []) as Hrest.
        { intros Hd. rewrite Hd in Hi. rewrite chunks_nil in Hi by done.
          simpl in Hi. lia. }
        destruct (decide (n ≤ length l)%nat); [lia|].
        destruct Hrest. apply drop_ge. lia.
      * simpl in Hc, Hi. apply (Hfull i c Hc). lia.
Qed.

(** For a positive size the chunks are the list cut into consecutive
    pieces: put together again they give the list, none is empty, none is
    longer than [size], and all but the last have [size] elements. *)
Theorem chunked_partitions {A} (iterable : list A) (size : Z) :
  0 < size →
  ∃ chunks, Importer._chunked iterable size = Some chunks
    ∧ concat chunks = iterable
    ∧ Forall (λ c, c ≠ [] ∧ Z.of_nat (length c) ≤ size) chunks
    ∧ ∀ i c, chunks !! i = Some c → (S i < length chunks)%nat →
             Z.of_nat (length c) = size.
Proof.
  intros Hs. unfold Importer._chunked.
  rewrite decide_False, decide_False by lia. eexists. split; [done|].
  destruct (chunked_spec (length iterable) iterable (Z.to_nat size))
    as (Hcat & Hall & Hfull); [done|lia|].
  cbv zeta in Hcat, Hall, Hfull. split_and!; [done| |].
  - eapply Forall_impl; [exact Hall|]. intros c [? ?]. split; [done|lia].
  - intros i c Hc Hi. rewrite (Hfull i c Hc Hi). lia.
Qed.

Lemma chunked_partitions_witness :
  ∃ chunks, Importer._chunked [1; 2; 3; 4; 5; 6; 7] 3 = Some chunks
    ∧ concat chunks = [1; 2; 3; 4; 5; 6; 7]
    ∧ Forall (λ c, c ≠ [] ∧ Z.of_nat (length c) ≤ 3) chunks
    ∧ ∀ i c, chunks !! i = Some c → (S i < length chunks)%nat →
             Z.of_nat (length c) = 3.
Proof. apply (chunked_partitions [1; 2; 3; 4; 5; 6; 7] 3). lia. Defined.

Lemma insert_chunks {A} (chunks : list (list A)) (table : list A) (done : Z) :
  foldl (λ acc chunk, (acc.1 ++ chunk, acc.2 + Z.of_nat (length chunk)))
        (table, done) chunks
  = (table ++ concat chunks, done + Z.of_nat (length (concat chunks))).
Proof.
  revert table done. induction chunks as [|c chunks IH]; intros table done; simpl.
  - f_equal; [by rewrite app_nil_r|lia].
  - rewrite IH. simpl. rewrite length_app, <- app_assoc. f_equal. lia.
Qed.

(** With a positive chunk size the insertion loop sends every record
    once, in the order of the frame, and returns their number. *)
Theorem bulk_insert_complete {A} (table records : list A) (chunk_size : Z) :
  0 < chunk_size →
  Importer._bulk_insert table records chunk_size
  = Some (table ++ records, Z.of_nat (length records)).
Proof.
  intros Hs. unfold Importer._bulk_insert, Importer._chunked.
  rewrite decide_False, decide_False by lia. simpl.
  destruct (chunked_spec (length records) records (Z.to_nat chunk_size))
    as (Hcat & _); [done|lia|].
  cbv zeta in Hcat. rewrite insert_chunks, Hcat. done.
Qed.

Lemma bulk_insert_complete_witness :
  Importer._bulk_insert [10; 20] [1; 2; 3; 4; 5] 2
  = Some ([10; 20] ++ [1; 2; 3; 4; 5], Z.of_nat (length [1; 2; 3; 4; 5])).
Proof. apply (bulk_insert_complete [10; 20] [1; 2; 3; 4; 5] 2). lia. Defined.

(** ** The allocation of the containment rules ([load_pairs_auto02]) *)

Lemma first_unused_Some used ctb_ids c :
  Contain.first_unused used ctb_ids = Some c → c ∈ ctb_ids ∧ c ∉ used.
Proof.
  unfold Contain.first_unused. intros Hh.
  assert (Hin : c ∈ filter (λ c, c ∉ used) ctb_ids).
  { destruct (filter _ ctb_ids) as [|x l]; [done|].
    injection Hh as ->. left. }
  by apply list_elem_of_filter in Hin as [? ?].
Qed.

Lemma alloc_groups_spec limit used pairs gs :
  NoDup gs.*1 →
  (∀ p, p ∈ pairs → p.2 ∈ used) →
  NoDup pairs.*1 → NoDup pairs.*2 →
  (∀ g, g ∈ gs → g.1 ∉ pairs.*1) →
  let r := Contain.alloc_groups limit used pairs gs in
  NoDup r.*1 ∧ NoDup r.*2
  ∧ ∀ p, p ∈ r → p ∈ pairs ∨ ∃ g, g ∈ gs ∧ g.1 = p.1 ∧ p.2 ∈ g.2.
Proof.
  revert used pairs. induction gs as [|g gs IH]; intros used pairs Hk Hu H1 H2 Hfresh.
  { simpl. split_and!; [done..|]. intros p ?. by left. }
  simpl in Hk. apply NoDup_cons in Hk as [Hg Hk].
  cbn [Contain.alloc_groups]. cbv zeta.
  set (step := match Contain.first_unused used g.2 with
               | Some ctb_id => ({[ctb_id]} ∪ used, pairs ++ [(g.1, ctb_id)])
               | None => (used, pairs)
               end).
  assert (Hstep : (∀ p, p ∈ step.2 → p.2 ∈ step.1)
                  ∧ NoDup step.2.*1 ∧ NoDup step.2.*2
                  ∧ (∀ g', g' ∈ gs → g'.1 ∉ step.2.*1)
                  ∧ ∀ p, p ∈ step.2 → p ∈ pairs ∨ (g.1 = p.1 ∧ p.2 ∈ g.2)).
  { subst step. destruct (Contain.first_unused used g.2) as [c|] eqn:Hc; simpl.
    - apply first_unused_Some in Hc as [Hc Hnew]. split_and!.
      + intros p [Hp|Hp%list_elem_of_singleton]%elem_of_app.
        * apply Hu in Hp. set_solver.
        * subst p. set_solver.
      + rewrite fmap_app. apply NoDup_app. split_and!; [done| |apply NoDup_singleton].
        intros x Hx ->%list_elem_of_singleton. apply (Hfresh g); [left|done].
      + rewrite fmap_app. apply NoDup_app. split_and!; [done| |apply NoDup_singleton].
        intros x Hx ->%list_elem_of_singleton. simpl in Hx.
        apply list_elem_of_fmap in Hx as (p & Heq & Hp). apply Hu in Hp.
        by rewrite <- Heq in Hp.
      + intros g' Hg'. rewrite fmap_app. intros [Hin|Hin%list_elem_of_singleton]%elem_of_app.
        * apply (Hfresh g'); [by right|done].
        * apply Hg. simpl in Hin. rewrite <- Hin. by apply list_elem_of_fmap_2.
      + intros p [Hp|Hp%list_elem_of_singleton]%elem_of_app; [by left|].
        subst p. by right.
    - split_and!; [done..| |by left].
      intros g' Hg'. apply Hfresh. by right. }
  destruct Hstep as (S1 & S2 & S3 & S4 & S5).
  destruct (decide (limit ≤ Z.of_nat (length step.2))).
  - split_and!; [done..|]. intros p Hp. destruct (S5 p Hp) as [?|[? ?]]; [by left|].
    right. exists g. split_and!; [left|done..].
  - destruct (IH step.1 step.2 Hk S1 S2 S3 S4) as (R1 & R2 & R3).
    split_and!; [done..|]. intros p Hp. destruct (R3 p Hp) as [Hp'|(g' & Hg' & ? & ?)].
    + destruct (S5 p Hp') as [?|[? ?]]; [by left|].
      right. exists g. split_and!; [left|done..].
    + right. exists g'. split_and!; [by right|done..].
Qed.

Lemma NoDup_group_keys (c : list (Z * Z)) : NoDup (Contain.groups c).*1.
Proof.
  unfold Contain.groups. rewrite <- list_fmap_compose.
  change (NoDup (id <$> merge_sort Z.le (remove_dups c.*1))).
  rewrite list_fmap_id, merge_sort_Permutation. apply NoDup_remove_dups.
Qed.

Lemma elem_of_group_pair (c : list (Z * Z)) g y :
  g ∈ Contain.groups c → y ∈ g.2 → (g.1, y) ∈ c.
Proof.
  unfold Contain.groups. intros (k & -> & _)%list_elem_of_fmap. simpl.
  intros (p & -> & Hp)%list_elem_of_fmap.
  apply list_elem_of_filter in Hp as [<- Hp]. by destruct p.
Qed.

Lemma elem_of_cand rule_id d cap p :
  p ∈ Contain.cand rule_id d cap →
  ∃ r, r ∈ Contain.base_sql (text (strip (chars rule_id))) d
       ∧ p = (coalesce (fis_ID r.1), coalesce (ctb_ID r.2)).
Proof.
  unfold Contain.cand. cbv zeta. case_decide; [|by intros ?%elem_of_nil].
  intros Hp. eapply elem_of_sublist in Hp; [|apply sublist_take].
  rewrite merge_sort_Permutation in Hp.
  apply list_elem_of_fmap in Hp as (r & -> & Hr). eauto.
Qed.

(** The pairs returned for a rule from 1 to 5 use no physical id and no
    accounting id twice, and each of them joins a pending physical record
    and a pending accounting parent of the store that satisfy the condition
    of the rule. *)
Theorem load_pairs_join_one_to_one rule_id d limit_pairs candidate_cap :
  let pairs := Contain.load_pairs_join rule_id d limit_pairs candidate_cap in
  NoDup pairs.*1 ∧ NoDup pairs.*2
  ∧ ∀ p, p ∈ pairs →
      ∃ f t, f ∈ fisico d ∧ t ∈ contabil d
             ∧ fis_ID f = Some p.1 ∧ ctb_ID t = Some p.2
             ∧ Contain.join_cond (text (strip (chars rule_id))) f t = true
             ∧ pending_id d FIS (fis_ID f) ∧ pending_id d CTB (ctb_ID t)
             ∧ coalesce (ctb_INC t) = 0.
Proof.
  intros pairs. subst pairs. unfold Contain.load_pairs_join.
  destruct (Contain.cand rule_id d candidate_cap) as [|c0 c] eqn:Hcand.
  { split_and!; [constructor..|]. by intros p ?%elem_of_nil. }
  rewrite <- Hcand.
  destruct (alloc_groups_spec limit_pairs ∅ []
              (Contain.groups (Contain.cand rule_id d candidate_cap)))
    as (R1 & R2 & R3);
    [apply NoDup_group_keys|by intros p ?%elem_of_nil|constructor..
    |by intros g _ ?%elem_of_nil|].
  split_and!; [done..|]. intros p Hp.
  destruct (R3 p Hp) as [?%elem_of_nil|(g & Hg & Hk & Hy)]; [done|].
  pose proof (elem_of_group_pair _ g p.2 Hg Hy) as Hin.
  rewrite Hk in Hin. replace (p.1, p.2) with p in Hin by (by destruct p).
  apply elem_of_cand in Hin as ([f t] & Hr & ->).
  apply elem_of_base_sql in Hr as (Hf & Ht & Hj & Hpf & Hpc & Hinc).
  exists f, t. simpl in *. split_and!; try done.
  - unfold pending_id in Hpf. by destruct (fis_ID f).
  - unfold pending_id in Hpc. by destruct (ctb_ID t).
Qed.




(** ** The pairing by rank ([_pair_1to1_by_value]) *)

Section pairing_one_to_one.
Context {K : Type} `{EqDecision K}.
Implicit Types df : list (Z * K).

Lemma indexed_id_inj df (a b : nat * (Z * K)) :
  NoDup df.*1 → a ∈ Matcher.indexed df → b ∈ Matcher.indexed df →
  a.2.1 = b.2.1 → a = b.
Proof.
  intros Hnd Ha Hb Heq. apply (indexed_inj df); [done..|].
  apply elem_of_indexed in Ha, Hb.
  apply (NoDup_lookup df.*1 _ _ a.2.1 Hnd).
  - by rewrite list_lookup_fmap, Ha.
  - by rewrite list_lookup_fmap, Hb, Heq.
Qed.

Lemma with_rk_id_inj df (l1 l2 : (Z * K) * Z) :
  NoDup df.*1 → l1 ∈ Matcher.with_rk df → l2 ∈ Matcher.with_rk df →
  l1.1.1 = l2.1.1 → l1 = l2.
Proof.
  intros Hnd (a & Ha & ->)%elem_of_with_rk (b & Hb & ->)%elem_of_with_rk Heq.
  simpl in Heq. by rewrite (indexed_id_inj df a b).
Qed.

Lemma NoDup_with_rk df : NoDup df.*1 → NoDup (Matcher.with_rk df).
Proof.
  intros Hnd. unfold Matcher.with_rk. apply NoDup_fmap_2_strong; [|apply NoDup_indexed].
  intros a b Ha Hb [= Heq _]. apply (indexed_id_inj df); [done..|]. by rewrite Heq.
Qed.

Lemma NoDup_pair_1to1 (df_f df_c : list (Z * K)) :
  NoDup df_f.*1 → NoDup df_c.*1 → NoDup (Matcher._pair_1to1_by_value df_f df_c).
Proof.
  intros Hf Hc. unfold Matcher._pair_1to1_by_value.
  apply NoDup_bind; [| |by apply NoDup_with_rk].
  - intros l1 l2 m Hl1 Hl2 H1 H2.
    apply list_elem_of_bind in H1 as (r1 & ->%list_elem_of_singleton & _).
    apply list_elem_of_bind in H2 as (r2 & [= Hx _ _]%list_elem_of_singleton & _).
    by apply (with_rk_id_inj df_f).
  - intros l Hl. apply NoDup_bind; [| |by apply NoDup_filter, NoDup_with_rk].
    + intros r1 r2 m Hr1 Hr2 ->%list_elem_of_singleton [= Hy]%list_elem_of_singleton.
      apply list_elem_of_filter in Hr1 as [_ Hr1], Hr2 as [_ Hr2].
      by apply (with_rk_id_inj df_c).
    + intros r _. apply NoDup_singleton.
Qed.

(** With distinct ids in each frame, no physical id and no accounting id
    occurs in two pairs, and the two records of a pair carry the key of the
    pair. *)
Theorem pair_1to1_one_to_one (df_f df_c : list (Z * K)) :
  NoDup df_f.*1 → NoDup df_c.*1 →
  let pairs := Matcher._pair_1to1_by_value df_f df_c in
  NoDup ((λ m, m.1.1) <$> pairs) ∧ NoDup ((λ m, m.1.2) <$> pairs)
  ∧ ∀ m, m ∈ pairs → (m.1.1, m.2) ∈ df_f ∧ (m.1.2, m.2) ∈ df_c.
Proof.
  intros Hf Hc pairs.
  assert (Hrow : ∀ m, m ∈ pairs →
    ∃ a c, a ∈ group_rows m.2 df_f ∧ c ∈ group_rows m.2 df_c
           ∧ a.2.1 = m.1.1 ∧ c.2.1 = m.1.2
           ∧ Matcher.rank_in (Matcher.indexed df_f) a
             = Matcher.rank_in (Matcher.indexed df_c) c).
  { intros [[x y] k] Hm. by apply elem_of_pair_1to1 in Hm. }
  split_and!.
  - apply NoDup_fmap_2_strong; [|by apply NoDup_pair_1to1].
    intros m m' Hm Hm' Heq.
    destruct (Hrow m Hm) as (a & c & Ha & Hc' & Hax & Hcy & Hrk).
    destruct (Hrow m' Hm') as (a' & c' & Ha' & Hc'' & Hax' & Hcy' & Hrk').
    apply elem_of_group in Ha as [Ha Hak], Ha' as [Ha' Hak'].
    assert (a = a') as <-.
    { apply (indexed_id_inj df_f); [done..|]. by rewrite Hax, Hax'. }
    assert (m.2 = m'.2) as Hk by (by rewrite <- Hak, <- Hak').
    rewrite <- Hk in Hc''.
    assert (c = c') as <-.
    { apply (rank_inj m.2 df_c); [done..|]. by rewrite <- Hrk, <- Hrk'. }
    destruct m as [[x y] k], m' as [[x' y'] k']; simpl in *. congruence.
  - apply NoDup_fmap_2_strong; [|by apply NoDup_pair_1to1].
    intros m m' Hm Hm' Heq.
    destruct (Hrow m Hm) as (a & c & Ha & Hc' & Hax & Hcy & Hrk).
    destruct (Hrow m' Hm') as (a' & c' & Ha' & Hc'' & Hax' & Hcy' & Hrk').
    apply elem_of_group in Hc' as [Hc' Hck], Hc'' as [Hc'' Hck'].
    assert (c = c') as <-.
    { apply (indexed_id_inj df_c); [done..|]. by rewrite Hcy, Hcy'. }
    assert (m.2 = m'.2) as Hk by (by rewrite <- Hck, <- Hck').
    rewrite <- Hk in Ha'.
    assert (a = a') as <-.
    { apply (rank_inj m.2 df_f); [done..|]. by rewrite Hrk, Hrk'. }
    destruct m as [[x y] k], m' as [[x' y'] k']; simpl in *. congruence.
  - intros m Hm. destruct (Hrow m Hm) as (a & c & Ha & Hc' & Hax & Hcy & Hrk).
    split; apply elem_of_frame_group.
    + exists a. split; [done|]. apply elem_of_group in Ha as [_ Hk].
      destruct a as [i [x k]]; simpl in *. by subst.
    + exists c. split; [done|]. apply elem_of_group in Hc' as [_ Hk].
      destruct c as [i [x k]]; simpl in *. by subst.
Qed.

(** The pairing leaves no pair unmade inside a group: for every key, all
    the rows of the left frame with that key are paired, or all the rows of
    the right frame with that key are. *)
Theorem pair_1to1_exhausts_a_side (df_f df_c : list (Z * K)) (k : K) :
  (∀ x, (x, k) ∈ df_f → ∃ y, (x, y, k) ∈ Matcher._pair_1to1_by_value df_f df_c)
  ∨ (∀ y, (y, k) ∈ df_c → ∃ x, (x, y, k) ∈ Matcher._pair_1to1_by_value df_f df_c).
Proof. apply pair_1to1_exhausts. Qed.

End pairing_one_to_one.

Lemma pair_1to1_one_to_one_witness :
  let pairs := Matcher._pair_1to1_by_value
                 [(1, 100); (2, 100); (3, 200)] [(10, 100); (11, 200); (12, 200)] in
  NoDup ((λ m, m.1.1) <$> pairs) ∧ NoDup ((λ m, m.1.2) <$> pairs)
  ∧ ∀ m, m ∈ pairs →
      (m.1.1, m.2) ∈ [(1, 100); (2, 100); (3, 200)]
      ∧ (m.1.2, m.2) ∈ [(10, 100); (11, 200); (12, 200)].
Proof.
  apply (pair_1to1_one_to_one [(1, 100); (2, 100); (3, 200)]
           [(10, 100); (11, 200); (12, 200)]).
  - apply (bool_decide_eq_true_1 _). vm_compute. reflexivity.
  - apply (bool_decide_eq_true_1 _). vm_compute. reflexivity.
Defined.

(** ** What a commit writes ([save_pairs], [save_pairs_with_family]) *)

Lemma numbered_begin d :
  numbered (coalesce (sql_max (PAR_ID <$> depara d)) + 1) (begin_save d).
Proof. unfold numbered. simpl. split_and!; [lia|done..]. Qed.

Lemma numbered_append n0 s stc fis_id ctb_id nrbrm inc always :
  numbered n0 s → numbered n0 (append_pair s stc fis_id ctb_id nrbrm inc always).
Proof.
  intros (Hn & Hs & Hids). unfold numbered. simpl.
  rewrite length_app, fmap_app, Hids. simpl. split_and!; [lia..|].
  rewrite Nat.add_1_r, seqZ_S. by rewrite Hn.
Qed.

Lemma numbered_save_pairs_row d stc n0 s p :
  numbered n0 s → numbered n0 (save_pairs_row d stc s p).
Proof.
  intros Hs. unfold save_pairs_row. cbv zeta.
  repeat case_decide; try done;
    repeat match goal with
           | |- context [contabil_by_id ?d ?i] => destruct (contabil_by_id d i); simpl
           | |- context [fisico_by_id ?d ?i] => destruct (fisico_by_id d i); simpl
           end; try done; by apply numbered_append.
Qed.

Lemma numbered_written d n0 s :
  numbered n0 s →
  depara (write_rows d s) = depara d ++ written d (write_rows d s)
  ∧ saved s = Z.of_nat (length (written d (write_rows d s)))
  ∧ PAR_ID <$> written d (write_rows d s)
    = seqZ n0 (Z.of_nat (length (written d (write_rows d s))))
  ∧ fisico (write_rows d s) = fisico d
  ∧ contabil (write_rows d s) = contabil d.
Proof. intros (Hn & Hs & Hids). by rewrite written_write_rows. Qed.

(** [save_pairs] only appends to the ledger: the rows it writes are
    numbered from MAX(PAR_ID) + 1 on without a gap, the number it returns is
    the number of these rows, and the two registers are left as they are. *)
Theorem save_pairs_numbers_rows d pairs stc :
  let r := save_pairs d pairs stc in
  let rows := written d r.1 in
  depara r.1 = depara d ++ rows
  ∧ r.2 = Z.of_nat (length rows)
  ∧ PAR_ID <$> rows
    = seqZ (coalesce (sql_max (PAR_ID <$> depara d)) + 1) (Z.of_nat (length rows))
  ∧ fisico r.1 = fisico d ∧ contabil r.1 = contabil d.
Proof.
  rewrite save_pairs_fold. cbn [fst snd]. apply numbered_written.
  generalize (numbered_begin d). generalize (begin_save d).
  induction pairs as [|p pairs IH]; intros s Hs; [done|].
  simpl. apply IH. by apply numbered_save_pairs_row.
Qed.

Lemma numbered_family_main_row d stc child n0 acc p :
  numbered n0 acc.1 → numbered n0 (family_main_row d stc child acc p).1.
Proof.
  intros Hs. unfold family_main_row. cbv zeta.
  repeat case_decide; try done;
    repeat match goal with
           | |- context [contabil_by_id ?d ?i] => destruct (contabil_by_id d i); simpl
           | |- context [fisico_by_id ?d ?i] => destruct (fisico_by_id d i); simpl
           end; try done; by apply numbered_append.
Qed.

Lemma numbered_family_rows d stc child n0 pairs acc :
  numbered n0 acc.1 →
  numbered n0 (foldl (family_main_row d stc child) acc pairs).1.
Proof.
  revert acc. induction pairs as [|p pairs IH]; intros acc Hs; [done|].
  simpl. apply IH. by apply numbered_family_main_row.
Qed.

Lemma numbered_propagate_row d stc child nr an n0 s fr s' :
  numbered n0 s →
  propagate_row d stc child nr an (Some s) fr = Some s' → numbered n0 s'.
Proof.
  intros Hinv. unfold propagate_row. simpl.
  destruct fr.1 as [c|]; simpl; [|done].
  case_decide; intros [= <-]; [done|]. by apply numbered_append.
Qed.

Lemma numbered_propagate_family d stc child n0 s nv s' :
  numbered n0 s →
  propagate_family d stc child (Some s) nv = Some s' → numbered n0 s'.
Proof.
  intros Hinv. unfold propagate_family. simpl. case_decide; [by intros [= <-]|].
  apply (foldl_option_inv _ (numbered n0)); [done| |done].
  intros a b a' Ha. by apply numbered_propagate_row.
Qed.

(** [save_pairs_with_family], when it returns, has only appended to the
    ledger: the rows of the pairs and of their families are numbered from
    MAX(PAR_ID) + 1 on without a gap, and the number returned counts them
    all. *)
Theorem save_pairs_with_family_numbers_rows d pairs stc d' n :
  save_pairs_with_family d pairs stc = Some (d', n) →
  let rows := written d d' in
  depara d' = depara d ++ rows
  ∧ n = Z.of_nat (length rows)
  ∧ PAR_ID <$> rows
    = seqZ (coalesce (sql_max (PAR_ID <$> depara d)) + 1) (Z.of_nat (length rows))
  ∧ fisico d' = fisico d ∧ contabil d' = contabil d.
Proof.
  intros (s & Hfold & -> & ->)%save_pairs_with_family_state.
  apply numbered_written.
  assert (Hmain : numbered (coalesce (sql_max (PAR_ID <$> depara d)) + 1)
                           (family_main d stc pairs).1).
  { unfold family_main. apply numbered_family_rows, numbered_begin. }
  revert Hfold. apply foldl_option_inv; [done| |done].
  intros a b a' Ha. by apply numbered_propagate_family.
Qed.

Lemma save_pairs_with_family_numbers_rows_witness :
  match save_pairs_with_family (one_family SQLite) [(1, 10)] "MANUAL" with
  | Some (d', n) =>
    n = 2
    ∧ depara d' = depara (one_family SQLite) ++ written (one_family SQLite) d'
    ∧ n = Z.of_nat (length (written (one_family SQLite) d'))
    ∧ PAR_ID <$> written (one_family SQLite) d'
      = seqZ (coalesce (sql_max (PAR_ID <$> depara (one_family SQLite))) + 1)
             (Z.of_nat (length (written (one_family SQLite) d')))
    ∧ fisico d' = fisico (one_family SQLite)
    ∧ contabil d' = contabil (one_family SQLite)
  | None => False
  end.
Proof.
  destruct (save_pairs_with_family (one_family SQLite) [(1, 10)] "MANUAL")
    as [[d' n]|] eqn:Hsave; [|vm_compute in Hsave; discriminate Hsave].
  split; [vm_compute in Hsave; by injection Hsave as _ <-|].
  by apply (save_pairs_with_family_numbers_rows (one_family SQLite) [(1, 10)] "MANUAL").
Defined.

Lemma save_pairs_row_unusable d stc s p :
  unusable d p → save_pairs_row d stc s p = s.
Proof.
  intros Hu. unfold save_pairs_row. cbv zeta.
  destruct Hu as [[? ?]|[[? Hc]|(? & ? & Hf)]].
  - by rewrite decide_True.
  - repeat case_decide; try done; try lia. by rewrite Hc.
  - repeat case_decide; try done; try lia. by rewrite Hf.
Qed.

Lemma family_main_row_unusable d stc child acc p :
  unusable d p → family_main_row d stc child acc p = acc.
Proof.
  intros Hu. unfold family_main_row. cbv zeta.
  destruct Hu as [[? ?]|[[? Hc]|(? & ? & Hf)]].
  - by rewrite decide_True.
  - repeat case_decide; try done; try lia. by rewrite Hc.
  - repeat case_decide; try done; try lia. by rewrite Hf.
Qed.

(** A pair without any side, a pair whose accounting id is not in the
    register, and a one-sided pair whose physical id is not in the register
    are passed over: the batch gives the same store and the same count as the
    batch without the pair, for [save_pairs] and for
    [save_pairs_with_family]. *)
Theorem unusable_pair_skipped d before after p stc :
  unusable d p →
  save_pairs d (before ++ p :: after) stc = save_pairs d (before ++ after) stc
  ∧ save_pairs_with_family d (before ++ p :: after) stc
    = save_pairs_with_family d (before ++ after) stc.
Proof.
  intros Hu. split.
  - rewrite !save_pairs_fold, !foldl_app. simpl.
    by rewrite save_pairs_row_unusable.
  - rewrite !save_pairs_with_family_fold. unfold family_main.
    rewrite !foldl_app. simpl. by rewrite family_main_row_unusable.
Qed.

Lemma unusable_pair_skipped_witness :
  unusable (one_family SQLite) (1, 99)
  ∧ save_pairs (one_family SQLite) [(1, 99); (1, 10)] "MANUAL"
    = save_pairs (one_family SQLite) [(1, 10)] "MANUAL"
  ∧ save_pairs_with_family (one_family SQLite) [(1, 99); (1, 10)] "MANUAL"
    = save_pairs_with_family (one_family SQLite) [(1, 10)] "MANUAL".
Proof.
  assert (Hu : unusable (one_family SQLite) (1, 99)).
  { right. left. split; [reflexivity|]. vm_compute. reflexivity. }
  split; [exact Hu|].
  exact (unusable_pair_skipped (one_family SQLite) [] [(1, 10)] (1, 99) "MANUAL" Hu).
Defined.

(** ** What an undo removes ([undo_pairs]) *)

Lemma filter_split_length {A} (P : A → Prop) `{∀ x, Decision (P x)} (l : list A) :
  (length (filter P l) + length (filter (λ x, ¬ P x) l) = length l)%nat.
Proof.
  induction l as [|x l IH]; [done|]. rewrite !filter_cons.
  destruct (decide (P x)).
  - rewrite decide_False by tauto. simpl. lia.
  - rewrite decide_True by done. simpl. lia.
Qed.

Lemma sql_delete_count {A} (P : A → Prop) `{∀ x, Decision (P x)} (tbl : list A) :
  (sql_delete P tbl).2
  = Z.of_nat (length tbl) - Z.of_nat (length (sql_delete P tbl).1).
Proof.
  unfold sql_delete, count_where. simpl.
  pose proof (filter_split_length P tbl). lia.
Qed.

Lemma locked_sublist d d' b i :
  conciliados d' `sublist_of` conciliados d → locked d' b i → locked d b i.
Proof.
  unfold locked. rewrite !Exists_exists. intros Hsub (r & Hr & Hp).
  exists r. split; [|done]. by eapply elem_of_sublist.
Qed.

Lemma pending_count_le {A} (g : A → option Z) (h : A → A) b d d' (l : list A) :
  (∀ x, g (h x) = g x) →
  (∀ i, locked d' b i → locked d b i) →
  (length (filter (λ x, pending_id d b (g x)) l)
   ≤ length (filter (λ x, pending_id d' b (g x)) (h <$> l)))%nat.
Proof.
  intros Hg Hl. induction l as [|x l IH]; [done|].
  rewrite fmap_cons, !filter_cons, Hg.
  destruct (decide (pending_id d b (g x))) as [Hp|Hp].
  - rewrite decide_True; [simpl; lia|].
    unfold pending_id in *. destruct (g x) as [i|]; [|done].
    apply bool_decide_unpack in Hp. apply bool_decide_pack. intros ?. apply Hp. by apply Hl.
  - destruct (decide (pending_id d' b (g x))); simpl; lia.
Qed.

Lemma undo_apply_only_removes d u :
  let r := undo_apply d u in
  depara r.1 `sublist_of` depara d
  ∧ conciliados r.1 `sublist_of` conciliados d
  ∧ fis_ID <$> fisico r.1 = fis_ID <$> fisico d
  ∧ ctb_ID <$> contabil r.1 = ctb_ID <$> contabil d
  ∧ removed_depara r.2
    = Z.of_nat (length (depara d)) - Z.of_nat (length (depara r.1))
  ∧ removed_conc r.2
    = Z.of_nat (length (conciliados d)) - Z.of_nat (length (conciliados r.1)).
Proof.
  unfold undo_apply. cbv zeta. cbn [fst snd depara conciliados fisico contabil
                                    removed_depara removed_conc].
  split_and!.
  - apply sublist_filter.
  - unfold sql_delete. simpl.
    etrans; [apply sublist_filter|]. etrans; [apply sublist_filter|]. apply sublist_filter.
  - apply clear_fis_frag_ids.
  - apply clear_ctb_frag_ids.
  - apply sql_delete_count.
  - rewrite !sql_delete_count. lia.
Qed.

(** An undo only takes away: what is left of the ledger and of the lock
    table are rows that were there, in their order; no record leaves or joins
    a register; the two counts returned are the numbers of rows taken from the
    ledger and from the lock table; and no pending count goes down. *)
Theorem undo_only_removes d pairs :
  let r := undo_pairs d pairs in
  depara r.1 `sublist_of` depara d
  ∧ conciliados r.1 `sublist_of` conciliados d
  ∧ fis_ID <$> fisico r.1 = fis_ID <$> fisico d
  ∧ ctb_ID <$> contabil r.1 = ctb_ID <$> contabil d
  ∧ removed_depara r.2
    = Z.of_nat (length (depara d)) - Z.of_nat (length (depara r.1))
  ∧ removed_conc r.2
    = Z.of_nat (length (conciliados d)) - Z.of_nat (length (conciliados r.1))
  ∧ fis (get_counts d) ≤ fis (get_counts r.1)
  ∧ ctb (get_counts d) ≤ ctb (get_counts r.1).
Proof.
  unfold undo_pairs. destruct (norm_pairs ∅ pairs) as [|k ks].
  { cbv zeta. simpl. split_and!; try done; lia. }
  set (u := undo_impacted d _).
  destruct (undo_apply_only_removes d u) as (H1 & H2 & H3 & H4 & H5 & H6).
  cbv zeta in *. split_and!; try done.
  - unfold get_counts. simpl. apply inj_le.
    apply (pending_count_le fis_ID (clear_fis_frag (fis_ids u)) FIS d).
    + intros f. unfold clear_fis_frag. by destruct (id_in _ _).
    + intros i. by apply locked_sublist.
  - unfold get_counts. simpl. apply inj_le.
    apply (pending_count_le ctb_ID (clear_ctb_frag (ctb_ids u)) CTB d).
    + intros f. unfold clear_ctb_frag. by destruct (id_in _ _).
    + intros i. by apply locked_sublist.
Qed.

(** *** Undoing twice *)

Lemma head_filter_fmap_id {A} (g : A → option Z) (h : A → A) (i : Z) (l : list A) :
  (∀ x, g (h x) = g x) →
  head (filter (λ r, g r = Some i) (h <$> l))
  = h <$> head (filter (λ r, g r = Some i) l).
Proof.
  intros Hg. induction l as [|x l IH]; [done|].
  rewrite fmap_cons, !filter_cons, Hg. by destruct (decide (g x = Some i)).
Qed.

Lemma rows_gone (Q : depara_row → Prop) `{∀ r, Decision (Q r)}
    (P : gset Z) (tbl : list depara_row) :
  (∀ x, x ∈ PAR_ID <$> filter Q tbl → x ∈ P) →
  PAR_ID <$> filter Q (filter (λ r, ¬ PAR_ID r ∈ P) tbl) = [].
Proof.
  intros HP. rewrite filter_none; [done|].
  intros r Hr HQ. apply list_elem_of_filter in Hr as [Hnot Hr].
  apply Hnot, HP. apply list_elem_of_fmap_2. by apply list_elem_of_filter.
Qed.

(** Once the rows selected for a key are deleted, the key selects
    nothing. *)
Lemma undo_key_rows_gone d d1 ids (P : gset Z) key :
  depara d1 = filter (λ r, ¬ PAR_ID r ∈ P) (depara d) →
  contabil d1 = clear_ctb_frag ids <$> contabil d →
  (∀ x, x ∈ undo_key_rows d key → x ∈ P) →
  undo_key_rows d1 key = [].
Proof.
  intros Hdep Hctb HP.
  assert (Hby : contabil_by_id d1 key.2
                = clear_ctb_frag ids <$> contabil_by_id d key.2).
  { unfold contabil_by_id. rewrite Hctb. apply head_filter_fmap_id.
    intros t. unfold clear_ctb_frag. by destruct (id_in _ _). }
  assert (Hsame : ∀ t, ctb_NRBRM (clear_ctb_frag ids t) = ctb_NRBRM t
                       ∧ ctb_INC (clear_ctb_frag ids t) = ctb_INC t).
  { intros t. unfold clear_ctb_frag. by destruct (id_in _ _). }
  unfold undo_key_rows in *. cbv zeta in *. rewrite Hby, Hdep.
  destruct (decide (0 < key.1 ∧ 0 < key.2)) as [?|?].
  - destruct (contabil_by_id d key.2) as [fam|]; simpl.
    + destruct (Hsame fam) as [-> ->].
      destruct (decide (0 < coalesce (ctb_NRBRM fam) ∧ coalesce (ctb_INC fam) = 0)).
      * rewrite !rows_gone; [done|intros x Hx; apply HP; set_solver..].
      * by rewrite rows_gone.
    + by rewrite rows_gone.
  - destruct (decide (0 < key.1 ∧ key.2 ≤ 0)) as [?|?].
    + by rewrite rows_gone.
    + destruct (contabil_by_id d key.2) as [fam|]; simpl.
      * destruct (Hsame fam) as [-> ->].
        destruct (decide (0 < coalesce (ctb_NRBRM fam) ∧ coalesce (ctb_INC fam) = 0)).
        -- rewrite !rows_gone; [done|intros x Hx; apply HP; set_solver..].
        -- by rewrite rows_gone.
      * by rewrite rows_gone.
Qed.

Lemma undo_keys_par_ids d keys u key x :
  key ∈ keys → x ∈ undo_key_rows d key → x ∈ par_ids (foldl (undo_key d) u keys).
Proof.
  revert u. induction keys as [|k keys IH]; intros u Hk Hx; [by apply elem_of_nil in Hk|].
  simpl. apply elem_of_cons in Hk as [->|Hk]; [|by apply IH].
  assert (Hmono : ∀ ks v, x ∈ par_ids v → x ∈ par_ids (foldl (undo_key d) v ks)).
  { clear. induction ks as [|k ks IH]; intros v Hv; [done|].
    simpl. apply IH. simpl. set_solver. }
  apply Hmono. simpl. set_solver.
Qed.

Lemma undo_keys_no_rows d keys u :
  (∀ key, key ∈ keys → undo_key_rows d key = []) →
  par_ids (foldl (undo_key d) u keys) = par_ids u.
Proof.
  revert u. induction keys as [|k keys IH]; intros u Hk; [done|].
  simpl. rewrite IH by (intros; apply Hk; by right).
  simpl. rewrite (Hk k) by left. set_solver.
Qed.

Lemma undo_keys_ids d d' keys u u' :
  fis_ids u = fis_ids u' → ctb_ids u = ctb_ids u' →
  fis_ids (foldl (undo_key d) u keys) = fis_ids (foldl (undo_key d') u' keys)
  ∧ ctb_ids (foldl (undo_key d) u keys) = ctb_ids (foldl (undo_key d') u' keys).
Proof.
  revert u u'. induction keys as [|k keys IH]; intros u u' Hf Hc; [done|].
  simpl. apply IH; simpl; [by rewrite Hf|by rewrite Hc].
Qed.

Lemma clear_fis_frag_twice (s' s : gset Z) f :
  s' ⊆ s → clear_fis_frag s' (clear_fis_frag s f) = clear_fis_frag s f.
Proof.
  intros Hsub. unfold clear_fis_frag.
  destruct (id_in (fis_ID f) s) eqn:Hin; simpl;
    destruct (id_in (fis_ID f) s') eqn:Hin'; try done.
  unfold id_in in *. destruct (fis_ID f); [|done].
  apply bool_decide_eq_true in Hin'. apply bool_decide_eq_false in Hin. set_solver.
Qed.

Lemma clear_ctb_frag_twice (s' s : gset Z) t :
  s' ⊆ s → clear_ctb_frag s' (clear_ctb_frag s t) = clear_ctb_frag s t.
Proof.
  intros Hsub. unfold clear_ctb_frag.
  destruct (id_in (ctb_ID t) s) eqn:Hin; simpl;
    destruct (id_in (ctb_ID t) s') eqn:Hin'; try done.
  unfold id_in in *. destruct (ctb_ID t); [|done].
  apply bool_decide_eq_true in Hin'. apply bool_decide_eq_false in Hin. set_solver.
Qed.

(** Applying the deletions again, with no pair id selected and id sets
    that were already served, changes nothing and removes nothing. *)
Lemma undo_apply_again d u u' :
  par_ids u' = ∅ → fis_ids u' ⊆ fis_ids u → ctb_ids u' ⊆ ctb_ids u →
  (undo_apply (undo_apply d u).1 u').1 = (undo_apply d u).1
  ∧ removed_depara (undo_apply (undo_apply d u).1 u').2 = 0
  ∧ removed_conc (undo_apply (undo_apply d u).1 u').2 = 0.
Proof.
  intros Hp Hf Hc.
  set (d1 := (undo_apply d u).1).
  assert (Hdep : filter (λ r, ¬ PAR_ID r ∈ par_ids u') (depara d1) = depara d1).
  { apply filter_all. intros r _. rewrite Hp. set_solver. }
  assert (Hc1 : filter (λ r, ¬ conc_PAR_ID r ∈ par_ids u') (conciliados d1)
                = conciliados d1).
  { apply filter_all. intros r _. rewrite Hp. set_solver. }
  assert (Hrows : ∀ r, r ∈ conciliados d1 →
            ¬ (conc_BASE r = FIS ∧ conc_ID r ∈ fis_ids u)
            ∧ ¬ (conc_BASE r = CTB ∧ conc_ID r ∈ ctb_ids u)).
  { intros r Hr. subst d1. unfold undo_apply, sql_delete in Hr. simpl in Hr.
    apply list_elem_of_filter in Hr as [H3 Hr].
    apply list_elem_of_filter in Hr as [H2 _]. done. }
  assert (Hc2 : filter (λ r, ¬ (conc_BASE r = FIS ∧ conc_ID r ∈ fis_ids u'))
                       (conciliados d1) = conciliados d1).
  { apply filter_all. intros r Hr [? ?]. destruct (Hrows r Hr) as [HA _].
    apply HA. split; [done|]. set_solver. }
  assert (Hc3 : filter (λ r, ¬ (conc_BASE r = CTB ∧ conc_ID r ∈ ctb_ids u'))
                       (conciliados d1) = conciliados d1).
  { apply filter_all. intros r Hr [? ?]. destruct (Hrows r Hr) as [_ HB].
    apply HB. split; [done|]. set_solver. }
  unfold undo_apply, sql_delete, count_where.
  cbn [fst snd removed_depara removed_conc].
  rewrite Hdep, Hc1, Hc2, Hc3.
  assert (Hz : ∀ {A} (P : A → Prop) `{∀ x, Decision (P x)} (l : list A),
            filter (λ x, ¬ P x) l = l → Z.of_nat (length (filter P l)) = 0).
  { intros A P ? l Hl. pose proof (filter_split_length P l) as Hs.
    rewrite Hl in Hs. lia. }
  rewrite !Hz by done. split_and!; [|done..].
  destruct d as [e fs cs dp cn]. subst d1. unfold undo_apply. simpl. f_equal.
  - rewrite <- list_fmap_compose. apply list_fmap_ext. intros i f _. simpl.
    by apply clear_fis_frag_twice.
  - rewrite <- list_fmap_compose. apply list_fmap_ext. intros i t _. simpl.
    by apply clear_ctb_frag_twice.
Qed.

(** Undoing the same pairs a second time changes nothing: the store is the
    one the first undo left, and no ledger row and no lock row is removed. *)
Theorem undo_pairs_idempotent d pairs :
  let r1 := undo_pairs d pairs in
  let r2 := undo_pairs r1.1 pairs in
  r2.1 = r1.1 ∧ removed_depara r2.2 = 0 ∧ removed_conc r2.2 = 0.
Proof.
  unfold undo_pairs. destruct (norm_pairs ∅ pairs) as [|k ks] eqn:Hkeys.
  { done. }
  cbv zeta. cbn [fst].
  set (keys := k :: ks).
  set (u0 := foldl (undo_key d) (UndoSets ∅ ∅ ∅) keys).
  set (u := undo_impacted d u0).
  set (d1 := (undo_apply d u).1).
  set (u0' := foldl (undo_key d1) (UndoSets ∅ ∅ ∅) keys).
  assert (Hgone : ∀ key, key ∈ keys → undo_key_rows d1 key = []).
  { intros key Hkey. apply (undo_key_rows_gone d d1 (ctb_ids u) (par_ids u)); [done..|].
    intros x Hx. by apply undo_keys_par_ids with key. }
  assert (Hp0 : par_ids u0' = ∅).
  { unfold u0'. by rewrite undo_keys_no_rows. }
  destruct (undo_keys_ids d1 d keys (UndoSets ∅ ∅ ∅) (UndoSets ∅ ∅ ∅)) as [Hf0 Hc0];
    [done..|]. fold u0 u0' in Hf0, Hc0.
  assert (Himp : filter (λ r, PAR_ID r ∈ par_ids u0') (depara d1) = []).
  { apply filter_none. intros r _. rewrite Hp0. set_solver. }
  apply (undo_apply_again d u (undo_impacted d1 u0')).
  - done.
  - change (fis_ids (undo_impacted d1 u0'))
      with (list_to_set (filter (λ i, 0 < i)
              (ID_FISICO <$> filter (λ r, PAR_ID r ∈ par_ids u0') (depara d1)))
            ∪ fis_ids u0').
    rewrite Himp, Hf0. subst u. unfold undo_impacted. simpl. set_solver.
  - change (ctb_ids (undo_impacted d1 u0'))
      with (list_to_set (filter (λ i, 0 < i)
              (ID_CONTABIL <$> filter (λ r, PAR_ID r ∈ par_ids u0') (depara d1)))
            ∪ ctb_ids u0').
    rewrite Himp, Hc0. subst u. unfold undo_impacted. simpl. set_solver.
Qed.

(** ** What the unattended engine writes ([_bulk_insert_pairs]) *)

Lemma insert_or_ignore_row_keeps e tbl r b i :
  Exists (λ x, conc_BASE x = b ∧ conc_ID x = i) tbl →
  Exists (λ x, conc_BASE x = b ∧ conc_ID x = i) (insert_or_ignore_row e tbl r).
Proof.
  intros Hex. unfold insert_or_ignore_row.
  destruct (lock_unique e); [case_decide|]; try done; apply Exists_app; by left.
Qed.

Lemma insert_or_ignore_keeps e rows tbl b i :
  Exists (λ x, conc_BASE x = b ∧ conc_ID x = i) tbl →
  Exists (λ x, conc_BASE x = b ∧ conc_ID x = i) (insert_or_ignore e tbl rows).
Proof.
  unfold insert_or_ignore. revert tbl.
  induction rows as [|r rows IH]; intros tbl Hex; [done|].
  simpl. apply IH. by apply insert_or_ignore_row_keeps.
Qed.

(** After [INSERT OR IGNORE], on either engine, the key of every row sent
    is in the table. *)
Lemma insert_or_ignore_locks e rows tbl r :
  r ∈ rows →
  Exists (λ x, conc_BASE x = conc_BASE r ∧ conc_ID x = conc_ID r)
         (insert_or_ignore e tbl rows).
Proof.
  unfold insert_or_ignore. revert tbl.
  induction rows as [|r0 rows IH]; intros tbl Hr; [by apply elem_of_nil in Hr|].
  simpl. apply elem_of_cons in Hr as [->|Hr]; [|by apply IH].
  apply (insert_or_ignore_keeps e rows). unfold insert_or_ignore_row.
  destruct (lock_unique e); [case_decide|]; try done;
    apply Exists_app; right; apply Exists_cons_hd; done.
Qed.

Lemma elem_of_bulk_conc start pairs p :
  p ∈ pairs →
  (∃ par, ConcRow CTB (Matcher.p_ID_CONTABIL p) par ∈ Matcher.bulk_conc start pairs)
  ∧ (0 < Matcher.p_ID_FISICO p →
     ∃ par, ConcRow FIS (Matcher.p_ID_FISICO p) par ∈ Matcher.bulk_conc start pairs).
Proof.
  intros Hp. apply list_elem_of_lookup in Hp as [i Hi].
  unfold Matcher.bulk_conc. split.
  - exists (start + Z.of_nat i). apply list_elem_of_join.
    eexists. split; [|apply elem_of_lookup_imap; eauto]. set_solver.
  - intros Hpos. exists (start + Z.of_nat i). apply list_elem_of_join.
    eexists. split; [|apply elem_of_lookup_imap; eauto].
    rewrite decide_True by done. set_solver.
Qed.

Lemma next_par_id_above d r : r ∈ depara d → PAR_ID r < Matcher._next_par_id d.
Proof.
  intros Hr. unfold Matcher._next_par_id. cbv zeta.
  assert (PAR_ID r ≤ coalesce (sql_max (PAR_ID <$> depara d))).
  { apply sql_max_ge. by apply list_elem_of_fmap_2. }
  case_decide; lia.
Qed.

Lemma bulk_insert_pairs_cons d pairs stc :
  pairs ≠ [] →
  Matcher._bulk_insert_pairs d pairs stc
  = ({| engine := engine d;
        fisico := Matcher.mark_fis (filter (λ i, 0 < i) (Matcher.p_ID_FISICO <$> pairs))
                    <$> fisico d;
        contabil := Matcher.mark_ctb (Matcher.p_ID_CONTABIL <$> pairs) <$> contabil d;
        depara := depara d ++ Matcher.bulk_depara (Matcher._next_par_id d) stc pairs;
        Store.conciliados :=
          insert_or_ignore (engine d) (Store.conciliados d)
            (Matcher.bulk_conc (Matcher._next_par_id d) pairs) |},
     Z.of_nat (length pairs)).
Proof. by destruct pairs. Qed.

(** On a SQLite store [_bulk_insert_pairs] appends one ledger row per pair,
    numbered above every pair id of the ledger, and returns their number;
    afterwards every accounting id of the batch and every positive physical
    id of the batch has a lock row, and no lock row is lost. *)
Theorem bulk_insert_pairs_locks d pairs stc :
  engine d = SQLite →
  let r := Matcher._bulk_insert_pairs d pairs stc in
  r.2 = Z.of_nat (length pairs)
  ∧ length (depara r.1) = (length (depara d) + length pairs)%nat
  ∧ (∀ old new, old ∈ depara d → new ∈ written d r.1 → PAR_ID old < PAR_ID new)
  ∧ (∀ p, p ∈ pairs →
          locked r.1 CTB (Matcher.p_ID_CONTABIL p)
          ∧ (0 < Matcher.p_ID_FISICO p → locked r.1 FIS (Matcher.p_ID_FISICO p)))
  ∧ (∀ b i, locked d b i → locked r.1 b i).
Proof.
  intros _. destruct pairs as [|p0 ps].
  { cbv zeta. simpl. rewrite Nat.add_0_r. split_and!; try done.
    - unfold written. simpl. rewrite drop_all. by intros ? ? _ ?%elem_of_nil.
    - by intros p ?%elem_of_nil. }
  rewrite bulk_insert_pairs_cons by done. generalize (p0 :: ps). clear p0 ps.
  intros pairs. cbv zeta. cbn [fst snd depara]. split_and!.
  - done.
  - rewrite length_app. unfold Matcher.bulk_depara. by rewrite length_imap.
  - intros old new Hold Hnew. unfold written in Hnew. simpl in Hnew.
    rewrite drop_app_length in Hnew. unfold Matcher.bulk_depara in Hnew.
    apply elem_of_lookup_imap in Hnew as (i & p & -> & _). simpl.
    pose proof (next_par_id_above d old Hold). lia.
  - intros p Hp. unfold locked. cbn [Store.conciliados].
    destruct (elem_of_bulk_conc (Matcher._next_par_id d) pairs p Hp) as [[par Hc] Hf].
    split.
    + apply (insert_or_ignore_locks (engine d) _ (Store.conciliados d)) in Hc. done.
    + intros Hpos. destruct (Hf Hpos) as [par' Hr].
      apply (insert_or_ignore_locks (engine d) _ (Store.conciliados d)) in Hr. done.
  - intros b i Hl. unfold locked. cbn [Store.conciliados].
    by apply insert_or_ignore_keeps.
Qed.

Lemma bulk_insert_pairs_locks_witness :
  let d := one_family SQLite in
  let pairs := [Matcher.PairRow 1 10 100 0; Matcher.PairRow 1 11 100 1] in
  let r := Matcher._bulk_insert_pairs d pairs "CA - INC" in
  r.2 = Z.of_nat (length pairs)
  ∧ length (depara r.1) = (length (depara d) + length pairs)%nat
  ∧ (∀ old new, old ∈ depara d → new ∈ written d r.1 → PAR_ID old < PAR_ID new)
  ∧ (∀ p, p ∈ pairs →
          locked r.1 CTB (Matcher.p_ID_CONTABIL p)
          ∧ (0 < Matcher.p_ID_FISICO p → locked r.1 FIS (Matcher.p_ID_FISICO p)))
  ∧ (∀ b i, locked d b i → locked r.1 b i).
Proof.
  apply (bulk_insert_pairs_locks (one_family SQLite)
           [Matcher.PairRow 1 10 100 0; Matcher.PairRow 1 11 100 1] "CA - INC").
  reflexivity.
Defined.

(** ** The propagation pass run twice ([run_propagacao_incorporados]) *)

Lemma propagation_pairs_nil_l d : pending_increments d = [] → propagation_pairs d = [].
Proof. unfold propagation_pairs. by intros ->. Qed.

Lemma propagation_pairs_nil_r d : ledger_parents d = [] → propagation_pairs d = [].
Proof.
  unfold propagation_pairs. intros ->.
  induction (pending_increments d) as [|c l IH]; [done|]. by rewrite bind_cons, IH.
Qed.

Lemma run_propagacao_fold d :
  Matcher.run_propagacao_incorporados d
  = ((Matcher._bulk_insert_pairs d (propagation_pairs d) "CA - INC").1,
     Matcher.MkStats "CA - INC"
       (Z.of_nat (length (remove_dups
          ((λ r : Z * Z * option Z, r.1.1)
             <$> ((λ r, (ID_FISICO r, ID_CONTABIL r, NRBRM r))
                    <$> filter (λ r, coalesce (INC_CONTABIL r) = 0) (depara d))))))
       (Z.of_nat (length (Matcher._read_pending_contabil d)))
       (Matcher._bulk_insert_pairs d (propagation_pairs d) "CA - INC").2).
Proof.
  unfold Matcher.run_propagacao_incorporados. cbv zeta.
  destruct ((λ r, (ID_FISICO r, ID_CONTABIL r, NRBRM r))
              <$> filter (λ r, coalesce (INC_CONTABIL r) = 0) (depara d))
    as [|p0 ps] eqn:Hp.
  { rewrite propagation_pairs_nil_r; [done|]. unfold ledger_parents. by rewrite Hp. }
  destruct (Matcher._read_pending_contabil d) as [|t0 ts] eqn:Ht.
  { rewrite propagation_pairs_nil_l; [done|]. unfold pending_increments. by rewrite Ht. }
  rewrite <- Hp, <- Ht. fold (pending_increments d) (ledger_parents d).
  destruct (ledger_parents d) as [|q0 qs] eqn:Hq.
  { rewrite propagation_pairs_nil_r by done. by rewrite Hp, Ht. }
  destruct (pending_increments d) as [|c0 cs] eqn:Hc.
  { rewrite propagation_pairs_nil_l by done. by rewrite Hp, Ht. }
  unfold propagation_pairs. rewrite Hq, Hc, Hp, Ht. done.
Qed.

Lemma elem_of_propagation_pairs d p :
  p ∈ propagation_pairs d ↔
  ∃ c q, c ∈ pending_increments d ∧ q ∈ ledger_parents d ∧ q.2 = c.1.2
         ∧ p = Matcher.PairRow q.1 c.1.1 c.1.2 c.2.
Proof.
  unfold propagation_pairs. rewrite list_elem_of_bind. split.
  - intros (c & Hp & Hc). apply list_elem_of_bind in Hp as (q & Hp & Hq).
    apply list_elem_of_singleton in Hp. apply list_elem_of_filter in Hq as [? ?].
    by exists c, q.
  - intros (c & q & Hc & Hq & Hk & ->). exists c. split; [|done].
    apply list_elem_of_bind. exists q. split; [by apply list_elem_of_singleton|].
    by apply list_elem_of_filter.
Qed.

Lemma elem_of_pending_increments d c :
  c ∈ pending_increments d ↔
  ∃ t, t ∈ contabil d ∧ ctb_ID t = Some c.1.1 ∧ ctb_NRBRM t = Some c.1.2
       ∧ coalesce (ctb_INC t) = c.2 ∧ c.2 ≠ 0
       ∧ ¬ locked d CTB c.1.1 ∧ Matcher.frag_open (ctb_FRAG t).
Proof.
  unfold pending_increments. rewrite list_elem_of_omap. split.
  - intros (t & Ht & Hc). unfold Matcher._read_pending_contabil in Ht.
    apply list_elem_of_filter in Ht as [[Hp Hf] Ht]. exists t.
    destruct (ctb_ID t) as [i|]; [|done]. destruct (ctb_NRBRM t) as [k|]; [|done].
    simpl in Hc. case_decide; [|done]. injection Hc as <-. simpl in *.
    split_and!; try done. by apply bool_decide_unpack in Hp.
  - intros (t & Ht & Hi & Hk & Hinc & Hne & Hl & Hf). exists t. split.
    + apply list_elem_of_filter. split; [|done]. split; [|done].
      rewrite Hi. simpl. by apply bool_decide_pack.
    + rewrite Hi, Hk. simpl. rewrite decide_True by (by rewrite Hinc).
      rewrite Hinc. by destruct c as [[? ?] ?].
Qed.

(** The ledger parents are not changed by the rows of increments. *)
Lemma ledger_parents_after_bulk d P stc :
  (∀ p, p ∈ P → Matcher.p_INC_CONTABIL p ≠ 0) →
  ledger_parents (Matcher._bulk_insert_pairs d P stc).1 = ledger_parents d.
Proof.
  intros Hinc. destruct (decide (P = [])) as [->|Hne]; [done|].
  rewrite bulk_insert_pairs_cons by done. unfold ledger_parents. simpl.
  rewrite filter_app.
  rewrite (filter_none _ (Matcher.bulk_depara _ _ _)); [by rewrite app_nil_r|].
  intros r Hr. unfold Matcher.bulk_depara in Hr.
  apply elem_of_lookup_imap in Hr as (i & p & -> & Hp). simpl.
  apply Hinc. by eapply list_elem_of_lookup_2.
Qed.

(** An increment still pending after the insertion was pending before and
    is not in the batch. *)
Lemma pending_increments_after_bulk d P stc c :
  c ∈ pending_increments (Matcher._bulk_insert_pairs d P stc).1 →
  c ∈ pending_increments d ∧ c.1.1 ∉ Matcher.p_ID_CONTABIL <$> P.
Proof.
  destruct (decide (P = [])) as [->|Hne].
  { simpl. intros Hc. split; [done|]. by intros ?%elem_of_nil. }
  rewrite bulk_insert_pairs_cons by done.
  intros (t1 & Ht1 & Hi & Hk & Hinc & Hn0 & Hl & Ho)%elem_of_pending_increments.
  simpl in Ht1. apply list_elem_of_fmap in Ht1 as (t & -> & Ht).
  unfold Matcher.mark_ctb in *.
  destruct (Matcher.id_among (ctb_ID t) _) eqn:Hmark; [by destruct Ho|].
  split.
  - apply elem_of_pending_increments. exists t. split_and!; try done.
    intros Hlk. apply Hl. unfold locked. simpl. by apply insert_or_ignore_keeps.
  - intros Hy. rewrite Hi in Hmark. simpl in Hmark.
    by apply bool_decide_eq_false in Hmark.
Qed.

(** Running the propagation pass again creates nothing: the second run
    reports 0 and leaves the store as the first run left it. Every increment
    attached by the first run carries the FRAG mark afterwards, and the rows
    written are no parent rows. *)
Theorem propagation_second_run_creates_nothing d :
  Matcher.conciliados
    (Matcher.run_propagacao_incorporados (Matcher.run_propagacao_incorporados d).1).2
  = 0
  ∧ (Matcher.run_propagacao_incorporados (Matcher.run_propagacao_incorporados d).1).1
    = (Matcher.run_propagacao_incorporados d).1.
Proof.
  rewrite (run_propagacao_fold d). cbn [fst snd].
  set (stc := "CA - INC"%string).
  set (d1 := (Matcher._bulk_insert_pairs d (propagation_pairs d) stc).1).
  assert (Hnil : propagation_pairs d1 = []).
  { apply elem_of_nil_inv. intros p (c & q & Hc & Hq & Hk & ->)%elem_of_propagation_pairs.
    subst d1. rewrite ledger_parents_after_bulk in Hq.
    - apply pending_increments_after_bulk in Hc as [Hc Hnot]. apply Hnot.
      apply list_elem_of_fmap. exists (Matcher.PairRow q.1 c.1.1 c.1.2 c.2).
      split; [done|]. apply elem_of_propagation_pairs. by exists c, q.
    - intros p (c' & q' & Hc' & _ & _ & ->)%elem_of_propagation_pairs. simpl.
      by apply elem_of_pending_increments in Hc' as (t & _ & _ & _ & _ & ? & _). }
  rewrite (run_propagacao_fold d1). rewrite Hnil. done.
Qed.

(** ** The shape of a signature ([_desc_attr_set]) *)

Lemma length_text (l : list ascii) : String.length (text l) = length l.
Proof. by rewrite <- length_chars, chars_text. Qed.

Lemma findall_go_tokens cur s tok :
  Forall (λ c, Similarity.is_token_char c = true) cur →
  tok ∈ Similarity.findall_go cur s →
  tok ≠ ""%string ∧ Forall (λ c, Similarity.is_token_char c = true) (chars tok).
Proof.
  assert (Htext : ∀ l, l ≠ [] → Forall (λ c, Similarity.is_token_char c = true) l →
            ∀ tok, tok = text l →
            tok ≠ ""%string ∧ Forall (λ c, Similarity.is_token_char c = true) (chars tok)).
  { intros l Hl Hall tok' ->. rewrite chars_text. split; [|done].
    intros He. apply Hl. by rewrite <- (chars_text l), He. }
  revert cur. induction s as [|c t IH]; intros cur Hcur Htok; simpl in Htok.
  - destruct cur as [|x cur]; [by apply elem_of_nil in Htok|].
    apply list_elem_of_singleton in Htok. by apply (Htext (x :: cur)).
  - destruct (Similarity.is_token_char c) eqn:Hc.
    + apply (IH (cur ++ [c])); [|done]. apply Forall_app. split; [done|].
      by apply Forall_singleton.
    + destruct cur as [|x cur]; [by apply (IH [])|].
      apply elem_of_cons in Htok as [->|Htok]; [by apply (Htext (x :: cur))|].
      by apply (IH []).
Qed.

(** Every signature is made of capitals A to Z and digits; it has three
    characters exactly, unless it is a number, which is kept whole from two
    digits on. *)
Theorem signature_shape desc a :
  a ∈ Similarity._desc_attr_set desc →
  Forall (λ c, Similarity.is_token_char c = true) (chars a)
  ∧ (String.length a = 3%nat
     ∨ (Similarity.isdigit a = true ∧ (2 ≤ String.length a)%nat)).
Proof.
  intros (tok & Htok & Hsig)%elem_of_desc_attr_set.
  unfold tokens_of, Similarity.findall_tokens in Htok.
  apply findall_go_tokens in Htok as [_ Hchars]; [|constructor].
  destruct Hsig as [_ Hdig Hlen|_ Hdig Hlen].
  - split; [done|]. by right.
  - split.
    + rewrite chars_text. apply Forall_forall. intros c Hc.
      eapply (proj1 (Forall_forall _ _) Hchars).
      eapply elem_of_sublist; [exact Hc|apply sublist_take].
    + left. rewrite length_text, length_take, length_chars. lia.
Qed.

(** ** Descriptions without labelled segments ([_strip_noise_fields]) *)

Lemma match_label_suffix lab s r :
  Similarity.match_label lab s = Some r → ∃ pre, s = pre ++ r.
Proof.
  revert s. induction lab as [|a lab IH]; intros s; simpl.
  - destruct s; intros [= <-]; by exists [].
  - destruct s as [|b s]; [done|].
    destruct (Similarity.eq_ignorecase a b); [|done].
    intros (pre & ->)%IH. by exists (b :: pre).
Qed.

Lemma skip_spaces_suffix s : ∃ pre, s = pre ++ Similarity.skip_spaces s.
Proof.
  induction s as [|c t [pre IH]]; [by exists []|]. simpl.
  destruct (is_space c); [|by exists []]. exists (c :: pre). simpl. by rewrite <- IH.
Qed.

Lemma header_from_no_separator labs s :
  Forall (λ c, Similarity.is_sep c = false) s → Similarity.header_from labs s = None.
Proof.
  intros Hs. unfold Similarity.header_from.
  induction labs as [|lab labs IH]; [done|]. simpl. rewrite IH.
  destruct (Similarity.match_label (chars lab) s) as [r|] eqn:Hm; [|done]. simpl.
  destruct (Similarity.skip_spaces r) as [|c r'] eqn:Hr; [done|].
  apply match_label_suffix in Hm as [pre ->].
  destruct (skip_spaces_suffix r) as [pre' Hr']. rewrite Hr in Hr'.
  assert (Hc : Similarity.is_sep c = false).
  { eapply (proj1 (Forall_forall _ _) Hs). rewrite Hr'. set_solver. }
  by rewrite Hc.
Qed.

Lemma scan_copy_no_separator prev s :
  Forall (λ c, Similarity.is_sep c = false) s → Similarity.scan prev Similarity.Copy s = s.
Proof.
  intros Hs. revert prev. induction Hs as [|c t Hc Ht IH]; intros prev; [done|].
  cbn [Similarity.scan].
  assert (Hno : Similarity.label_at prev (c :: t) = false).
  { unfold Similarity.label_at, Similarity.header.
    rewrite header_from_no_separator by (by constructor).
    destruct prev; [by rewrite andb_false_r|done]. }
  by rewrite Hno, IH.
Qed.

(** A description in which no colon and no equals sign occurs has no
    labelled segment: it is returned as it is, its line breaks turned into
    spaces. *)
Theorem strip_noise_fields_without_separator desc :
  Forall (λ c, Similarity.is_sep c = false) (chars desc) →
  Similarity._strip_noise_fields desc = text (Similarity.unbreak <$> chars desc).
Proof.
  intros Hs. unfold Similarity._strip_noise_fields.
  destruct (decide (desc = ""%string)) as [->|_]; [done|].
  rewrite scan_copy_no_separator; [done|].
  apply Forall_fmap. eapply Forall_impl; [exact Hs|]. intros c Hc. simpl.
  unfold Similarity.unbreak. by destruct (_ || _).
Qed.

Lemma strip_noise_fields_without_separator_witness :
  Similarity._strip_noise_fields "CABO TAG MOD"
  = text (Similarity.unbreak <$> chars "CABO TAG MOD").
Proof.
  apply (strip_noise_fields_without_separator "CABO TAG MOD").
  apply (bool_decide_eq_true_1 _). vm_compute. reflexivity.
Defined.

(** ** The connection string ([_normalize_pg_dsn]) *)

Lemma lstrip_head l c : head (lstrip l) = Some c → is_space c = false.
Proof.
  induction l as [|x l IH]; [done|]. simpl.
  destruct (is_space x) eqn:Hx; [done|]. simpl. by intros [= <-].
Qed.

Lemma lstrip_id l : (∀ c, head l = Some c → is_space c = false) → lstrip l = l.
Proof. destruct l as [|x l]; [done|]. intros Hh. simpl. by rewrite (Hh x). Qed.

Lemma lstrip_suffix l : ∃ pre, l = pre ++ lstrip l.
Proof.
  induction l as [|x l [pre IH]]; [by exists []|]. simpl.
  destruct (is_space x); [|by exists []]. exists (x :: pre). simpl. by rewrite <- IH.
Qed.

Lemma strip_trimmed l : trimmed (strip l).
Proof.
  unfold strip, trimmed. set (a := lstrip l). set (b := lstrip (reverse a)).
  split; intros c.
  - rewrite head_reverse. intros Hc.
    destruct (lstrip_suffix (reverse a)) as [pre Hpre]. fold b in Hpre.
    assert (Ha : head a = Some c).
    { rewrite <- last_reverse, Hpre, last_app, Hc. done. }
    by apply lstrip_head in Ha.
  - rewrite last_reverse. apply lstrip_head.
Qed.

Lemma strip_id l : trimmed l → strip l = l.
Proof.
  intros [Hh Hl]. unfold strip. rewrite (lstrip_id l) by done.
  rewrite lstrip_id; [apply reverse_involutive|].
  intros c. rewrite head_reverse. apply Hl.
Qed.

Lemma starts_with_app n post : SqlCompat.starts_with n (n ++ post) = true.
Proof.
  induction n as [|a n IH]; [done|]. simpl. rewrite IH.
  by rewrite bool_decide_eq_true_2.
Qed.

Lemma contains_app n pre post : SqlCompat.contains n (pre ++ n ++ post) = true.
Proof.
  induction pre as [|x pre IH]; simpl.
  - destruct (n ++ post) as [|y l] eqn:Heq.
    + destruct n; [done|discriminate Heq].
    + simpl. rewrite <- Heq, starts_with_app. done.
  - rewrite IH. apply orb_true_r.
Qed.

Lemma normalize_pg_dsn_fixed l :
  trimmed l → l ≠ [] → SqlCompat.contains (chars "connect_timeout=") l = true →
  SqlCompat._normalize_pg_dsn (text l) = text l.
Proof.
  intros Ht Hne Hc. unfold SqlCompat._normalize_pg_dsn. cbv zeta.
  rewrite chars_text, (strip_id l) by done. rewrite Hc. by destruct l.
Qed.

Lemma normalize_pg_dsn_cases dsn :
  SqlCompat._normalize_pg_dsn dsn = ""%string
  ∨ ∃ l, SqlCompat._normalize_pg_dsn dsn = text l ∧ trimmed l ∧ l ≠ []
         ∧ SqlCompat.contains (chars "connect_timeout=") l = true.
Proof.
  unfold SqlCompat._normalize_pg_dsn. cbv zeta.
  pose proof (strip_trimmed (chars dsn)) as Ht.
  destruct (strip (chars dsn)) as [|x t] eqn:Hs; [by left|]. right.
  destruct (SqlCompat.contains (chars "connect_timeout=") (x :: t)) eqn:Hc.
  - by exists (x :: t).
  - exists ((x :: t) ++ chars " connect_timeout=2"). split_and!; [done| |done|].
    + destruct Ht as [Hh _]. split; intros c.
      * simpl. apply Hh.
      * rewrite last_app. simpl. by intros [= <-].
    + change (chars " connect_timeout=2")
        with ([" "%char] ++ chars "connect_timeout=" ++ ["2"%char]).
      rewrite app_assoc. apply contains_app.
Qed.

(** Normalizing a connection string twice gives what normalizing it once
    gives; the result is empty, for a blank string, or names a connection
    timeout. *)
Theorem normalize_pg_dsn_idempotent dsn :
  SqlCompat._normalize_pg_dsn (SqlCompat._normalize_pg_dsn dsn)
  = SqlCompat._normalize_pg_dsn dsn
  ∧ (SqlCompat._normalize_pg_dsn dsn = ""%string
     ∨ SqlCompat.contains (chars "connect_timeout=")
         (chars (SqlCompat._normalize_pg_dsn dsn)) = true).
Proof.
  destruct (normalize_pg_dsn_cases dsn) as [->|(l & -> & Ht & Hne & Hc)].
  - split; [done|by left].
  - split; [by apply normalize_pg_dsn_fixed|]. right. by rewrite chars_text.
Qed.

(** ** A commit locks what it writes *)

Lemma rows_locked_append s stc fis_id ctb_id nrbrm inc always :
  rows_locked s → rows_locked (append_pair s stc fis_id ctb_id nrbrm inc always).
Proof.
  intros Hs r Hr. simpl in *. apply elem_of_app in Hr as [Hr|Hr].
  - destruct (Hs r Hr) as [Hf Hc]. split; intros Hpos; apply elem_of_app; left; auto.
  - apply list_elem_of_singleton in Hr. subst r. simpl. split; intros Hpos.
    + apply elem_of_app. right. rewrite bool_decide_eq_true_2 by done. set_solver.
    + apply elem_of_app. right. rewrite (bool_decide_eq_true_2 (0 < ctb_id)) by done.
      rewrite orb_true_r. set_solver.
Qed.

Lemma locks_positive_append s stc fis_id ctb_id nrbrm inc :
  locks_positive s → locks_positive (append_pair s stc fis_id ctb_id nrbrm inc false).
Proof.
  intros Hs l Hl. simpl in Hl.
  apply elem_of_app in Hl as [Hl|Hl]; [by apply Hs|].
  apply elem_of_app in Hl as [Hl|Hl].
  - case_bool_decide; [|by apply elem_of_nil in Hl].
    apply list_elem_of_singleton in Hl. by subst l.
  - case_bool_decide; [|by apply elem_of_nil in Hl].
    apply list_elem_of_singleton in Hl. by subst l.
Qed.

Lemma save_pairs_rows_locked d stc pairs s :
  rows_locked s ∧ locks_positive s →
  rows_locked (foldl (save_pairs_row d stc) s pairs)
  ∧ locks_positive (foldl (save_pairs_row d stc) s pairs).
Proof.
  revert s. induction pairs as [|p pairs IH]; intros s Hs; [done|].
  simpl. apply IH. destruct Hs as [H1 H2]. unfold save_pairs_row. cbv zeta.
  repeat case_decide; try done;
    repeat match goal with
           | |- context [contabil_by_id ?d ?i] => destruct (contabil_by_id d i); simpl
           | |- context [fisico_by_id ?d ?i] => destruct (fisico_by_id d i); simpl
           end; try done;
    (split; [by apply rows_locked_append|by apply locks_positive_append]).
Qed.

Lemma write_rows_locks d s :
  rows_locked s →
  (∀ r, r ∈ written d (write_rows d s) →
        (0 < ID_FISICO r → locked (write_rows d s) FIS (ID_FISICO r))
        ∧ (0 < ID_CONTABIL r → locked (write_rows d s) CTB (ID_CONTABIL r)))
  ∧ (∀ b i, locked d b i → locked (write_rows d s) b i)
  ∧ fis (get_counts (write_rows d s)) ≤ fis (get_counts d)
  ∧ ctb (get_counts (write_rows d s)) ≤ ctb (get_counts d).
Proof.
  intros Hs.
  assert (Hkeep : ∀ b i, locked d b i → locked (write_rows d s) b i).
  { intros b i Hl. unfold locked. simpl. by apply insert_or_ignore_keeps. }
  assert (Hpend : ∀ b o, pending_id (write_rows d s) b o → pending_id d b o).
  { intros b [i|]; [|done]. simpl. intros Hp%bool_decide_unpack.
    apply bool_decide_pack. intros Hl. by apply Hp, Hkeep. }
  split_and!; [|done|..].
  - intros r Hr. rewrite written_write_rows in Hr. destruct (Hs r Hr) as [Hf Hc].
    split; intros Hpos; unfold locked; simpl.
    + apply (insert_or_ignore_locks (engine d) _ (conciliados d)) in Hf; done.
    + apply (insert_or_ignore_locks (engine d) _ (conciliados d)) in Hc; done.
  - unfold get_counts. simpl. apply inj_le. apply filter_length_le_of_imp.
    intros f _. apply Hpend.
  - unfold get_counts. simpl. apply inj_le. apply filter_length_le_of_imp.
    intros t _. apply Hpend.
Qed.

(** After [save_pairs], every positive side of every ledger row written
    has a lock row; no lock row is lost, so no pending count goes up; and the
    lock rows added all carry a positive record id. *)
Theorem save_pairs_locks_rows d pairs stc :
  let r := save_pairs d pairs stc in
  (∀ row, row ∈ written d r.1 →
          (0 < ID_FISICO row → locked r.1 FIS (ID_FISICO row))
          ∧ (0 < ID_CONTABIL row → locked r.1 CTB (ID_CONTABIL row)))
  ∧ (∀ b i, locked d b i → locked r.1 b i)
  ∧ fis (get_counts r.1) ≤ fis (get_counts d)
  ∧ ctb (get_counts r.1) ≤ ctb (get_counts d)
  ∧ ∃ added, conciliados r.1 = conciliados d ++ added
             ∧ ∀ l, l ∈ added → 0 < conc_ID l.
Proof.
  rewrite save_pairs_fold. cbn [fst snd].
  destruct (save_pairs_rows_locked d stc pairs (begin_save d)) as [H1 H2].
  { split; [by intros r ?%elem_of_nil|by intros l ?%elem_of_nil]. }
  destruct (write_rows_locks d _ H1) as (W1 & W2 & W3 & W4).
  split_and!; [done..|]. simpl.
  destruct (insert_or_ignore_app (engine d)
              (conc_rows (foldl (save_pairs_row d stc) (begin_save d) pairs))
              (conciliados d)) as (k & -> & Hk).
  exists k. split; [done|]. intros l Hl. by apply H2, Hk.
Qed.

Lemma rows_locked_family_main_row d stc child acc p :
  rows_locked acc.1 → rows_locked (family_main_row d stc child acc p).1.
Proof.
  intros Hs. unfold family_main_row. cbv zeta.
  repeat case_decide; try done;
    repeat match goal with
           | |- context [contabil_by_id ?d ?i] => destruct (contabil_by_id d i); simpl
           | |- context [fisico_by_id ?d ?i] => destruct (fisico_by_id d i); simpl
           end; try done; by apply rows_locked_append.
Qed.

Lemma rows_locked_family_rows d stc child pairs acc :
  rows_locked acc.1 → rows_locked (foldl (family_main_row d stc child) acc pairs).1.
Proof.
  revert acc. induction pairs as [|p pairs IH]; intros acc Hs; [done|].
  simpl. apply IH. by apply rows_locked_family_main_row.
Qed.

Lemma rows_locked_propagate_family d stc child s nv s' :
  rows_locked s →
  propagate_family d stc child (Some s) nv = Some s' → rows_locked s'.
Proof.
  intros Hinv. unfold propagate_family. simpl. case_decide; [by intros [= <-]|].
  apply (foldl_option_inv _ rows_locked); [done| |done].
  intros a b a' Ha. unfold propagate_row. simpl.
  destruct b.1 as [c|]; simpl; [|done].
  case_decide; intros [= <-]; [done|]. by apply rows_locked_append.
Qed.

(** After [save_pairs_with_family], every positive side of every ledger
    row written, family rows included, has a lock row; no lock row is lost,
    and no pending count goes up. *)
Theorem save_pairs_with_family_locks_rows d pairs stc d' n :
  save_pairs_with_family d pairs stc = Some (d', n) →
  (∀ row, row ∈ written d d' →
          (0 < ID_FISICO row → locked d' FIS (ID_FISICO row))
          ∧ (0 < ID_CONTABIL row → locked d' CTB (ID_CONTABIL row)))
  ∧ (∀ b i, locked d b i → locked d' b i)
  ∧ fis (get_counts d') ≤ fis (get_counts d)
  ∧ ctb (get_counts d') ≤ ctb (get_counts d).
Proof.
  intros (s & Hfold & -> & ->)%save_pairs_with_family_state.
  apply write_rows_locks.
  assert (Hmain : rows_locked (family_main d stc pairs).1).
  { unfold family_main. apply rows_locked_family_rows. by intros r ?%elem_of_nil. }
  revert Hfold. apply foldl_option_inv; [done| |done].
  intros a b a' Ha. by apply rows_locked_propagate_family.
Qed.

Lemma save_pairs_with_family_locks_rows_witness :
  match save_pairs_with_family (one_family SQLite) [(1, 10)] "MANUAL" with
  | Some (d', n) =>
    get_counts (one_family SQLite) = MkCounts 1 2
    ∧ get_counts d' = MkCounts 0 0
    ∧ (∀ row, row ∈ written (one_family SQLite) d' →
              (0 < ID_FISICO row → locked d' FIS (ID_FISICO row))
              ∧ (0 < ID_CONTABIL row → locked d' CTB (ID_CONTABIL row)))
    ∧ (∀ b i, locked (one_family SQLite) b i → locked d' b i)
    ∧ fis (get_counts d') ≤ fis (get_counts (one_family SQLite))
    ∧ ctb (get_counts d') ≤ ctb (get_counts (one_family SQLite))
  | None => False
  end.
Proof.
  destruct (save_pairs_with_family (one_family SQLite) [(1, 10)] "MANUAL")
    as [[d' n]|] eqn:Hsave; [|vm_compute in Hsave; discriminate Hsave].
  split; [vm_compute; reflexivity|].
  split; [vm_compute in Hsave; injection Hsave as <- _; vm_compute; reflexivity|].
  by apply (save_pairs_with_family_locks_rows (one_family SQLite) [(1, 10)] "MANUAL" d' n).
Defined.

(** ** What the two unattended passes write *)

Lemma written_bulk_insert d P stc r :
  r ∈ written d (Matcher._bulk_insert_pairs d P stc).1 →
  ∃ p, p ∈ P ∧ ST_CONCILIACAO r = stc
       ∧ ID_FISICO r = Matcher.p_ID_FISICO p ∧ ID_CONTABIL r = Matcher.p_ID_CONTABIL p
       ∧ NRBRM r = Some (Matcher.p_NRBRM p)
       ∧ INC_CONTABIL r = Some (Matcher.p_INC_CONTABIL p).
Proof.
  destruct (decide (P = [])) as [->|Hne].
  { unfold written. simpl. rewrite drop_all. by intros ?%elem_of_nil. }
  rewrite bulk_insert_pairs_cons by done. unfold written. simpl.
  rewrite drop_app_length. unfold Matcher.bulk_depara.
  intros (i & p & -> & Hp)%elem_of_lookup_imap. exists p. simpl.
  split_and!; try done. by eapply list_elem_of_lookup_2.
Qed.

(** On a SQLite store whose group keys and increment numbers are exact in a
    double, every ledger row the group-key rule writes joins a pending
    physical record and a pending accounting parent (INC = 0) that carry the
    same group key; it never takes an increment, a locked record or a record
    marked in FRAG. *)
Theorem group_key_rule_rows d r :
  engine d = SQLite → keys_exact d →
  r ∈ written d (Matcher.run_regra_nrbrm_pai d).1 →
  ∃ f t k, f ∈ fisico d ∧ t ∈ contabil d
    ∧ fis_ID f = Some (ID_FISICO r) ∧ ctb_ID t = Some (ID_CONTABIL r)
    ∧ fis_NRBRM f = Some k ∧ ctb_NRBRM t = Some k ∧ NRBRM r = Some k
    ∧ coalesce (ctb_INC t) = 0 ∧ INC_CONTABIL r = Some 0
    ∧ ¬ locked d FIS (ID_FISICO r) ∧ ¬ locked d CTB (ID_CONTABIL r)
    ∧ Matcher.frag_open (fis_FRAG f) ∧ Matcher.frag_open (ctb_FRAG t)
    ∧ ST_CONCILIACAO r = "NRBEM_FIS=NRBEM_CTB"%string.
Proof.
  intros _ _. rewrite run_regra_nrbrm_pai_fold. cbn [fst].
  intros (p & Hp & Hst & Hf & Hc & Hn & Hi)%written_bulk_insert.
  unfold nrbrm_pairs in Hp. apply list_elem_of_fmap in Hp as ([[x y] k] & -> & Hm).
  simpl in *.
  apply elem_of_pair_1to1 in Hm as (a & c & Ha & Hc' & Hax & Hcy & _).
  assert (Hx : (x, k) ∈ pending_fis_keys d).
  { apply elem_of_frame_group. exists a. split; [done|].
    apply elem_of_group in Ha as [_ Hk]. destruct a as [i [x' k']]; simpl in *. by subst. }
  assert (Hy : (y, k) ∈ pending_parent_keys d).
  { apply elem_of_frame_group. exists c. split; [done|].
    apply elem_of_group in Hc' as [_ Hk]. destruct c as [i [y' k']]; simpl in *. by subst. }
  apply elem_of_pending_fis_keys in Hx as (f & Hfin & Hfi & Hfk & Hfl & Hfo).
  apply elem_of_pending_parent_keys in Hy as (t & Htin & Hti & Htk & Htinc & Htl & Hto).
  exists f, t, k. rewrite Hf, Hc. split_and!; done.
Qed.

Lemma elem_of_ledger_parents d q :
  q ∈ ledger_parents d ↔
  ∃ r, r ∈ depara d ∧ coalesce (INC_CONTABIL r) = 0
       ∧ NRBRM r = Some q.2 ∧ ID_FISICO r = q.1.
Proof.
  unfold ledger_parents. rewrite list_elem_of_omap. split.
  - intros (x & Hx & Hq). apply list_elem_of_fmap in Hx as (r & -> & Hr).
    apply list_elem_of_filter in Hr as [Hinc Hr]. simpl in Hq.
    destruct (NRBRM r) as [k|] eqn:Hk; [|done]. injection Hq as <-.
    exists r. by rewrite Hk.
  - intros (r & Hr & Hinc & Hk & Hf). exists (ID_FISICO r, ID_CONTABIL r, NRBRM r).
    split.
    + apply list_elem_of_fmap. exists r. split; [done|]. by apply list_elem_of_filter.
    + simpl. rewrite Hk, Hf. simpl. by destruct q.
Qed.

(** On a SQLite store whose group keys and increment numbers are exact in a
    double, every ledger row the propagation pass writes attaches a pending
    accounting increment (INC not 0) to the physical id of a ledger row of a
    parent with the same group key; it never takes a parent, a locked record
    or a record marked in FRAG. *)
Theorem propagation_rows d r :
  engine d = SQLite → keys_exact d →
  r ∈ written d (Matcher.run_propagacao_incorporados d).1 →
  ∃ t parent k, t ∈ contabil d ∧ parent ∈ depara d
    ∧ ctb_ID t = Some (ID_CONTABIL r) ∧ ctb_NRBRM t = Some k
    ∧ NRBRM parent = Some k ∧ coalesce (INC_CONTABIL parent) = 0
    ∧ ID_FISICO r = ID_FISICO parent ∧ NRBRM r = Some k
    ∧ INC_CONTABIL r = Some (coalesce (ctb_INC t)) ∧ coalesce (ctb_INC t) ≠ 0
    ∧ ¬ locked d CTB (ID_CONTABIL r) ∧ Matcher.frag_open (ctb_FRAG t)
    ∧ ST_CONCILIACAO r = "CA - INC"%string.
Proof.
  intros _ _. rewrite run_propagacao_fold. cbn [fst].
  intros (p & Hp & Hst & Hf & Hc & Hn & Hi)%written_bulk_insert.
  apply elem_of_propagation_pairs in Hp as (c & q & Hc' & Hq & Hk & ->). simpl in *.
  apply elem_of_pending_increments in Hc' as (t & Ht & Hti & Htk & Htinc & Hne & Hl & Ho).
  apply elem_of_ledger_parents in Hq as (parent & Hpar & Hpinc & Hpk & Hpf).
  exists t, parent, c.1.2. rewrite Hf, Hc, Htinc. split_and!; try done.
  by rewrite Hpk, Hk.
Qed.

Lemma group_key_rule_rows_witness :
  let d := scenario SQLite in
  let r := DeparaRow 2 "NRBEM_FIS=NRBEM_CTB" 2 3 (Some 200) (Some 0) in
  ∃ f t k, f ∈ fisico d ∧ t ∈ contabil d
    ∧ fis_ID f = Some (ID_FISICO r) ∧ ctb_ID t = Some (ID_CONTABIL r)
    ∧ fis_NRBRM f = Some k ∧ ctb_NRBRM t = Some k ∧ NRBRM r = Some k
    ∧ coalesce (ctb_INC t) = 0 ∧ INC_CONTABIL r = Some 0
    ∧ ¬ locked d FIS (ID_FISICO r) ∧ ¬ locked d CTB (ID_CONTABIL r)
    ∧ Matcher.frag_open (fis_FRAG f) ∧ Matcher.frag_open (ctb_FRAG t)
    ∧ ST_CONCILIACAO r = "NRBEM_FIS=NRBEM_CTB"%string.
Proof.
  apply (group_key_rule_rows (scenario SQLite)
           (DeparaRow 2 "NRBEM_FIS=NRBEM_CTB" 2 3 (Some 200) (Some 0))).
  - reflexivity.
  - apply (bool_decide_eq_true_1 _). vm_compute. reflexivity.
  - apply (bool_decide_eq_true_1 _). vm_compute. reflexivity.
Defined.

Lemma propagation_rows_witness :
  let d := (Matcher.run_regra_nrbrm_pai (scenario SQLite)).1 in
  let r := DeparaRow 3 "CA - INC" 1 2 (Some 100) (Some 5) in
  ∃ t parent k, t ∈ contabil d ∧ parent ∈ depara d
    ∧ ctb_ID t = Some (ID_CONTABIL r) ∧ ctb_NRBRM t = Some k
    ∧ NRBRM parent = Some k ∧ coalesce (INC_CONTABIL parent) = 0
    ∧ ID_FISICO r = ID_FISICO parent ∧ NRBRM r = Some k
    ∧ INC_CONTABIL r = Some (coalesce (ctb_INC t)) ∧ coalesce (ctb_INC t) ≠ 0
    ∧ ¬ locked d CTB (ID_CONTABIL r) ∧ Matcher.frag_open (ctb_FRAG t)
    ∧ ST_CONCILIACAO r = "CA - INC"%string.
Proof.
  apply (propagation_rows (Matcher.run_regra_nrbrm_pai (scenario SQLite)).1
           (DeparaRow 3 "CA - INC" 1 2 (Some 100) (Some 5))).
  - reflexivity.
  - apply (bool_decide_eq_true_1 _). vm_compute. reflexivity.
  - apply (bool_decide_eq_true_1 _). vm_compute. reflexivity.
Defined.

(** ** The pending lists and the pending counts *)

(** The list of pending records the manual screen loads and the pending
    count it shows agree: without the parents-only option, each list has as
    many rows as [get_counts] reports for its side, unless the limit cuts
    it; with the option, the accounting list is no longer than that. Every
    row listed is a pending row of the register. *)
Theorem pending_lists_match_counts d limit only_inc0 :
  Z.of_nat (length (Manual.load_pending_manual_fis d limit))
  = Z.min (Z.of_nat limit) (fis (get_counts d))
  ∧ Z.of_nat (length (Manual.load_pending_manual_ctb d limit false))
    = Z.min (Z.of_nat limit) (ctb (get_counts d))
  ∧ Z.of_nat (length (Manual.load_pending_manual_ctb d limit only_inc0))
    ≤ Z.min (Z.of_nat limit) (ctb (get_counts d))
  ∧ (∀ f, f ∈ Manual.load_pending_manual_fis d limit →
          f ∈ fisico d ∧ pending_id d FIS (fis_ID f))
  ∧ (∀ t, t ∈ Manual.load_pending_manual_ctb d limit only_inc0 →
          t ∈ contabil d ∧ pending_id d CTB (ctb_ID t)).
Proof.
  unfold Manual.load_pending_manual_fis, Manual.load_pending_manual_ctb, get_counts.
  cbn [fis ctb]. split_and!.
  - rewrite length_take, merge_sort_Permutation. lia.
  - rewrite length_take, merge_sort_Permutation.
    rewrite (list_filter_iff _ (λ t, pending_id d CTB (ctb_ID t))); [lia|].
    intros t. split; [by intros [? _]|by intros ?].
  - rewrite length_take, merge_sort_Permutation.
    pose proof (filter_length_le_of_imp
      (λ t, pending_id d CTB (ctb_ID t) ∧ (only_inc0 = true → coalesce (ctb_INC t) = 0))
      (λ t, pending_id d CTB (ctb_ID t)) (contabil d)) as Hle.
    assert (Himp : ∀ t, t ∈ contabil d →
      pending_id d CTB (ctb_ID t) ∧ (only_inc0 = true → coalesce (ctb_INC t) = 0) →
      pending_id d CTB (ctb_ID t)) by (by intros t _ [? _]).
    specialize (Hle Himp). lia.
  - intros f Hf. eapply elem_of_sublist in Hf; [|apply sublist_take].
    rewrite merge_sort_Permutation in Hf.
    by apply list_elem_of_filter in Hf as [? ?].
  - intros t Ht. eapply elem_of_sublist in Ht; [|apply sublist_take].
    rewrite merge_sort_Permutation in Ht.
    by apply list_elem_of_filter in Ht as [[? _] ?].
Qed.

Lemma signature_shape_witness :
  Forall (λ c, Similarity.is_token_char c = true) (chars "CAD")
  ∧ (String.length "CAD" = 3%nat
     ∨ (Similarity.isdigit "CAD" = true ∧ (2 ≤ String.length "CAD")%nat)).
Proof.
  apply (signature_shape office_chair "CAD").
  apply (bool_decide_eq_true_1 _). vm_compute. reflexivity.
Defined.

(** ** The rewriting of INSERT OR IGNORE *)

Lemma lstrip_app_nonspace a c b :
  is_space c = false → lstrip (a ++ c :: b) = lstrip a ++ c :: b.
Proof.
  intros Hc. induction a as [|x a IH]; simpl; [by rewrite Hc|].
  by destruct (is_space x).
Qed.

Lemma rstrip_app_nonspace u c v :
  is_space c = false →
  SqlCompat.rstrip (u ++ c :: v) = u ++ c :: SqlCompat.rstrip v.
Proof.
  intros Hc. unfold SqlCompat.rstrip.
  rewrite reverse_app, reverse_cons, <- app_assoc. simpl.
  rewrite lstrip_app_nonspace by done.
  by rewrite reverse_app, reverse_cons, reverse_involutive, <- app_assoc.
Qed.

Lemma lstrip_spaces l : Forall (λ c, is_space c = true) l → lstrip l = [].
Proof. induction 1 as [|c l Hc _ IH]; [done|]. simpl. by rewrite Hc. Qed.

Lemma rstrip_spaces l :
  Forall (λ c, is_space c = true) l → SqlCompat.rstrip l = [].
Proof.
  intros Hl. unfold SqlCompat.rstrip. rewrite lstrip_spaces; [done|].
  by apply Forall_reverse.
Qed.

Lemma take_snoc {A} (l : list A) (x : A) : take (length (l ++ [x]) - 1) (l ++ [x]) = l.
Proof.
  rewrite length_app. simpl. rewrite Nat.add_sub. by rewrite take_app_length.
Qed.

(** What [_rewrite_insert_or_ignore] builds before it appends the conflict
    clause starts with the new head. *)
Lemma rewritten_head rest :
  let stripped := SqlCompat.rstrip (chars "INSERT INTO " ++ rest) in
  ∃ body,
    (if decide (code <$> last stripped = Some 59%N)
     then take (length stripped - 1) stripped else stripped)
    = chars "INSERT INTO" ++ body.
Proof.
  change (chars "INSERT INTO " ++ rest)
    with (chars "INSERT INT" ++ "O"%char :: " "%char :: rest).
  rewrite rstrip_app_nonspace by done. simpl.
  set (w := SqlCompat.rstrip (" "%char :: rest)).
  change (chars "INSERT INT" ++ "O"%char :: w) with (chars "INSERT INTO" ++ w).
  case_decide as Hl; [|by exists w].
  destruct w as [|x w _] using rev_ind; [by vm_compute in Hl|].
  exists w. do 10 f_equal. rewrite length_app, Nat.add_1_r. simpl.
  f_equal. apply take_app_length.
Qed.

Lemma new_head_is_no_insert_or_ignore body :
  SqlCompat.insert_or_ignore_head (chars "INSERT INTO" ++ body) = None.
Proof. reflexivity. Qed.

Lemma rewrite_insert_or_ignore_head sql :
  SqlCompat.insert_or_ignore_head (chars (SqlCompat._rewrite_insert_or_ignore sql))
  = None.
Proof.
  unfold SqlCompat._rewrite_insert_or_ignore.
  destruct (SqlCompat.insert_or_ignore_head (chars sql)) as [rest|] eqn:Hh; [|done].
  destruct (rewritten_head rest) as [body Hb].
  cbv zeta. rewrite Hb, chars_text, <- app_assoc.
  apply new_head_is_no_insert_or_ignore.
Qed.

(** The rewriting of a statement for PostgreSQL is stable: what it returns
    is never again an [INSERT OR IGNORE] statement, so that a statement
    rewritten twice is the statement rewritten once, with a single conflict
    clause. *)
Theorem rewrite_insert_or_ignore_idempotent sql :
  SqlCompat.insert_or_ignore_head (chars (SqlCompat._rewrite_insert_or_ignore sql))
  = None
  ∧ SqlCompat._rewrite_insert_or_ignore (SqlCompat._rewrite_insert_or_ignore sql)
    = SqlCompat._rewrite_insert_or_ignore sql.
Proof.
  split; [apply rewrite_insert_or_ignore_head|].
  unfold SqlCompat._rewrite_insert_or_ignore at 1.
  by rewrite rewrite_insert_or_ignore_head.
Qed.

(** A statement that starts with [INSERT OR IGNORE INTO], in any case and
    with any spacing, and goes on with a body whose last character is
    neither a space nor a semicolon, then at most one semicolon, then only
    spaces, becomes [INSERT INTO], one space, the body unchanged, and the
    conflict clause: the spaces at the end and the one semicolon are
    dropped. *)
Theorem rewrite_insert_or_ignore_statement sql (body semi post : list ascii) c :
  SqlCompat.insert_or_ignore_head (chars sql) = Some (body ++ semi ++ post) →
  last body = Some c → is_space c = false → code c ≠ 59%N →
  semi = [] ∨ semi = [";"%char] →
  Forall (λ x, is_space x = true) post →
  SqlCompat._rewrite_insert_or_ignore sql
  = text (chars "INSERT INTO " ++ body ++ chars " ON CONFLICT DO NOTHING;").
Proof.
  intros Hh Hlast Hc Hsemi Hs Hpost.
  unfold SqlCompat._rewrite_insert_or_ignore. rewrite Hh. cbv zeta.
  apply last_Some in Hlast as [b ->].
  assert (Hstrip : SqlCompat.rstrip (chars "INSERT INTO " ++ (b ++ [c]) ++ semi ++ post)
                   = (chars "INSERT INTO " ++ b ++ [c]) ++ semi).
  { rewrite <- (app_assoc b), (app_assoc _ b). simpl ([c] ++ _).
    rewrite rstrip_app_nonspace by done.
    destruct Hs as [-> | ->]; simpl.
    - rewrite rstrip_spaces by done. by rewrite <- !app_assoc, app_nil_r.
    - rewrite (rstrip_app_nonspace [] ";"%char post eq_refl
               : SqlCompat.rstrip (";"%char :: post) = ";"%char :: SqlCompat.rstrip post).
      rewrite rstrip_spaces by done. by rewrite <- !app_assoc. }
  rewrite Hstrip. f_equal.
  destruct Hs as [-> | ->].
  - rewrite app_nil_r, (app_assoc _ b [c]), last_snoc. simpl.
    case_decide as Hd; [congruence|]. reflexivity.
  - rewrite last_snoc. rewrite decide_True by done.
    rewrite take_snoc. by rewrite <- !app_assoc.
Qed.

Lemma rewrite_insert_or_ignore_statement_witness :
  SqlCompat._rewrite_insert_or_ignore "  insert or  IGNORE into t(a) VALUES (?); "
  = text (chars "INSERT INTO " ++ chars "t(a) VALUES (?)"
            ++ chars " ON CONFLICT DO NOTHING;").
Proof.
  apply (rewrite_insert_or_ignore_statement _
           (chars "t(a) VALUES (?)") [";"%char] [" "%char] ")"%char).
  - vm_compute. reflexivity.
  - vm_compute. reflexivity.
  - vm_compute. reflexivity.
  - vm_compute. discriminate.
  - by right.
  - repeat constructor.
Defined.

(** ** The lock table on PostgreSQL *)

Lemma postgres_commits_keep_locks_unique_witness :
  locks_unique (save_pairs (one_family Postgres) [(1, 10); (1, 11)] "MANUAL").1
  ∧ (∀ d' n,
       save_pairs_with_family (one_family Postgres) [(1, 10); (1, 11)] "MANUAL"
       = Some (d', n) →
       locks_unique d').
Proof.
  apply (postgres_commits_keep_locks_unique (one_family Postgres)
           [(1, 10); (1, 11)] "MANUAL").
  - reflexivity.
  - apply NoDup_nil_2.
Defined.

(** ** The containment rules 2 and 3 *)

(** Rule 2 looks for the accounting serial in the physical description: for
    an accounting record whose normalized serial holds neither a percent
    sign nor an underscore, the join yields the pair exactly when both
    records are in the store and pending, the accounting record is a parent,
    the serial has length 4 or more and occurs in the normalized physical
    description, the case of the ASCII letters aside. *)
Theorem rule_2_accounting_serial_in_description d f t x :
  engine d = SQLite →
  ctb_SERIE_NORM t = Some x →
  no_wildcard x →
  (f, t) ∈ Contain.base_sql "2" d
  ↔ f ∈ fisico d ∧ t ∈ contabil d
    ∧ pending_id d FIS (fis_ID f) ∧ pending_id d CTB (ctb_ID t)
    ∧ coalesce (ctb_INC t) = 0
    ∧ (4 ≤ String.length x)%nat
    ∧ ∃ y, fis_DESC_NORM f = Some y ∧ occurs_in (folded x) (folded y).
Proof.
  intros _ Hterm Hx. rewrite elem_of_base_sql.
  change (Contain.join_cond "2" f t)
    with (Contain.contained (ctb_SERIE_NORM t) (fis_DESC_NORM f)).
  rewrite Hterm, contained_spec by done. tauto.
Qed.

Lemma rule_2_accounting_serial_in_description_witness :
  (phys_described 1 "NOTEBOOK SN XYZ9876" "L14", acct_serial 10 0 "XYZ9876" "L14")
    ∈ Contain.base_sql "2" described_store.
Proof.
  apply (rule_2_accounting_serial_in_description described_store
           (phys_described 1 "NOTEBOOK SN XYZ9876" "L14")
           (acct_serial 10 0 "XYZ9876" "L14") "XYZ9876").
  - reflexivity.
  - reflexivity.
  - apply (bool_decide_eq_true_1 _). vm_compute. reflexivity.
  - split_and!.
    + apply (bool_decide_eq_true_1 _). vm_compute. reflexivity.
    + apply (bool_decide_eq_true_1 _). vm_compute. reflexivity.
    + vm_compute. exact I.
    + vm_compute. exact I.
    + reflexivity.
    + simpl. lia.
    + exists "NOTEBOOK SN XYZ9876"%string. split; [reflexivity|].
      exists (folded "NOTEBOOK SN "), []. vm_compute. reflexivity.
Defined.

(** Rule 3 joins on the model: the join yields the pair exactly when both
    records are in the store and pending, the accounting record is a
    parent, and the two normalized models are the same text, character for
    character, and not empty. No minimal length is asked, and a record
    without a model is in no pair. *)
Theorem rule_3_same_model d f t :
  ((f, t) ∈ Contain.base_sql "3" d
   ↔ f ∈ fisico d ∧ t ∈ contabil d
     ∧ pending_id d FIS (fis_ID f) ∧ pending_id d CTB (ctb_ID t)
     ∧ coalesce (ctb_INC t) = 0
     ∧ ∃ m, m ≠ ""%string ∧ fis_MODELO_NORM f = Some m ∧ ctb_MODELO_NORM t = Some m)
  ∧ (fis_MODELO_NORM f = None ∨ fis_MODELO_NORM f = Some ""%string →
     ∀ t', (f, t') ∉ Contain.base_sql "3" d)
  ∧ (ctb_MODELO_NORM t = None ∨ ctb_MODELO_NORM t = Some ""%string →
     ∀ f', (f', t) ∉ Contain.base_sql "3" d).
Proof.
  assert (Hjoin : ∀ f' t', Contain.join_cond "3" f' t' = true
            ↔ ∃ m, m ≠ ""%string ∧ fis_MODELO_NORM f' = Some m
                   ∧ ctb_MODELO_NORM t' = Some m).
  { intros f' t'.
    change (Contain.join_cond "3" f' t')
      with (match fis_MODELO_NORM f', ctb_MODELO_NORM t' with
            | Some a, Some b => bool_decide (b ≠ ""%string ∧ a = b)
            | _, _ => false
            end).
    destruct (fis_MODELO_NORM f') as [a|], (ctb_MODELO_NORM t') as [b|].
    - rewrite bool_decide_eq_true. split.
      + intros [Hb ->]. by exists b.
      + intros (m & Hm & [= ->] & [= ->]). done.
    - split; [done|]. by intros (m & _ & _ & ?).
    - split; [done|]. by intros (m & _ & ? & _).
    - split; [done|]. by intros (m & _ & ? & _). }
  split_and!.
  - rewrite elem_of_base_sql, Hjoin. tauto.
  - intros Hf t' Hin. apply elem_of_base_sql in Hin as (_ & _ & Hj & _).
    apply Hjoin in Hj as (m & Hm & Hfm & _).
    destruct Hf as [Hf|Hf]; rewrite Hf in Hfm; [done|]. by injection Hfm as <-.
  - intros Ht f' Hin. apply elem_of_base_sql in Hin as (_ & _ & Hj & _).
    apply Hjoin in Hj as (m & Hm & _ & Htm).
    destruct Ht as [Ht|Ht]; rewrite Ht in Htm; [done|]. by injection Htm as <-.
Qed.

(** ** Commit: a locked pair is passed over, the others are committed *)











